(** * DXR build driver: tag streams, balancing, line rendering, indexing

    A shallow embedding of [dxr/build.py].  Python generators are modelled by
    the list of values they yield; a generator that can raise is modelled by a
    [result] holding either the whole list or the exception.  Python objects
    whose identity matters (tag payloads) carry an object id, and [is] compares
    ids. *)

From Stdlib Require Import ZArith Bool Lia Arith String Ascii.
From Stdlib Require Import List Sorted.
Import ListNotations.
Open Scope Z_scope.

(* ================================================================== *)
(** * Definitions *)
(* ================================================================== *)

(** ** Exceptions *)

Inductive exn : Type :=
| AssertionError
| IndexError
| UnboundLocalError
| TypeError.

Inductive result (A : Type) : Type :=
| Ok (a : A)
| Raise (e : exn).
Arguments Ok {A} a.
Arguments Raise {A} e.

Definition bind {A B : Type} (r : result A) (k : A -> result B) : result B :=
  match r with
  | Ok a => k a
  | Raise e => Raise e
  end.

Notation "x <- r ;; k" := (bind r (fun x => k))
  (at level 61, r at next level, right associativity).
Notation "' p <- r ;; k" := (bind r (fun p => k))
  (at level 61, p pattern, r at next level, right associativity).

(** ** Tag payloads and boundaries *)

(** JSON-serialisable menu values carried by a [Ref]. *)
#[local] Unset Elimination Schemes.
Inductive json : Type :=
| JNull
| JBool (b : bool)
| JNum (n : Z)
| JStr (s : string)
| JList (l : list json)
| JDict (kv : list (string * json)).
#[local] Set Elimination Schemes.

(** The three payload classes: [Line], [Region(payload)], [Ref(payload)]. *)
Inductive payload_class : Type :=
| Line
| Region (payload : string)
| Ref (payload : json).

(** A payload object: its identity ([oid], what Python's [is] compares) and
    its class with the data it hangs onto. *)
Record payload : Type := mkPayload { oid : nat; cls : payload_class }.

(** [a is b] *)
Definition is_ (a b : payload) : bool := Nat.eqb (oid a) (oid b).

(** [isinstance(payload, Line)], [isinstance(payload, Ref)] *)
Definition isinstance_Line (p : payload) : bool :=
  match cls p with Line => true | _ => false end.
Definition isinstance_Ref (p : payload) : bool :=
  match cls p with Ref _ => true | _ => false end.

(** The class attribute [sort_order]. *)
Definition sort_order (p : payload) : Z :=
  match cls p with
  | Line => 0
  | Ref _ => 1
  | Region _ => 2
  end.

(** A tag boundary [(point, is_start, payload)]. *)
Definition tag : Type := (Z * bool * payload)%type.

Definition point_of (t : tag) : Z := fst (fst t).
Definition is_start_of (t : tag) : bool := snd (fst t).
Definition payload_of (t : tag) : payload := snd t.

(** ** [balanced_tags_with_empties]

    [opens] and [closes] are Python lists used as stacks ([append]/[pop] at the
    end); they are kept top-first here, so [opens[-1]] is the head. *)

(** [while opens[-1] is not payload: ...]; [opens[-1]] on an empty list
    raises [IndexError]. *)
Fixpoint close_intermediates (point : Z) (p : payload)
    (opens closes : list payload)
  : result (list tag * list payload * list payload) :=
  match opens with
  | [] => Raise IndexError
  | top :: rest =>
      if is_ top p then Ok ([], opens, closes)
      else
        '(out, opens', closes') <-
            close_intermediates point p rest (top :: closes) ;;
        Ok ((point, false, top) :: out, opens', closes')
  end.

(** [while closes: ...] *)
Fixpoint reopen_intermediates (point : Z) (closes opens : list payload)
  : list tag * list payload * list payload :=
  match closes with
  | [] => ([], opens, [])
  | q :: rest =>
      let '(out, opens', closes') :=
        reopen_intermediates point rest (q :: opens) in
      ((point, true, q) :: out, opens', closes')
  end.

Fixpoint balanced_tags_with_empties_from (opens closes : list payload)
    (tags : list tag) : result (list tag) :=
  match tags with
  | [] => Ok []
  | (point, is_start, p) :: rest =>
      if is_start then
        out <- balanced_tags_with_empties_from (p :: opens) closes rest ;;
        Ok ((point, is_start, p) :: out)
      else
        '(out1, opens1, closes1) <- close_intermediates point p opens closes ;;
        let opens2 := tl opens1 in
        let '(out2, opens3, closes3) :=
          reopen_intermediates point closes1 opens2 in
        out <- balanced_tags_with_empties_from opens3 closes3 rest ;;
        Ok (out1 ++ (point, false, p) :: out2 ++ out)
  end.

Definition balanced_tags_with_empties (tags : list tag) : result (list tag) :=
  balanced_tags_with_empties_from [] [] tags.

(** ** [without_empty_tags]

    [buffer] is kept last-appended-first; it is yielded in append order. *)
Fixpoint without_empty_tags_from (buffer : list tag) (depth : Z)
    (tags : list tag) : result (list tag) :=
  match tags with
  | [] => Ok []
  | (point, is_start, p) :: rest =>
      if is_start then
        without_empty_tags_from ((point, is_start, p) :: buffer) (depth + 1) rest
      else
        match buffer with
        | [] => Raise IndexError
        | (top_point, _, top_payload) :: popped =>
            let buffer' :=
              if is_ top_payload p && (top_point =? point)
              then popped
              else (point, is_start, p) :: buffer in
            let depth' := depth - 1 in
            if depth' =? 0 then
              out <- without_empty_tags_from [] depth' rest ;;
              Ok (rev buffer' ++ out)
            else without_empty_tags_from buffer' depth' rest
        end
  end.

Definition without_empty_tags (tags : list tag) : result (list tag) :=
  without_empty_tags_from [] 0 tags.

(** [balanced_tags] *)
Definition balanced_tags (tags : list tag) : result (list tag) :=
  tags' <- balanced_tags_with_empties tags ;;
  without_empty_tags tags'.

(** ** Properties of tag streams *)

Definition count_opens (ts : list tag) : nat :=
  length (filter is_start_of ts).
Definition count_closes (ts : list tag) : nat :=
  length (filter (fun t => negb (is_start_of t)) ts).

(** Offsets never decrease along the stream, starting no lower than [lo]. *)
Fixpoint points_sorted_from (lo : Z) (ts : list tag) : bool :=
  match ts with
  | [] => true
  | (x, _, _) :: rest => (lo <=? x) && points_sorted_from x rest
  end.

Definition sorted_by_point (ts : list tag) : bool :=
  match ts with
  | [] => true
  | (x, _, _) :: rest => points_sorted_from x rest
  end.

Definition oid_in (i : nat) (l : list nat) : bool := existsb (Nat.eqb i) l.

(** Each payload's open boundary precedes its close boundary: reading the
    stream left to right, a payload is opened only while it is not open, closed
    only while it is open, and nothing is left open at the end.  [open] lists
    the object ids currently open. *)
Fixpoint opens_precede_closes_from (open : list nat) (ts : list tag) : bool :=
  match ts with
  | [] => match open with [] => true | _ => false end
  | (_, true, p) :: rest =>
      negb (oid_in (oid p) open) &&
      opens_precede_closes_from (oid p :: open) rest
  | (_, false, p) :: rest =>
      oid_in (oid p) open &&
      opens_precede_closes_from
        (filter (fun i => negb (Nat.eqb i (oid p))) open) rest
  end.

Definition opens_precede_closes (ts : list tag) : bool :=
  opens_precede_closes_from [] ts.

(** The matched (open offset, close offset, payload) pairs of a stream, most
    recent unmatched open first: every close must meet, as the most recent
    unmatched open, an open of the very same payload object.  [None] when some
    close does not, or when an open is left unmatched. *)
Fixpoint matched_pairs (unmatched : list (Z * payload)) (ts : list tag)
  : option (list (Z * Z * payload)) :=
  match ts with
  | [] => match unmatched with [] => Some [] | _ => None end
  | (x, true, p) :: rest => matched_pairs ((x, p) :: unmatched) rest
  | (y, false, p) :: rest =>
      match unmatched with
      | [] => None
      | (x, q) :: unmatched' =>
          if is_ q p
          then option_map (cons (x, y, p)) (matched_pairs unmatched' rest)
          else None
      end
  end.

(** *** Invariants used in the proofs about the balancer *)

Definition oids (s : list payload) : list nat := map oid s.

(** [Nest u w u']: reading [w] with unmatched opens [u] leaves [u'], every
    close meeting the most recent unmatched open of the same object, at a
    strictly later offset. *)
Inductive Nest : list (Z * payload) -> list tag -> list (Z * payload) -> Prop :=
| Nest_nil u : Nest u [] u
| Nest_open u x p w u' :
    Nest ((x, p) :: u) w u' -> Nest u ((x, true, p) :: w) u'
| Nest_close u x q y p w u' :
    is_ q p = true -> x < y -> Nest u w u' ->
    Nest ((x, q) :: u) ((y, false, p) :: w) u'.

(** What [balanced_tags_with_empties] emits from stack [s] on: offsets from
    [lo] upward, closes meeting the top of the stack, no object open twice. *)
Inductive Eok : Z -> list payload -> list tag -> Prop :=
| Eok_nil lo : Eok lo [] []
| Eok_open lo s x q e :
    lo <= x -> ~ In (oid q) (oids s) -> Eok x (q :: s) e ->
    Eok lo s ((x, true, q) :: e)
| Eok_close lo s q y q' e :
    lo <= y -> is_ q q' = true -> Eok y s e ->
    Eok lo (q :: s) ((y, false, q') :: e).

(** The buffer of [without_empty_tags] (last appended first) against the
    stack of unmatched opens with their offsets. *)
Inductive Buffered : list tag -> list (Z * payload) -> Prop :=
| Buffered_nil : Buffered [] []
| Buffered_open b s x q :
    Buffered b s -> Forall (fun e => fst e <= x) s ->
    Buffered ((x, true, q) :: b) ((x, q) :: s)
| Buffered_close b s x q y q' :
    Buffered b ((x, q) :: s) -> x < y -> is_ q q' = true ->
    ~ In (oid q) (oids (map snd s)) ->
    Buffered ((y, false, q') :: b) s.

(** *** Sample streams *)

Definition line_marker : payload := mkPayload 0 Line.
Definition region_k : payload := mkPayload 1 (Region "k").

(** The sorted stream of the text [ab\ncd\n] with a region over [[0,5)]. *)
Definition multiline_region_stream : list tag :=
  [ (0, true, line_marker); (0, true, region_k);
    (3, false, line_marker); (3, true, line_marker);
    (5, false, region_k); (6, false, line_marker) ].

(** ** [nesting_order] and the sort of [build_lines] *)

(** The sorting key [(point, is_start, rank)]. *)
Definition key : Type := (Z * bool * Z)%type.

Definition nesting_order (t : tag) : key :=
  let '(point, is_start, p) := t in
  (point, is_start, if is_start then sort_order p else - sort_order p).

(** Python's [<] on booleans: [False < True]. *)
Definition bool_ltb (a b : bool) : bool := negb a && b.

(** Python's lexicographic [<] on the key tuples. *)
Definition key_ltb (a b : key) : bool :=
  let '(p1, s1, r1) := a in
  let '(p2, s2, r2) := b in
  (p1 <? p2) ||
  ((p1 =? p2) && (bool_ltb s1 s2 || (Bool.eqb s1 s2 && (r1 <? r2)))).

Definition key_leb (a b : key) : bool := negb (key_ltb b a).

(** The order [nesting_order] puts on boundaries. *)
Definition nesting_ltb (a b : tag) : bool :=
  key_ltb (nesting_order a) (nesting_order b).
Definition nesting_leb (a b : tag) : bool :=
  key_leb (nesting_order a) (nesting_order b).

(** [list.sort(key=...)] is stable: an element goes before the first element
    of the sorted rest whose key is not smaller than its own. *)
Fixpoint insert_by_key {A : Type} (f : A -> key) (x : A) (l : list A) : list A :=
  match l with
  | [] => [x]
  | y :: l' =>
      if key_ltb (f y) (f x) then y :: insert_by_key f x l'
      else x :: l
  end.

Fixpoint sort_by_key {A : Type} (f : A -> key) (l : list A) : list A :=
  match l with
  | [] => []
  | x :: l' => insert_by_key f x (sort_by_key f l')
  end.

(** [a] sorts no later than [b] under the key [f]. *)
Definition le_by_key {A : Type} (f : A -> key) (a b : A) : Prop :=
  key_leb (f a) (f b) = true.

(** ** [tag_boundaries] *)

(** An interval [(start, end, data)] as a plugin hands it over; either bound
    may be [None]. *)
Definition interval (D : Type) : Type := (option Z * option Z * D)%type.

(** A file htmlifier, as far as [tag_boundaries] uses it. *)
Record htmlifier : Type := mkHtmlifier {
  regions : list (interval string);
  refs : list (interval json)
}.

(** The innermost loop, for the intervals of one kind.  [next] is the id the
    next allocated object gets; [tag = cls(data)] allocates before the
    assertions run. *)
Fixpoint interval_boundaries {D : Type} (mk : D -> payload_class) (next : nat)
    (intervals : list (interval D)) : result (list tag * nat) :=
  match intervals with
  | [] => Ok ([], next)
  | (start, end_, data) :: rest =>
      let tag := mkPayload next (mk data) in
      match start with
      | None => Raise AssertionError
      | Some s =>
          match end_ with
          | None => Raise AssertionError
          | Some e =>
              if 0 <? e then
                '(out, next') <- interval_boundaries mk (S next) rest ;;
                Ok ((s, true, tag) :: (e, false, tag) :: out, next')
              else Raise AssertionError
          end
      end
  end.

Fixpoint tag_boundaries_from (next : nat) (htmlifiers : list htmlifier)
  : result (list tag * nat) :=
  match htmlifiers with
  | [] => Ok ([], next)
  | h :: rest =>
      '(out1, next1) <- interval_boundaries Region next (regions h) ;;
      '(out2, next2) <- interval_boundaries Ref next1 (refs h) ;;
      '(out3, next3) <- tag_boundaries_from next2 rest ;;
      Ok (out1 ++ out2 ++ out3, next3)
  end.

Definition tag_boundaries (htmlifiers : list htmlifier) : result (list tag) :=
  '(out, _) <- tag_boundaries_from 0 htmlifiers ;; Ok out.

(** What [tag_boundaries] lets through: both bounds present and [end > 0]. *)
Definition interval_accepted {D : Type} (i : interval D) : bool :=
  match i with
  | (Some _, Some e, _) => 0 <? e
  | _ => false
  end.

(** The well-formed intervals of the data model, [0 <= start < end]. *)
Definition interval_well_formed {D : Type} (i : interval D) : bool :=
  match i with
  | (Some s, Some e, _) => (0 <=? s) && (s <? e)
  | _ => false
  end.

(** The intervals of an htmlifier with their payload classes, in the order
    [tag_boundaries] visits them. *)
Definition htmlifier_intervals (h : htmlifier) : list (interval payload_class) :=
  map (fun '(s, e, d) => (s, e, Region d)) (regions h) ++
  map (fun '(s, e, d) => (s, e, Ref d)) (refs h).

(** The boundaries of a list of intervals: for each one an open at its start
    and a close at its end, both carrying one fresh payload object. *)
Fixpoint boundaries_of (next : nat) (l : list (interval payload_class))
  : list tag :=
  match l with
  | [] => []
  | (s, e, c) :: rest =>
      (match s with Some x => x | None => 0 end, true, mkPayload next c) ::
      (match e with Some x => x | None => 0 end, false, mkPayload next c) ::
      boundaries_of (S next) rest
  end.

(** ** [line_boundaries] *)

Definition LF : ascii := "010"%char.
Definition CR : ascii := "013"%char.

(** [str.splitlines(True)] on a byte string: lines end after [\n], [\r] or
    [\r\n], terminators kept; [line] holds the current line so far. *)
Fixpoint splitlines_from (line : string) (text : string) : list string :=
  match text with
  | EmptyString =>
      match line with
      | EmptyString => []
      | _ => [line]
      end
  | String c rest =>
      if Ascii.eqb c LF then
        (line ++ String LF EmptyString)%string :: splitlines_from EmptyString rest
      else if Ascii.eqb c CR then
        match rest with
        | String c' rest' =>
            if Ascii.eqb c' LF then
              (line ++ String CR (String LF EmptyString))%string ::
                splitlines_from EmptyString rest'
            else
              (line ++ String CR EmptyString)%string ::
                splitlines_from EmptyString rest
        | EmptyString =>
            (line ++ String CR EmptyString)%string ::
              splitlines_from EmptyString rest
        end
      else splitlines_from (line ++ String c EmptyString)%string rest
  end.

Definition splitlines_keepends (text : string) : list string :=
  splitlines_from EmptyString text.

(** [len] *)
Definition len (s : string) : Z := Z.of_nat (String.length s).

Fixpoint line_boundaries_from (marker : payload) (up_to : Z)
    (lines : list string) : list tag :=
  match lines with
  | [] => []
  | line :: rest =>
      (up_to, true, marker) ::
      (up_to + len line, false, marker) ::
      line_boundaries_from marker (up_to + len line) rest
  end.

(** [marker = Line()] gets the object id [next]. *)
Definition line_boundaries (next : nat) (text : string) : list tag :=
  line_boundaries_from (mkPayload next Line) 0 (splitlines_keepends text).

(** [''.join(l)] *)
Fixpoint join (l : list string) : string :=
  match l with
  | [] => EmptyString
  | s :: rest => (s ++ join rest)%string
  end.

(** The offset at which line [i] of [lines] starts: the lengths of the lines
    before it, added up. *)
Definition line_start (lines : list string) (i : nat) : Z :=
  len (join (firstn i lines)).

(** Is the boundary one of a [Line]? *)
Definition is_line_tag (t : tag) : bool := isinstance_Line (payload_of t).

(** ** [non_overlapping_refs] and [remove_overlapping_refs] *)

(** One turn of the loop of [non_overlapping_refs]: the value yielded and the
    new [blacklist] (a set of payload objects, held as their ids) and
    [open_ref]. *)
Definition non_overlapping_step (blacklist : list nat)
    (open_ref : option payload) (t : tag)
  : result (bool * list nat * option payload) :=
  let '(_, is_start, p) := t in
  if isinstance_Ref p then
    if oid_in (oid p) blacklist then
      Ok (false, filter (fun i => negb (Nat.eqb i (oid p))) blacklist, open_ref)
    else
      match open_ref with
      | None =>
          if is_start then Ok (true, blacklist, Some p)
          else Raise AssertionError
      | Some r =>
          if is_ r p then Ok (true, blacklist, None)
          else Ok (false, oid p :: blacklist, open_ref)
      end
  else Ok (true, blacklist, open_ref).

Fixpoint non_overlapping_refs_from (blacklist : list nat)
    (open_ref : option payload) (tags : list tag) : result (list bool) :=
  match tags with
  | [] => Ok []
  | t :: rest =>
      '(keep, blacklist', open_ref') <-
          non_overlapping_step blacklist open_ref t ;;
      sel <- non_overlapping_refs_from blacklist' open_ref' rest ;;
      Ok (keep :: sel)
  end.

Definition non_overlapping_refs (tags : list tag) : result (list bool) :=
  non_overlapping_refs_from [] None tags.

(** [itertools.compress] *)
Fixpoint compress {A : Type} (data : list A) (selectors : list bool) : list A :=
  match data, selectors with
  | d :: data', s :: selectors' =>
      if s then d :: compress data' selectors' else compress data' selectors'
  | _, _ => []
  end.

(** [l[i] = x]; out of range is an [IndexError]. *)
Fixpoint list_set {A : Type} (l : list A) (i : nat) (x : A) : result (list A) :=
  match l, i with
  | [], _ => Raise IndexError
  | _ :: rest, O => Ok (x :: rest)
  | y :: rest, S i' => rest' <- list_set rest i' x ;; Ok (y :: rest')
  end.

(** The loop of [remove_overlapping_refs].  [compress] and the generator read
    the very list the loop body writes to: both are at index [j] of [tags]
    when the body stores the [count]-th kept tag at index [count].  [n] is the
    number of turns left, [len(tags) - j].  Returns the list as the loop
    leaves it and the number of tags kept. *)
Fixpoint remove_overlapping_loop (n : nat) (tags : list tag) (j count : nat)
    (blacklist : list nat) (open_ref : option payload)
  : result (list tag * nat) :=
  match n with
  | O => Ok (tags, count)
  | S n' =>
      match nth_error tags j with
      | None => Ok (tags, count)
      | Some t =>
          '(keep, blacklist', open_ref') <-
              non_overlapping_step blacklist open_ref t ;;
          if keep then
            tags' <- list_set tags count t ;;
            remove_overlapping_loop n' tags' (S j) (S count) blacklist' open_ref'
          else
            remove_overlapping_loop n' tags (S j) count blacklist' open_ref'
      end
  end.

(** [remove_overlapping_refs]: the loop variable [i] is the index of the last
    kept tag; it is unbound when nothing was kept, and [del tags[i + 1:]] then
    raises.  Returns the list [tags] as the call leaves it. *)
Definition remove_overlapping_refs (tags : list tag) : result (list tag) :=
  '(tags', count) <- remove_overlapping_loop (length tags) tags 0 0 [] None ;;
  match count with
  | O => Raise UnboundLocalError
  | S i => Ok (firstn (i + 1) tags')
  end.

Definition is_ref_tag (t : tag) : bool := isinstance_Ref (payload_of t).

(** The Ref boundaries of a stream come one anchor after the other: an open,
    then the close of the same object, and so on; [open] is the anchor
    currently open. *)
Fixpoint anchors_sequential (open : option payload) (ts : list tag) : bool :=
  match ts with
  | [] => match open with None => true | Some _ => false end
  | (_, is_start, p) :: rest =>
      if isinstance_Ref p then
        match open, is_start with
        | None, true => anchors_sequential (Some p) rest
        | Some q, false => is_ q p && anchors_sequential None rest
        | _, _ => false
        end
      else anchors_sequential open rest
  end.

(** The state of [non_overlapping_refs] against the anchors open in the
    input: they are the blacklisted ones and the one in [open_ref]. *)
Definition refs_state_ok (open : list nat) (blacklist : list nat)
    (open_ref : option payload) : Prop :=
  (forall i, In i open <->
             In i blacklist \/ exists r, open_ref = Some r /\ oid r = i) /\
  (forall r, open_ref = Some r -> ~ In (oid r) blacklist).

(** ** Text helpers of the renderer *)

Definition dquote : string := String "034"%char EmptyString.
Definition newline : string := String LF EmptyString.

(** [cgi.escape(s, quote)]: [&], [<] and [>] become entities, and so does
    the double quote when [quote] is set. *)
Definition escape_char (quote : bool) (c : ascii) : string :=
  if Ascii.eqb c "&"%char then "&amp;"
  else if Ascii.eqb c "<"%char then "&lt;"
  else if Ascii.eqb c ">"%char then "&gt;"
  else if quote && Ascii.eqb c "034"%char then "&quot;"
  else String c EmptyString.

Fixpoint escape (quote : bool) (s : string) : string :=
  match s with
  | EmptyString => EmptyString
  | String c rest => (escape_char quote c ++ escape quote rest)%string
  end.

Definition is_crlf (c : ascii) : bool := Ascii.eqb c CR || Ascii.eqb c LF.

Fixpoint lstrip_crlf (s : string) : string :=
  match s with
  | EmptyString => EmptyString
  | String c rest => if is_crlf c then lstrip_crlf rest else s
  end.

Fixpoint rstrip_crlf (s : string) : string :=
  match s with
  | EmptyString => EmptyString
  | String c rest =>
      match rstrip_crlf rest with
      | EmptyString => if is_crlf c then EmptyString else String c EmptyString
      | rest' => String c rest'
      end
  end.

(** [s.strip(u'\r\n')]: the characters [\r] and [\n] go from both ends. *)
Definition strip_crlf (s : string) : string := rstrip_crlf (lstrip_crlf s).

Fixpoint all_crlf (s : string) : bool :=
  match s with
  | EmptyString => true
  | String c rest => is_crlf c && all_crlf rest
  end.

(** Python's [s[start:stop]], negative and oversized indices included. *)
Definition slice_index (n i : Z) : Z :=
  if i <? 0 then Z.max 0 (i + n) else Z.min i n.

Definition py_slice (s : string) (start stop : Z) : string :=
  let a := slice_index (len s) start in
  let b := slice_index (len s) stop in
  if a <? b then substring (Z.to_nat a) (Z.to_nat (b - a)) s else EmptyString.

(** ** [html_lines] and [build_lines] *)

Section Rendering.
(** [json.dumps], and the UTF-8 decoder with [errors='replace'] (strings
    here are byte strings, so on valid UTF-8, ASCII in particular, the
    decoder leaves its argument as it is). *)
Variable json_dumps : json -> string.
Variable decoder : string -> string.

(** [payload.opener()] and [payload.closer()]; a [Line] has neither and
    [html_lines] never asks it. *)
Definition opener (p : payload) : string :=
  match cls p with
  | Region c => ("<span class=" ++ dquote ++ escape true c ++ dquote ++ ">")%string
  | Ref menu =>
      ("<a data-menu=" ++ dquote ++ escape true (json_dumps menu) ++ dquote ++ ">")%string
  | Line => EmptyString
  end.

Definition closer (p : payload) : string :=
  match cls p with
  | Region _ => "</span>"
  | Ref _ => "</a>"
  | Line => EmptyString
  end.

(** The local variables of [html_lines]. *)
Record render_state : Type := mkRender {
  up_to : Z;
  segments : list string;
  line_ends_at : option Z
}.

(** One turn of the loop of [html_lines]: what it yields and the new
    state. *)
Definition html_lines_step (slicer : Z -> Z -> string) (st : render_state)
    (t : tag) : list string * render_state :=
  let '(point, is_start, p) := t in
  let segments1 :=
    segments st ++ [escape false (strip_crlf (slicer (up_to st) point))] in
  let '(yielded, segments2, line_ends_at2) :=
    match line_ends_at st with
    | Some l =>
        if is_start || (l <? point) then
          match segments1 with
          | [] => ([], segments1, None)
          | _ => ([join segments1], [], None)
          end
        else ([], segments1, Some l)
    | None => ([], segments1, None)
    end in
  if isinstance_Line p then
    (yielded,
     mkRender point segments2 (if is_start then line_ends_at2 else Some point))
  else
    (yielded,
     mkRender point (segments2 ++ [if is_start then opener p else closer p])
              line_ends_at2).

Fixpoint html_lines_from (slicer : Z -> Z -> string) (st : render_state)
    (tags : list tag) : list string :=
  match tags with
  | [] =>
      match segments st with
      | [] => []
      | _ => [join (segments st)]
      end
  | t :: rest =>
      let '(yielded, st') := html_lines_step slicer st t in
      yielded ++ html_lines_from slicer st' rest
  end.

Definition html_lines (tags : list tag) (slicer : Z -> Z -> string)
  : list string :=
  html_lines_from slicer (mkRender 0 [] None) tags.

Definition decoded_slice (text : string) (start stop : Z) : string :=
  decoder (py_slice text start stop).

Definition build_lines (text : string) (htmlifiers : list htmlifier)
  : result (list string) :=
  '(tags, next) <- tag_boundaries_from 0 htmlifiers ;;
  let tags := tags ++ line_boundaries next text in
  let tags := sort_by_key nesting_order tags in
  tags <- remove_overlapping_refs tags ;;
  balanced <- balanced_tags tags ;;
  Ok (html_lines balanced (decoded_slice text)).
End Rendering.

(** *** Sample inputs of the renderer *)

(** A stand-in for [json.dumps] where no anchor is rendered. *)
Definition dumps_null (_ : json) : string := "null".

(** The decoder on ASCII text. *)
Definition decode_ascii (s : string) : string := s.

(** The text [ab\ncd\n] and a plugin with the region [k] over [[0,5)]. *)
Definition two_lines : string := ("ab" ++ newline ++ "cd" ++ newline)%string.
Definition region_0_5 : htmlifier := mkHtmlifier [(Some 0, Some 5, "k"%string)] [].
Definition span_k : string := ("<span class=" ++ dquote ++ "k" ++ dquote ++ ">")%string.

(** ** [_sliced_range_bounds] and [run_html_workers] *)

(** The [while] loop of [_sliced_range_bounds], run for at most [fuel] tests
    of its condition ([None]: not finished by then).  [this_max] is unbound
    before the first turn; the test reads it only when [this_min <> a]. *)
Fixpoint sliced_range_bounds_loop (fuel : nat) (a b slice_size : Z)
    (this_min : Z) (this_max : option Z) : option (result (list (Z * Z))) :=
  match fuel with
  | O => None
  | S fuel' =>
      let go_on :=
        if this_min =? a then Ok true
        else match this_max with
             | Some m => Ok (m <? b)
             | None => Raise UnboundLocalError
             end in
      match go_on with
      | Raise e => Some (Raise e)
      | Ok false => Some (Ok [])
      | Ok true =>
          let this_max' := Z.min b (this_min + slice_size - 1) in
          match sliced_range_bounds_loop fuel' a b slice_size
                  (this_max' + 1) (Some this_max') with
          | None => None
          | Some r => Some (rest <- r ;; Ok ((this_min, this_max') :: rest))
          end
      end
  end.

Definition _sliced_range_bounds (fuel : nat) (a b slice_size : Z)
  : option (result (list (Z * Z))) :=
  sliced_range_bounds_loop fuel a b slice_size a None.

(** A decoration task handed to the pool:
    [pool.submit(_build_html_for_file_ids, tree, start, end)]. *)
Record html_task : Type := mkTask { task_start : Z; task_end : Z }.

(** The tasks [run_html_workers] submits, in order. *)
Definition run_html_workers (fuel : nat) (max_file_id : Z)
  : option (result (list html_task)) :=
  match _sliced_range_bounds fuel 1 max_file_id 500 with
  | None => None
  | Some r =>
      Some (ranges <- r ;; Ok (map (fun '(start, end_) => mkTask start end_) ranges))
  end.

(** Consecutive inclusive ranges from [lo] up to [hi]: each starts right
    after the one before, none is empty or larger than [size], and all but
    the last have exactly [size] elements. *)
Fixpoint slices_of (size lo hi : Z) (rs : list (Z * Z)) : Prop :=
  match rs with
  | [] => lo = hi + 1
  | (m, M) :: rest =>
      m = lo /\ m <= M /\ M <= hi /\ M - m + 1 <= size /\
      (rest <> [] -> M - m + 1 = size) /\
      slices_of size (M + 1) hi rest
  end.

(** ** [index_files] *)

(** A directory as [os.walk] sees it: its files with their contents and its
    folders, both by name. *)
#[local] Unset Elimination Schemes.
Inductive fs_dir : Type :=
| Dir (files : list (string * string)) (folders : list (string * fs_dir)).
#[local] Set Elimination Schemes.

(** The part of a tree's configuration [index_files] reads. *)
Record tree_config : Type := mkTree {
  source_folder : string;
  ignore_patterns : list string;
  ignore_paths : list string
}.

(** The [files] table, rows [(id, path, icon)], and the trigram index, rows
    [(id, text)]. *)
Record database : Type := mkDb {
  files_table : list (Z * string * string);
  trg_index : list (Z * string)
}.

Definition empty_database : database := mkDb [] [].

(** The rowid SQLite gives the next row: one more than the largest so far. *)
Definition next_rowid (rows : list (Z * string * string)) : Z :=
  fold_right (fun row acc => Z.max (fst (fst row)) acc) 0 rows + 1.

Definition starts_with_slash (s : string) : bool :=
  match s with
  | String c _ => Ascii.eqb c "/"%char
  | EmptyString => false
  end.

Fixpoint ends_with_slash (s : string) : bool :=
  match s with
  | EmptyString => false
  | String c EmptyString => Ascii.eqb c "/"%char
  | String _ rest => ends_with_slash rest
  end.

(** [os.path.join(a, b)] of [posixpath]; there [os.sep] is [/] and
    [replace(os.sep, "/")] changes nothing. *)
Definition path_join (a b : string) : string :=
  if starts_with_slash b then b
  else match a with
       | EmptyString => b
       | _ => if ends_with_slash a then (a ++ b)%string
              else (a ++ "/" ++ b)%string
       end.

(** [list.sort()] on names: insertion by the byte order of strings. *)
Fixpoint insert_by_name {A : Type} (x : string * A) (l : list (string * A))
  : list (string * A) :=
  match l with
  | [] => [x]
  | y :: l' =>
      if String.ltb (fst y) (fst x) then y :: insert_by_name x l' else x :: l
  end.

Fixpoint sort_by_name {A : Type} (l : list (string * A)) : list (string * A) :=
  match l with
  | [] => []
  | x :: l' => insert_by_name x (sort_by_name l')
  end.

Section Indexing.
(** [fnmatch.fnmatchcase(name, pattern)], [dxr.mime.is_text(path, data)]
    and [dxr.mime.icon(path)]. *)
Variable fnmatchcase : string -> string -> bool.
Variable is_text : string -> string -> bool.
Variable icon : string -> string.

Variable tree : tree_config.

(** [any(fnmatchcase(f, e) for e in tree.ignore_patterns)] *)
Definition name_ignored (name : string) : bool :=
  existsb (fnmatchcase name) (ignore_patterns tree).

(** [any(fnmatchcase("/" + path.replace(os.sep, "/"), e) for e in
    tree.ignore_paths)] *)
Definition file_path_ignored (path : string) : bool :=
  existsb (fnmatchcase ("/" ++ path)%string) (ignore_paths tree).

(** The test of [_unignored_folders] on one folder. *)
Definition folder_unignored (source_path folder : string) : bool :=
  if negb (existsb (fnmatchcase folder) (ignore_patterns tree)) then
    let folder_path := ("/" ++ path_join source_path folder ++ "/")%string in
    negb (existsb (fnmatchcase folder_path) (ignore_paths tree))
  else false.

Definition _unignored_folders {A : Type} (folders : list (string * A))
    (source_path : string) : list (string * A) :=
  filter (fun folder => folder_unignored source_path (fst folder)) folders.

(** The body of [for f in files]. *)
Definition index_file (root rel_path : string) (conn : database)
    (file : string * string) : database :=
  let '(f, data) := file in
  if name_ignored f then conn
  else
    let file_path := path_join root f in
    let path := path_join rel_path f in
    if file_path_ignored path then conn
    else if negb (is_text file_path data) then conn
    else
      let id := next_rowid (files_table conn) in
      mkDb (files_table conn ++ [(id, path, icon path)])
           (trg_index conn ++ [(id, data)]).

(** [os.walk(top, topdown=True)] with the body of the loop of
    [index_files]: the files of a directory are indexed, its folders are
    cut down to the unignored ones and sorted, and the walk goes on into
    what is left.  (Writing the folder listing with [build_folder] leaves
    the tables alone.) *)
Fixpoint walk (dir : fs_dir) (root rel_path : string) (conn : database)
  : database :=
  match dir with
  | Dir files folders =>
      let conn1 := fold_left (index_file root rel_path) files conn in
      let subwalks :=
        (fix each (l : list (string * fs_dir))
           : list (string * (string -> string -> database -> database)) :=
           match l with
           | [] => []
           | (name, sub) :: l' => (name, walk sub) :: each l'
           end) folders in
      let folders' := sort_by_name (_unignored_folders subwalks rel_path) in
      fold_left
        (fun conn' folder =>
           snd folder (path_join root (fst folder))
                      (path_join rel_path (fst folder)) conn')
        folders' conn1
  end.

Definition index_files (source : fs_dir) (conn : database) : database :=
  walk source (source_folder tree) EmptyString conn.

(** A path that [index_files] may insert: the path of a file that is text,
    whose name matches no name-glob and whose path matches no path-glob, in
    a directory reached through folders none of which is ignored. *)
Inductive Indexable : fs_dir -> string -> string -> string -> Prop :=
| Indexable_file files folders root rel_path f data :
    In (f, data) files ->
    name_ignored f = false ->
    file_path_ignored (path_join rel_path f) = false ->
    is_text (path_join root f) data = true ->
    Indexable (Dir files folders) root rel_path (path_join rel_path f)
| Indexable_folder files folders root rel_path name sub path :
    In (name, sub) folders ->
    name_ignored name = false ->
    existsb (fnmatchcase ("/" ++ path_join rel_path name ++ "/")%string)
            (ignore_paths tree) = false ->
    Indexable sub (path_join root name) (path_join rel_path name) path ->
    Indexable (Dir files folders) root rel_path path.
End Indexing.

(** *** A sample source tree *)

(** Globs without wildcards match by equality. *)
Definition fnmatch_exact (name pattern : string) : bool := String.eqb name pattern.

Definition sample_tree : tree_config :=
  mkTree "/src" [".git"%string; "a.o"%string] ["/lib/gen.c"%string].

Definition sample_source : fs_dir :=
  Dir [ ("main.c", "int main;"); ("a.o", "obj") ]%string
      [ (".git", Dir [ ("config", "x") ] [])%string;
        ("lib", Dir [ ("gen.c", "g"); ("util.c", "u") ] [])%string ].

(** *** Sample decorated file *)

(** The text [a\r\nb\rc\nd]. *)
Definition mixed_terminators : string :=
  ("a" ++ String CR (String LF "b") ++ String CR "c" ++ String LF "d")%string.

(** ** The stream handed to the balancer *)

(** The first half of [build_lines]: the boundaries of the plugins and of the
    lines, sorted, without the overlapping anchors. *)
Definition sorted_tag_stream (text : string) (htmlifiers : list htmlifier)
  : result (list tag) :=
  '(tags, next) <- tag_boundaries_from 0 htmlifiers ;;
  remove_overlapping_refs
    (sort_by_key nesting_order (tags ++ line_boundaries next text)).

(** The boundaries of the object with id [i], in stream order. *)
Definition boundaries_of_object (i : nat) (ts : list tag) : list tag :=
  filter (fun t => Nat.eqb (oid (payload_of t)) i) ts.

(** Opens and closes take turns, beginning with a close if [is_open] and
    ending with one. *)
Fixpoint alternates (is_open : bool) (ts : list tag) : bool :=
  match ts with
  | [] => negb is_open
  | (_, is_start, _) :: rest =>
      if is_start then negb is_open && alternates true rest
      else is_open && alternates false rest
  end.

(** Every payload in the stream is the object its id names. *)
Definition objects_from (obj : nat -> payload) (ts : list tag) : Prop :=
  Forall (fun t => payload_of t = obj (oid (payload_of t))) ts.

(** Whether an object is a [Ref] can be told from its id. *)
Definition refness_by_oid (R : nat -> bool) (ts : list tag) : Prop :=
  Forall (fun t => is_ref_tag t = R (oid (payload_of t))) ts.

(** Is the [j]-th interval of the plugins an anchor? *)
Definition interval_is_ref (L : list (interval payload_class)) (j : nat) : bool :=
  match nth j (map snd L) Line with
  | Ref _ => true
  | _ => false
  end.

(** The text [ab\ncd\nef\n] with a region over [[0,8)], the text [ab\n] with
    a region over [[0,2)], and the text [abcd\n] with two overlapping
    anchors. *)
Definition three_lines : string :=
  ("ab" ++ newline ++ "cd" ++ newline ++ "ef" ++ newline)%string.
Definition region_0_8 : htmlifier := mkHtmlifier [(Some 0, Some 8, "k"%string)] [].
Definition region_0_2 : htmlifier := mkHtmlifier [(Some 0, Some 2, "k"%string)] [].
Definition overlapping_anchors : htmlifier :=
  mkHtmlifier [] [(Some 0, Some 3, JNull); (Some 2, Some 4, JNull)].
Definition anchor_null : string :=
  ("<a data-menu=" ++ dquote ++ "null" ++ dquote ++ ">")%string.

(** ** [_join_url] *)

(** [sep.join(l)] *)
Fixpoint str_join (sep : string) (l : list string) : string :=
  match l with
  | [] => EmptyString
  | a :: rest =>
      match rest with
      | [] => a
      | _ => (a ++ sep ++ str_join sep rest)%string
      end
  end.

(** The truth value of a string: it is not empty. *)
Definition str_true (s : string) : bool :=
  match s with
  | EmptyString => false
  | _ => true
  end.

(** ['/'.join(a for a in args if a)] *)
Definition _join_url (args : list string) : string :=
  str_join "/" (filter str_true args).

(** ** [finalize_database] *)

(** How a function that may call [sys.exit] ends. *)
Inductive ending : Type :=
| Returned
| Exited (code : Z).

(** The loop over the rows of [PRAGMA integrity_check]: the final [isOkay]
    and the lines printed to [sys.stderr]. *)
Fixpoint integrity_loop (isOkay : option bool) (rows : list string)
  : option bool * list string :=
  match rows with
  | [] => (isOkay, [])
  | row :: rest =>
      if String.eqb row "ok" &&
         match isOkay with None => true | Some _ => false end
      then integrity_loop (Some true) rest
      else
        let complaint :=
          match isOkay with
          | Some false => []
          | _ => ["Database integerity check failed"%string]
          end in
        let '(isOkay', printed) := integrity_loop (Some false) rest in
        (isOkay', complaint ++ ("  | " ++ row)%string :: printed)
  end.

(** [finalize_database], as far as the rows of the integrity check decide
    it: what goes to [sys.stderr] and whether the process exits. *)
Definition finalize_database (rows : list string) : list string * ending :=
  let '(isOkay, printed) := integrity_loop None rows in
  match isOkay with
  | Some true => (printed, Returned)
  | _ => (printed, Exited 1)
  end.

(** ** [linked_pathname] *)

Definition slash : ascii := "/"%char.

(** [s.split(sep)] for a separator of one character; [cur] is the piece
    being read. *)
Fixpoint split_from (sep : ascii) (cur : string) (s : string) : list string :=
  match s with
  | EmptyString => [cur]
  | String c rest =>
      if Ascii.eqb c sep then cur :: split_from sep EmptyString rest
      else split_from sep (cur ++ String c EmptyString)%string rest
  end.

Definition str_split (s : string) (sep : ascii) : list string :=
  split_from sep EmptyString s.

(** [os.path.split(p)[1]]: what follows the last slash of [p]. *)
Fixpoint tail_from (cur : string) (p : string) : string :=
  match p with
  | EmptyString => cur
  | String c rest =>
      if Ascii.eqb c slash then tail_from EmptyString rest
      else tail_from (cur ++ String c EmptyString)%string rest
  end.

Definition path_split_tail (p : string) : string := tail_from EmptyString p.

(** [os.path.join(a, *p)] *)
Definition posix_join (a : string) (p : list string) : string :=
  fold_left path_join p a.

Definition linked_pathname (path tree_name : string) : list (string * string) :=
  let components := [ (("/" ++ tree_name ++ "/source")%string, tree_name) ] in
  let dirs := str_split path slash in
  if negb (str_true path) then components
  else
    components ++
    map (fun idx =>
           let subtree_path :=
             posix_join "/" (tree_name :: "source"%string :: firstn idx dirs) in
           let tail := path_split_tail subtree_path in
           (subtree_path, if str_true tail then tail else tree_name))
        (seq 1 (length dirs)).

(** No slash occurs in the string. *)
Fixpoint slash_free (s : string) : bool :=
  match s with
  | EmptyString => true
  | String c rest => negb (Ascii.eqb c slash) && slash_free rest
  end.

(** A name of a tree, folder or file: not empty and without a slash. *)
Definition plain_name (s : string) : bool := str_true s && slash_free s.

(** ** What [html_lines] renders *)

(** The pieces [html_lines] renders for a stream, in order: for each boundary
    the escaped and trimmed slice up to it, then its markup (none for a
    Line). *)
Fixpoint rendering (json_dumps : json -> string) (slicer : Z -> Z -> string)
    (up_to : Z) (tags : list tag) : list string :=
  match tags with
  | [] => []
  | (point, is_start, p) :: rest =>
      escape false (strip_crlf (slicer up_to point)) ::
      (if isinstance_Line p then EmptyString
       else if is_start then opener json_dumps p else closer p) ::
      rendering json_dumps slicer point rest
  end.

(** How often a character occurs in a string. *)
Fixpoint count_char (c : ascii) (s : string) : nat :=
  match s with
  | EmptyString => O
  | String a rest => ((if Ascii.eqb a c then 1 else 0) + count_char c rest)%nat
  end.

(** A source line as [build_lines] shows it when nothing decorates it. *)
Definition plain_line (decoder : string -> string) (line : string) : string :=
  escape false (strip_crlf (decoder line)).

(** ** What a stream says about the text *)

(** How many boundaries of the object with id [i] at offsets up to [x] open
    it, less how many close it: 1 when the character at offset [x] lies in a
    span of the object, 0 when it lies in none. *)
Fixpoint net_open (i : nat) (x : Z) (ts : list tag) : Z :=
  match ts with
  | [] => 0
  | (y, is_start, p) :: rest =>
      (if Nat.eqb (oid p) i && (y <=? x)
       then if is_start then 1 else -1
       else 0) + net_open i x rest
  end.

(** [Subseq l1 l2]: [l1] is [l2] with some elements left out. *)
Inductive Subseq {A : Type} : list A -> list A -> Prop :=
| Subseq_nil : Subseq [] []
| Subseq_keep a l1 l2 : Subseq l1 l2 -> Subseq (a :: l1) (a :: l2)
| Subseq_drop a l1 l2 : Subseq l1 l2 -> Subseq l1 (a :: l2).

(** ** Rows added to the database *)

(** The rows a run adds, as [(id, path, text)]: each goes into [files] with
    the icon of its path and into the trigram index with its text. *)
Definition rows_added (icon : string -> string)
    (new : list (Z * string * string)) (conn db : database)
  : Prop :=
  files_table db =
    files_table conn ++
    map (fun r => (fst (fst r), snd (fst r), icon (snd (fst r)))) new /\
  trg_index db =
    trg_index conn ++ map (fun r => (fst (fst r), snd r)) new.


(** ** From the index to the HTML workers *)

(** [SELECT max(files.id) FROM files]: [None] on an empty table. *)
Definition max_file_id (db : database) : option Z :=
  match files_table db with
  | [] => None
  | row :: rest =>
      Some (fold_left (fun m r => Z.max m (fst (fst r))) rest (fst (fst row)))
  end.

(** ** Streams that need no balancing *)

(** [Tidy u w u']: reading [w] with unmatched opens [u] leaves [u'], every
    close meeting the most recent unmatched open of the same object, at a
    strictly later offset, and no object being opened while it is open. *)
Inductive Tidy : list (Z * payload) -> list tag -> list (Z * payload) -> Prop :=
| Tidy_nil u : Tidy u [] u
| Tidy_open u x p w u' :
    ~ In (oid p) (oids (map snd u)) ->
    Tidy ((x, p) :: u) w u' -> Tidy u ((x, true, p) :: w) u'
| Tidy_close u x q y p w u' :
    is_ q p = true -> x < y -> Tidy u w u' ->
    Tidy ((x, q) :: u) ((y, false, p) :: w) u'.

(** The buffer of [without_empty_tags] against the stack of unmatched opens,
    no object being open twice. *)
Inductive BufferedT : list tag -> list (Z * payload) -> Prop :=
| BufferedT_nil : BufferedT [] []
| BufferedT_open b s x q :
    BufferedT b s -> Forall (fun e => fst e <= x) s ->
    ~ In (oid q) (oids (map snd s)) ->
    BufferedT ((x, true, q) :: b) ((x, q) :: s)
| BufferedT_close b s x q y q' :
    BufferedT b ((x, q) :: s) -> x < y -> is_ q q' = true ->
    ~ In (oid q) (oids (map snd s)) ->
    BufferedT ((y, false, q') :: b) s.

(** What the last buffered tag says about the stack of unmatched opens: an
    open is on top of it, a close has taken its object off it. *)
Definition last_buffered (b : list tag) (u : list (Z * payload)) : Prop :=
  match b with
  | [] => True
  | (tp, true, tq) :: _ => exists rest, u = (tp, tq) :: rest
  | (_, false, tq) :: _ => ~ In (oid tq) (oids (map snd u))
  end.

(* ================================================================== *)
(** * Theorems *)
(* ================================================================== *)

(** ** Generic facts *)

Lemma is_true_iff (p q : payload) : is_ p q = true <-> oid p = oid q.
Proof. unfold is_. apply Nat.eqb_eq. Qed.

Lemma is_false_iff (p q : payload) : is_ p q = false <-> oid p <> oid q.
Proof. unfold is_. apply Nat.eqb_neq. Qed.

Lemma oid_in_iff (i : nat) (l : list nat) : oid_in i l = true <-> In i l.
Proof.
  unfold oid_in. rewrite existsb_exists. split.
  - intros [j [Hj He]]. apply Nat.eqb_eq in He. now subst.
  - intros H. exists i. split; [assumption | apply Nat.eqb_refl].
Qed.

Lemma oid_in_false_iff (i : nat) (l : list nat) : oid_in i l = false <-> ~ In i l.
Proof.
  rewrite <- oid_in_iff. destruct (oid_in i l); split; congruence.
Qed.

(** ** [Nest]: composition, counting and matched pairs *)

Lemma Nest_app u a u' b u'' :
  Nest u a u' -> Nest u' b u'' -> Nest u (a ++ b) u''.
Proof.
  induction 1; intros Hb; simpl; auto using Nest.
Qed.

Lemma Nest_counts u w u' :
  Nest u w u' ->
  (length u + count_opens w = count_closes w + length u')%nat.
Proof.
  unfold count_opens, count_closes.
  induction 1; simpl in *; lia.
Qed.

Lemma Nest_prefix_counts u w u' :
  Nest u w u' ->
  forall n, (count_closes (firstn n w) <= length u + count_opens (firstn n w))%nat.
Proof.
  unfold count_opens, count_closes.
  induction 1; intros n; destruct n; simpl in *; try lia.
  - specialize (IHNest n). simpl in IHNest. lia.
  - specialize (IHNest n). lia.
Qed.

Lemma Nest_matched_pairs u w :
  Nest u w [] ->
  exists ps, matched_pairs u w = Some ps /\
             Forall (fun '(x, y, _) => x < y) ps.
Proof.
  intros H. remember [] as e eqn:He. induction H; subst.
  - exists []. simpl. auto.
  - destruct (IHNest eq_refl) as [ps [Hps Hall]]. exists ps. simpl. auto.
  - destruct (IHNest eq_refl) as [ps [Hps Hall]].
    exists ((x, y, p) :: ps). simpl. rewrite H, Hps. simpl. auto.
Qed.

(** ** [balanced_tags_with_empties] emits a well-nested stream *)

Lemma close_intermediates_spec y p :
  forall opens closes,
    In (oid p) (oids opens) ->
    exists qs top rest,
      opens = qs ++ top :: rest /\
      is_ top p = true /\
      Forall (fun q => is_ q p = false) qs /\
      close_intermediates y p opens closes =
        Ok (map (fun q => (y, false, q)) qs, top :: rest, rev qs ++ closes).
Proof.
  induction opens as [|q opens IH]; intros closes Hin; simpl in *.
  - contradiction.
  - destruct (is_ q p) eqn:Hq.
    + exists [], q, opens. simpl. auto.
    + assert (Hin' : In (oid p) (oids opens)).
      { destruct Hin as [He|]; [|assumption].
        apply is_false_iff in Hq. congruence. }
      destruct (IH (q :: closes) Hin') as (qs & top & rest & -> & Ht & Hqs & Hc).
      exists (q :: qs), top, rest. rewrite Hc. simpl.
      repeat split; auto. now rewrite <- app_assoc.
Qed.

Lemma reopen_intermediates_spec y :
  forall closes opens,
    reopen_intermediates y closes opens =
      (map (fun q => (y, true, q)) closes, rev closes ++ opens, []).
Proof.
  induction closes as [|q closes IH]; intros opens; simpl.
  - reflexivity.
  - rewrite IH. now rewrite <- app_assoc.
Qed.

Lemma Eok_closes y qs : forall lo s e,
  lo <= y -> Eok y s e ->
  Eok lo (qs ++ s) (map (fun q => (y, false, q)) qs ++ e).
Proof.
  induction qs as [|q qs IH]; intros lo s e Hlo He; simpl.
  - inversion He; subst; econstructor; eauto; lia.
  - apply Eok_close; [assumption | apply Nat.eqb_refl |].
    apply IH; [lia | assumption].
Qed.

Lemma Eok_opens y l : forall s e,
  NoDup (oids (rev l ++ s)) ->
  Eok y (rev l ++ s) e ->
  Eok y s (map (fun q => (y, true, q)) l ++ e).
Proof.
  induction l as [|q l IH]; intros s e Hnd He; simpl in *.
  - assumption.
  - rewrite <- app_assoc in Hnd, He. simpl in Hnd, He.
    apply Eok_open; [lia | | now apply IH].
    unfold oids in Hnd. rewrite map_app in Hnd. simpl in Hnd.
    apply NoDup_remove_2 in Hnd. intros Hin. apply Hnd.
    apply in_or_app. now right.
Qed.

Lemma filter_closed_oid p qs top rest :
  Forall (fun q => is_ q p = false) qs ->
  is_ top p = true ->
  NoDup (oids (qs ++ top :: rest)) ->
  filter (fun i => negb (Nat.eqb i (oid p))) (oids (qs ++ top :: rest)) =
  oids (qs ++ rest).
Proof.
  intros Hqs Ht Hnd. unfold oids in *. rewrite !map_app, filter_app. simpl.
  apply is_true_iff in Ht.
  assert (Hrest : ~ In (oid p) (map oid rest)).
  { rewrite map_app in Hnd. simpl in Hnd. apply NoDup_remove_2 in Hnd.
    rewrite <- Ht. intros Hin. apply Hnd. apply in_or_app. now right. }
  rewrite Ht, Nat.eqb_refl. simpl. f_equal.
  - clear Hnd. induction Hqs as [|q qs Hq _ IH]; simpl; [reflexivity|].
    apply is_false_iff in Hq. apply Nat.eqb_neq in Hq. rewrite Hq. simpl.
    now rewrite IH.
  - clear - Hrest. induction rest as [|r rest IH]; simpl in *; [reflexivity|].
    destruct (Nat.eqb_spec (oid r) (oid p)) as [He|Hne]; simpl.
    + exfalso. apply Hrest. now left.
    + rewrite IH; [reflexivity|]. intros Hin. apply Hrest. now right.
Qed.

Lemma balanced_tags_with_empties_from_ok :
  forall tags lo opens,
    NoDup (oids opens) ->
    points_sorted_from lo tags = true ->
    opens_precede_closes_from (oids opens) tags = true ->
    exists e, balanced_tags_with_empties_from opens [] tags = Ok e /\
              Eok lo opens e.
Proof.
  induction tags as [|[[y st] p] tags IH]; intros lo opens Hnd Hs Hp; simpl in *.
  - destruct opens; [|discriminate]. exists []. split; [reflexivity|constructor].
  - apply andb_true_iff in Hs. destruct Hs as [Hlo Hs]. apply Z.leb_le in Hlo.
    destruct st.
    + apply andb_true_iff in Hp. destruct Hp as [Hfresh Hp].
      apply negb_true_iff, oid_in_false_iff in Hfresh.
      destruct (IH y (p :: opens)) as [e [He Hok]]; simpl; auto.
      { constructor; assumption. }
      exists ((y, true, p) :: e). rewrite He. simpl. split; [reflexivity|].
      now apply Eok_open.
    + apply andb_true_iff in Hp. destruct Hp as [Hopen Hp].
      apply oid_in_iff in Hopen.
      destruct (close_intermediates_spec y p opens [] Hopen)
        as (qs & top & rest & -> & Ht & Hqs & Hc).
      rewrite Hc. simpl. rewrite reopen_intermediates_spec.
      rewrite app_nil_r, rev_involutive.
      rewrite (filter_closed_oid p qs top rest Hqs Ht Hnd) in Hp.
      assert (Hnd' : NoDup (oids (qs ++ rest))).
      { unfold oids in *. rewrite map_app in *. simpl in Hnd.
        now apply NoDup_remove_1 in Hnd. }
      destruct (IH y (qs ++ rest) Hnd' Hs Hp) as [e [He Hok]].
      rewrite He. simpl. eexists. split; [reflexivity|].
      apply Eok_closes; [assumption|].
      apply Eok_close; [lia | assumption |].
      apply Eok_opens; rewrite rev_involutive; assumption.
Qed.

(** ** [without_empty_tags] on such a stream *)

Lemma Buffered_Nest b s : Buffered b s -> Nest [] (rev b) s.
Proof.
  induction 1; simpl.
  - constructor.
  - eapply Nest_app; [eassumption|]. apply Nest_open, Nest_nil.
  - eapply Nest_app; [eassumption|]. apply Nest_close; auto using Nest_nil.
Qed.

Lemma Buffered_sorted b s :
  Buffered b s -> StronglySorted (fun a c => fst c <= fst a) s.
Proof.
  induction 1.
  - constructor.
  - constructor; assumption.
  - now inversion IHBuffered.
Qed.

Lemma Forall_point_le (lo hi : Z) (b : list tag) :
  lo <= hi -> Forall (fun t => point_of t <= lo) b ->
  Forall (fun t => point_of t <= hi) b.
Proof.
  intros Hle H. eapply Forall_impl; [|exact H]. simpl. intros; lia.
Qed.

Lemma Forall_fst_le {A} (lo hi : Z) (s : list (Z * A)) :
  lo <= hi -> Forall (fun e => fst e <= lo) s ->
  Forall (fun e => fst e <= hi) s.
Proof.
  intros Hle H. eapply Forall_impl; [|exact H]. simpl. intros; lia.
Qed.

Lemma without_empty_tags_from_close tp st tq popped depth y p rest :
  without_empty_tags_from ((tp, st, tq) :: popped) depth ((y, false, p) :: rest) =
  if depth - 1 =? 0 then
    out <- without_empty_tags_from [] (depth - 1) rest ;;
    Ok (rev (if is_ tq p && (tp =? y) then popped
             else (y, false, p) :: (tp, st, tq) :: popped) ++ out)
  else
    without_empty_tags_from
      (if is_ tq p && (tp =? y) then popped
       else (y, false, p) :: (tp, st, tq) :: popped) (depth - 1) rest.
Proof. reflexivity. Qed.

Lemma without_empty_tags_from_ok :
  forall lo s e,
    Eok lo s e ->
    forall b S,
      map snd S = s ->
      Buffered b S ->
      Forall (fun t => point_of t <= lo) b ->
      Forall (fun e => fst e <= lo) S ->
      NoDup (oids s) ->
      exists out,
        without_empty_tags_from b (Z.of_nat (length s)) e = Ok out /\
        Nest [] out [].
Proof.
  induction 1 as [lo | lo s x q e Hlo Hfresh He IH | lo s q y q' e Hlo Hq He IH];
    intros b S HS Hb Hbl HSl Hnd.
  - exists []. split; [reflexivity | constructor].
  - simpl. replace (Z.of_nat (length s) + 1) with (Z.of_nat (length (q :: s)))
      by (simpl length; lia).
    apply (IH ((x, true, q) :: b) ((x, q) :: S)).
    + simpl. now rewrite HS.
    + constructor; [assumption|]. now apply Forall_fst_le with lo.
    + constructor; [unfold point_of; simpl; lia|].
      now apply Forall_point_le with lo.
    + constructor; [simpl; lia|]. now apply Forall_fst_le with lo.
    + simpl. constructor; assumption.
  - destruct S as [|[x q0] S0]; [discriminate|].
    simpl in HS. injection HS as -> HS0.
    simpl in Hnd. apply NoDup_cons_iff in Hnd. destruct Hnd as [Hq0 Hnd].
    inversion HSl as [|? ? Hx HS0l]; subst. simpl in Hx.
    (* what happens once the buffer has been updated *)
    assert (Hcont : forall b',
      Buffered b' S0 -> Forall (fun t => point_of t <= y) b' ->
      exists out,
        (if Z.of_nat (length (q :: map snd S0)) - 1 =? 0
         then out <- without_empty_tags_from []
                       (Z.of_nat (length (q :: map snd S0)) - 1) e ;;
              Ok (rev b' ++ out)
         else without_empty_tags_from b'
                (Z.of_nat (length (q :: map snd S0)) - 1) e) = Ok out /\
        Nest [] out []).
    { intros b' Hb' Hb'l.
      replace (Z.of_nat (length (q :: map snd S0)) - 1)
        with (Z.of_nat (length (map snd S0))) by (simpl length; lia).
      destruct (Z.eqb_spec (Z.of_nat (length (map snd S0))) 0) as [Hz|Hnz].
      - assert (S0 = []) by (destruct S0; simpl in Hz; [reflexivity | lia]).
        subst S0. simpl in *.
        destruct (IH [] [] eq_refl Buffered_nil (Forall_nil _) (Forall_nil _)
                    (NoDup_nil _)) as [out [Ho Hn]].
        simpl in Ho. rewrite Ho. simpl. eexists. split; [reflexivity|].
        eapply Nest_app; [|exact Hn]. now apply Buffered_Nest.
      - apply (IH b' S0 eq_refl Hb' Hb'l); [|assumption].
        now apply Forall_fst_le with lo. }
    assert (Hbl' : Forall (fun t => point_of t <= y) b)
      by now apply Forall_point_le with lo.
    inversion Hb; subst.
    + (* the last buffered tag is the open this close matches *)
      rewrite without_empty_tags_from_close, Hq. simpl andb.
      destruct (Z.eqb_spec x y) as [Hxy|Hxy].
      * apply Hcont; [assumption|]. now inversion Hbl'.
      * apply Hcont; [|constructor; [unfold point_of; simpl; lia | assumption]].
        apply Buffered_close with x q; auto. lia.
    + (* the last buffered tag is a close of some other object *)
      match goal with
      | Hb0 : Buffered _ ((?x1, ?q1) :: (x, q) :: S0),
        Hlt : ?x1 < ?y1, Hq1 : is_ ?q1 ?q1' = true,
        Hnot : ~ In (oid ?q1) _ |- _ =>
          rewrite without_empty_tags_from_close;
          assert (Hne : is_ q1' q' = false)
            by (apply is_false_iff; apply is_true_iff in Hq, Hq1;
                intros Heq; apply Hnot; simpl; left; congruence);
          rewrite Hne; simpl andb;
          apply Buffered_sorted in Hb0;
          inversion Hb0 as [|? ? _ Hall]; subst;
          inversion Hall as [|? ? Hx1 _]; subst; simpl in Hx1;
          inversion Hbl as [|? ? Hy1 _]; subst;
          unfold point_of in Hy1; simpl in Hy1
      end.
      apply Hcont; [|constructor; [unfold point_of; simpl; lia | assumption]].
      apply Buffered_close with x q; auto. lia.
Qed.

(** ** The balancer as a whole *)

(** On such a stream [balanced_tags] returns, and what it returns is
    well nested. *)
Lemma balanced_tags_nest (tags : list tag) :
  sorted_by_point tags = true ->
  opens_precede_closes tags = true ->
  exists out, balanced_tags tags = Ok out /\ Nest [] out [].
Proof.
  intros Hs Hp.
  assert (Hs' : exists lo, points_sorted_from lo tags = true).
  { destruct tags as [|[[x st] p] rest]; [now exists 0|].
    exists x. simpl in *. now rewrite Z.leb_refl. }
  destruct Hs' as [lo Hlo].
  destruct (balanced_tags_with_empties_from_ok tags lo [] (NoDup_nil _) Hlo Hp)
    as [e [He Hok]].
  destruct (without_empty_tags_from_ok lo [] e Hok [] [] eq_refl Buffered_nil
              (Forall_nil _) (Forall_nil _) (NoDup_nil _)) as [out [Ho Hn]].
  exists out. unfold balanced_tags, balanced_tags_with_empties.
  rewrite He. simpl. unfold without_empty_tags. simpl in Ho. now split.
Qed.

(** C1.  For every tag stream whose offsets never decrease (sortedness by
    offset is all the balancer needs of the nesting order) and in which each
    payload's open boundary precedes its close boundary, [balanced_tags]
    returns a stream [out] such that: in every prefix of [out] there are at
    least as many opens as closes, and in [out] as a whole as many; every close
    meets, as the most recent unmatched open, an open of the same payload
    object ([matched_pairs] succeeds); and each such (open, close) pair spans a
    non-empty range of offsets, so that no zero-width span is left. *)
Theorem balanced_tags_balanced (tags : list tag) :
  sorted_by_point tags = true ->
  opens_precede_closes tags = true ->
  exists out,
    balanced_tags tags = Ok out /\
    (forall n, (count_closes (firstn n out) <= count_opens (firstn n out))%nat) /\
    count_opens out = count_closes out /\
    exists pairs,
      matched_pairs [] out = Some pairs /\
      Forall (fun '(open_at, close_at, _) => open_at < close_at) pairs.
Proof.
  intros Hs Hp.
  destruct (balanced_tags_nest tags Hs Hp) as [out [Ho Hn]].
  exists out. split; [exact Ho|]. split; [|split].
  - intros n. apply (Nest_prefix_counts _ _ _ Hn n).
  - pose proof (Nest_counts _ _ _ Hn) as Hc. simpl in Hc. lia.
  - now apply Nest_matched_pairs.
Qed.

Lemma balanced_tags_balanced_witness :
  exists out,
    balanced_tags multiline_region_stream = Ok out /\
    (forall n, (count_closes (firstn n out) <= count_opens (firstn n out))%nat) /\
    count_opens out = count_closes out /\
    exists pairs,
      matched_pairs [] out = Some pairs /\
      Forall (fun '(open_at, close_at, _) => open_at < close_at) pairs.
Proof.
  apply (balanced_tags_balanced multiline_region_stream); reflexivity.
Defined.

(** On that stream the balancer closes the region at the end of the first
    line and reopens it, and puts a close and an open of the line marker
    around the region's end at offset 5. *)
Example balanced_tags_multiline_region :
  balanced_tags multiline_region_stream =
  Ok [ (0, true, line_marker); (0, true, region_k);
       (3, false, region_k); (3, false, line_marker);
       (3, true, region_k); (3, true, line_marker);
       (5, false, line_marker); (5, false, region_k);
       (5, true, line_marker); (6, false, line_marker) ].
Proof. reflexivity. Qed.

(** ** The nesting order *)

Ltac key_cases :=
  unfold nesting_ltb, nesting_leb, nesting_order, key_leb, key_ltb,
    bool_ltb in *;
  repeat match goal with
  | k : key |- _ => destruct k as [[? ?] ?]
  | s : bool |- _ => destruct s
  end;
  simpl in *;
  repeat match goal with
  | |- context [?x <? ?y] => destruct (Z.ltb_spec x y)
  | |- context [?x =? ?y] => destruct (Z.eqb_spec x y)
  | H : context [?x <? ?y] |- _ => destruct (Z.ltb_spec x y)
  | H : context [?x =? ?y] |- _ => destruct (Z.eqb_spec x y)
  end;
  simpl in *.

Lemma key_leb_refl (a : key) : key_leb a a = true.
Proof. key_cases; try reflexivity; try lia. Qed.

Lemma key_leb_total (a b : key) : key_leb a b = true \/ key_leb b a = true.
Proof. key_cases; auto; try lia. Qed.

Lemma key_leb_trans (a b c : key) :
  key_leb a b = true -> key_leb b c = true -> key_leb a c = true.
Proof. intros H1 H2. key_cases; try reflexivity; try discriminate; lia. Qed.

Lemma key_leb_antisym (a b : key) :
  key_leb a b = true -> key_leb b a = true -> a = b.
Proof.
  intros H1 H2. key_cases; try discriminate; try lia;
    repeat f_equal; lia.
Qed.

Lemma key_ltb_leb (a b : key) : key_ltb a b = true -> key_leb a b = true.
Proof. intros H. key_cases; try reflexivity; try discriminate; lia. Qed.

Lemma key_ltb_false_leb (a b : key) : key_ltb a b = false -> key_leb b a = true.
Proof. unfold key_leb. now intros ->. Qed.

(** C5 (as amended).  [nesting_order] orders boundaries totally through its
    key: the comparison is total and transitive, and two boundaries each below
    the other have the same key.  The offset is the primary key; at one offset
    an end boundary sorts before a start boundary; among the starts at one
    offset the rank Line=0, Ref=1, Region=2 decides, among the ends its
    negation.  So at a coincident offset a Line opens before Refs and Regions
    and closes after them: it is outermost on both sides. *)
Theorem nesting_order_total_order :
  (forall a b : tag, nesting_leb a b = true \/ nesting_leb b a = true) /\
  (forall a b c : tag,
      nesting_leb a b = true -> nesting_leb b c = true -> nesting_leb a c = true) /\
  (forall a b : tag,
      nesting_leb a b = true -> nesting_leb b a = true ->
      nesting_order a = nesting_order b) /\
  (forall x y s1 s2 p q, x < y -> nesting_ltb (x, s1, p) (y, s2, q) = true) /\
  (forall x p q, nesting_ltb (x, false, p) (x, true, q) = true) /\
  (forall x p q,
      nesting_ltb (x, true, p) (x, true, q) = (sort_order p <? sort_order q)) /\
  (forall x p q,
      nesting_ltb (x, false, p) (x, false, q) = (sort_order q <? sort_order p)) /\
  (forall i, sort_order (mkPayload i Line) = 0) /\
  (forall i d, sort_order (mkPayload i (Ref d)) = 1) /\
  (forall i d, sort_order (mkPayload i (Region d)) = 2) /\
  (forall x i p, isinstance_Line p = false ->
      nesting_ltb (x, true, mkPayload i Line) (x, true, p) = true) /\
  (forall x i p, isinstance_Line p = false ->
      nesting_ltb (x, false, p) (x, false, mkPayload i Line) = true).
Proof.
  repeat split.
  - intros a b. apply key_leb_total.
  - intros a b c. apply key_leb_trans.
  - intros a b. apply key_leb_antisym.
  - intros. key_cases; try reflexivity; lia.
  - intros. key_cases; try reflexivity; congruence.
  - intros. key_cases; try reflexivity; try congruence; lia.
  - intros. key_cases; try reflexivity; try congruence; lia.
  - intros x i [j c] H. unfold isinstance_Line in H.
    destruct c; try discriminate; clear H;
      unfold nesting_ltb, nesting_order, sort_order, key_ltb; simpl;
      now rewrite Z.ltb_irrefl, Z.eqb_refl.
  - intros x i [j c] H. unfold isinstance_Line in H.
    destruct c; try discriminate; clear H;
      unfold nesting_ltb, nesting_order, sort_order, key_ltb; simpl;
      now rewrite Z.ltb_irrefl, Z.eqb_refl.
Qed.

Lemma nesting_order_total_order_witness :
  nesting_ltb (1, true, region_k) (2, false, line_marker) = true /\
  nesting_ltb (3, true, line_marker) (3, true, region_k) = true /\
  nesting_ltb (3, false, region_k) (3, false, line_marker) = true.
Proof.
  destruct nesting_order_total_order
    as (_ & _ & _ & Hpoint & _ & _ & _ & _ & _ & _ & Hopen & Hclose).
  split; [apply Hpoint; lia|].
  split; [apply (Hopen 3 0%nat region_k) | apply (Hclose 3 0%nat region_k)];
    reflexivity.
Defined.

(** C5, the claim as stated fails: a payload that is innermost when it closes
    closes first, but at a coincident offset the close of a Line sorts after
    the close of a Region (and of a Ref), not before it. *)
Lemma nesting_order_line_closes_last :
  nesting_ltb (3, false, line_marker) (3, false, region_k) = false /\
  nesting_ltb (3, false, region_k) (3, false, line_marker) = true /\
  sort_by_key nesting_order [(3, false, line_marker); (3, false, region_k)] =
    [(3, false, region_k); (3, false, line_marker)].
Proof. repeat split. Qed.

(** ** [tag_boundaries] *)

Lemma interval_accepted_map {D : Type} (mk : D -> payload_class)
    (l : list (interval D)) :
  forallb interval_accepted (map (fun '(s, e, d) => (s, e, mk d)) l) =
  forallb interval_accepted l.
Proof.
  induction l as [|[[s e] d] l IH]; simpl; [reflexivity|].
  now rewrite IH.
Qed.

Lemma interval_boundaries_spec {D : Type} (mk : D -> payload_class) :
  forall (l : list (interval D)) (next : nat),
    interval_boundaries mk next l =
    if forallb interval_accepted l
    then Ok (boundaries_of next (map (fun '(s, e, d) => (s, e, mk d)) l),
             (next + length l)%nat)
    else Raise AssertionError.
Proof.
  induction l as [|[[[s|] [e|]] d] l IH]; intros next; simpl;
    try reflexivity.
  - now rewrite Nat.add_0_r.
  - destruct (0 <? e); simpl; [|reflexivity].
    rewrite IH. destruct (forallb interval_accepted l); simpl; [|reflexivity].
    now rewrite Nat.add_succ_r.
Qed.

Lemma boundaries_of_app (l1 l2 : list (interval payload_class)) :
  forall next,
    boundaries_of next (l1 ++ l2) =
    boundaries_of next l1 ++ boundaries_of (next + length l1) l2.
Proof.
  induction l1 as [|[[s e] c] l1 IH]; intros next; simpl.
  - now rewrite Nat.add_0_r.
  - rewrite IH. now rewrite Nat.add_succ_r.
Qed.

Lemma tag_boundaries_from_spec :
  forall (hs : list htmlifier) (next : nat),
    tag_boundaries_from next hs =
    if forallb interval_accepted (flat_map htmlifier_intervals hs)
    then Ok (boundaries_of next (flat_map htmlifier_intervals hs),
             (next + length (flat_map htmlifier_intervals hs))%nat)
    else Raise AssertionError.
Proof.
  induction hs as [|h hs IH]; intros next; simpl.
  - now rewrite Nat.add_0_r.
  - unfold htmlifier_intervals at 1 3 5.
    rewrite !forallb_app, !interval_accepted_map, !interval_boundaries_spec.
    destruct (forallb interval_accepted (regions h)); simpl; [|reflexivity].
    rewrite interval_boundaries_spec.
    destruct (forallb interval_accepted (refs h)); simpl; [|reflexivity].
    rewrite IH.
    destruct (forallb interval_accepted (flat_map htmlifier_intervals hs));
      simpl; [|reflexivity].
    rewrite !boundaries_of_app, !length_app, !length_map, <- !app_assoc.
    now rewrite !Nat.add_assoc.
Qed.

(** C3 (as amended).  [tag_boundaries] asserts only that both bounds of an
    interval are present and that [end > 0].  If every interval passes that
    test, it emits, interval by interval, an open at [start] and a close at
    [end] carrying one fresh payload object; otherwise it fails an assertion.
    Every well-formed interval ([0 <= start < end]) passes the test. *)
Theorem tag_boundaries_asserts_end_positive :
  (forall hs : list htmlifier,
      tag_boundaries hs =
      if forallb interval_accepted (flat_map htmlifier_intervals hs)
      then Ok (boundaries_of 0 (flat_map htmlifier_intervals hs))
      else Raise AssertionError) /\
  (forall (D : Type) (i : interval D),
      interval_well_formed i = true -> interval_accepted i = true) /\
  (forall (D : Type) (s e : Z) (d : D),
      interval_accepted (Some s, Some e, d) = (0 <? e)).
Proof.
  split; [|split].
  - intros hs. unfold tag_boundaries. rewrite tag_boundaries_from_spec.
    now destruct (forallb interval_accepted (flat_map htmlifier_intervals hs)).
  - intros D [[[s|] [e|]] d]; simpl; try discriminate.
    intros H. apply andb_true_iff in H. destruct H as [H1 H2].
    apply Z.leb_le in H1. apply Z.ltb_lt in H2. apply Z.ltb_lt. lia.
  - reflexivity.
Qed.

Lemma tag_boundaries_asserts_end_positive_witness :
  interval_accepted (Some 0, Some 2, "k"%string) = true.
Proof.
  apply (proj1 (proj2 tag_boundaries_asserts_end_positive)). reflexivity.
Defined.

(** C3, the claim as stated fails: the zero-length interval [[3,3)] and the
    reversed interval from 5 to 2 both have [end <= start], and
    [tag_boundaries] emits their boundaries without failing. *)
Lemma tag_boundaries_accepts_malformed :
  tag_boundaries [mkHtmlifier [(Some 3, Some 3, "k"%string)] []] =
    Ok [ (3, true, mkPayload 0 (Region "k"));
         (3, false, mkPayload 0 (Region "k")) ] /\
  tag_boundaries [mkHtmlifier [] [(Some 5, Some 2, JNull)]] =
    Ok [ (5, true, mkPayload 0 (Ref JNull));
         (2, false, mkPayload 0 (Ref JNull)) ].
Proof. split; reflexivity. Qed.

(** ** Strings *)

Lemma append_nil_r (s : string) : (s ++ "")%string = s.
Proof. induction s; simpl; congruence. Qed.

Lemma append_assoc (a b c : string) :
  ((a ++ b) ++ c)%string = (a ++ (b ++ c))%string.
Proof. induction a; simpl; congruence. Qed.

Lemma len_append (a b : string) : len (a ++ b) = len a + len b.
Proof.
  unfold len. induction a; simpl String.length; [reflexivity|].
  rewrite !Nat2Z.inj_succ. lia.
Qed.

Lemma len_nonneg (s : string) : 0 <= len s.
Proof. unfold len. lia. Qed.

Lemma len_pos (s : string) : s <> EmptyString -> 0 < len s.
Proof. unfold len. destruct s; [congruence | simpl; lia]. Qed.

Lemma append_nonempty_r (a b : string) :
  b <> EmptyString -> (a ++ b)%string <> EmptyString.
Proof. destruct a; simpl; [auto | discriminate]. Qed.

Lemma join_cons (a : string) (l : list string) :
  join (a :: l) = (a ++ join l)%string.
Proof. reflexivity. Qed.

Lemma join_app (l1 l2 : list string) :
  join (l1 ++ l2) = (join l1 ++ join l2)%string.
Proof.
  induction l1; simpl; [reflexivity|]. now rewrite IHl1, append_assoc.
Qed.

(** ** [splitlines] and [line_boundaries] *)

Lemma string_length_ind (P : string -> Prop) :
  (forall s, (forall t, (String.length t < String.length s)%nat -> P t) -> P s) ->
  forall s, P s.
Proof.
  intros step s.
  assert (H : forall n t, (String.length t < n)%nat -> P t).
  { induction n as [|n IH]; intros t Ht; [lia|].
    apply step. intros u Hu. apply IH. lia. }
  apply (H (S (String.length s))). lia.
Qed.

Lemma splitlines_from_cons (line : string) (c : ascii) (rest : string) :
  splitlines_from line (String c rest) =
  if Ascii.eqb c LF then
    (line ++ String LF EmptyString)%string :: splitlines_from EmptyString rest
  else if Ascii.eqb c CR then
    match rest with
    | String c' rest' =>
        if Ascii.eqb c' LF then
          (line ++ String CR (String LF EmptyString))%string ::
            splitlines_from EmptyString rest'
        else
          (line ++ String CR EmptyString)%string ::
            splitlines_from EmptyString rest
    | EmptyString =>
        (line ++ String CR EmptyString)%string ::
          splitlines_from EmptyString rest
    end
  else splitlines_from (line ++ String c EmptyString)%string rest.
Proof. reflexivity. Qed.

Lemma splitlines_from_join :
  forall text line, join (splitlines_from line text) = (line ++ text)%string.
Proof.
  induction text as [text IH] using string_length_ind. intros line.
  destruct text as [|c rest].
  - simpl. destruct line; simpl; [reflexivity|]. now rewrite !append_nil_r.
  - rewrite splitlines_from_cons.
    destruct (Ascii.eqb_spec c LF) as [->|Hlf].
    + rewrite join_cons, IH by (simpl; lia). simpl. now rewrite append_assoc.
    + destruct (Ascii.eqb_spec c CR) as [->|Hcr].
      * destruct rest as [|c' rest'].
        -- simpl. now rewrite append_assoc.
        -- destruct (Ascii.eqb_spec c' LF) as [->|Hlf'].
           ++ rewrite join_cons, IH by (simpl; lia). simpl.
              now rewrite append_assoc.
           ++ rewrite join_cons, IH by (simpl; lia). simpl.
              now rewrite append_assoc.
      * rewrite IH by (simpl; lia). now rewrite append_assoc.
Qed.

Lemma splitlines_from_nonempty :
  forall text line,
    Forall (fun l => l <> EmptyString) (splitlines_from line text).
Proof.
  induction text as [text IH] using string_length_ind. intros line.
  destruct text as [|c rest].
  - simpl. destruct line; constructor; [discriminate | constructor].
  - rewrite splitlines_from_cons. destruct (Ascii.eqb c LF).
    + constructor; [apply append_nonempty_r; discriminate|].
      apply IH. simpl. lia.
    + destruct (Ascii.eqb c CR).
      * destruct rest as [|c' rest'].
        -- constructor; [apply append_nonempty_r; discriminate | constructor].
        -- destruct (Ascii.eqb c' LF);
             (constructor; [apply append_nonempty_r; discriminate|]);
             apply IH; simpl; lia.
      * apply IH. simpl. lia.
Qed.

Lemma line_start_0 (lines : list string) : line_start lines 0 = 0.
Proof. reflexivity. Qed.

Lemma line_start_cons (l : string) (lines : list string) (i : nat) :
  line_start (l :: lines) (S i) = len l + line_start lines i.
Proof. unfold line_start. simpl. apply len_append. Qed.

Lemma line_start_step (lines : list string) :
  forall i,
    line_start lines (S i) = line_start lines i + len (nth i lines EmptyString).
Proof.
  induction lines as [|l lines IH]; intros i.
  - destruct i; reflexivity.
  - destruct i.
    + rewrite line_start_cons, !line_start_0. simpl. lia.
    + rewrite !line_start_cons, IH. simpl. lia.
Qed.

Lemma line_start_all (lines : list string) :
  line_start lines (length lines) = len (join lines).
Proof. unfold line_start. now rewrite firstn_all. Qed.

Lemma flat_map_map_seq {A B C : Type} (f : B -> list C) (g : A -> B)
    (l : list A) :
  flat_map f (map g l) = flat_map (fun x => f (g x)) l.
Proof. induction l; simpl; congruence. Qed.

Lemma line_boundaries_from_closed (marker : payload) :
  forall lines up_to,
    line_boundaries_from marker up_to lines =
    flat_map (fun i => [ (up_to + line_start lines i, true, marker);
                         (up_to + line_start lines (S i), false, marker) ])
             (seq 0 (length lines)).
Proof.
  induction lines as [|l lines IH]; intros up_to; simpl.
  - reflexivity.
  - rewrite line_start_0, (line_start_cons l lines 0), line_start_0, !Z.add_0_r.
    do 2 f_equal. rewrite IH, <- seq_shift, flat_map_map_seq.
    apply flat_map_ext. intros i. rewrite !line_start_cons.
    now rewrite !Z.add_assoc.
Qed.

Lemma line_boundaries_closed (next : nat) (text : string) :
  line_boundaries next text =
  flat_map (fun i => [ (line_start (splitlines_keepends text) i, true,
                        mkPayload next Line);
                       (line_start (splitlines_keepends text) (S i), false,
                        mkPayload next Line) ])
           (seq 0 (length (splitlines_keepends text))).
Proof.
  unfold line_boundaries. rewrite line_boundaries_from_closed.
  apply flat_map_ext. intros i. now rewrite !Z.add_0_l.
Qed.

(** C6.  With [lines] the pieces [splitlines] cuts the text into (they are
    non-empty and put together give the text back, terminators included),
    [line_boundaries] emits for each line, in order, exactly one Line open at
    the line's start offset and one Line close at the start offset plus the
    length of the line, that is right after its terminator; offsets are
    cumulative, the last close is at the length of the text; and for the empty
    text nothing is emitted. *)
Theorem line_boundaries_spec (next : nat) (text : string) :
  let lines := splitlines_keepends text in
  let marker := mkPayload next Line in
  join lines = text /\
  Forall (fun l => l <> EmptyString) lines /\
  line_boundaries next text =
    flat_map (fun i => [ (line_start lines i, true, marker);
                         (line_start lines (S i), false, marker) ])
             (seq 0 (length lines)) /\
  line_start lines 0 = 0 /\
  (forall i, line_start lines (S i) =
             line_start lines i + len (nth i lines EmptyString)) /\
  line_start lines (length lines) = len text /\
  line_boundaries next EmptyString = [].
Proof.
  intros lines marker.
  assert (Hj : join lines = text) by apply splitlines_from_join.
  split; [exact Hj|]. split; [apply splitlines_from_nonempty|].
  split; [apply line_boundaries_closed|].
  split; [reflexivity|]. split; [apply line_start_step|].
  split; [|reflexivity]. now rewrite line_start_all, Hj.
Qed.

Example line_boundaries_two_lines :
  line_boundaries 7 (String "a" (String CR (String LF (String "b" EmptyString)))) =
  [ (0, true, mkPayload 7 Line); (3, false, mkPayload 7 Line);
    (3, true, mkPayload 7 Line); (4, false, mkPayload 7 Line) ].
Proof. reflexivity. Qed.

(** ** The stable sort by key *)

Section SortByKey.
Context {A : Type} (f : A -> key).

#[local] Abbreviation le := (le_by_key f).

Lemma insert_by_key_head (x : A) (l : list A) :
  Forall (le x) l -> insert_by_key f x l = x :: l.
Proof.
  intros H. destruct l as [|y l]; [reflexivity|]. simpl.
  inversion H as [|? ? Hy _]; subst. unfold le_by_key, key_leb in Hy.
  apply negb_true_iff in Hy. now rewrite Hy.
Qed.

Lemma insert_by_key_In (x y : A) (l : list A) :
  In y (insert_by_key f x l) -> y = x \/ In y l.
Proof.
  induction l as [|z l IH]; simpl.
  - intros [->|[]]. now left.
  - destruct (key_ltb (f z) (f x)); simpl.
    + intros [->|H]; [right; now left|].
      destruct (IH H); [now left | right; now right].
    + intros [->|H]; [now left | now right].
Qed.

Lemma insert_by_key_sorted (x : A) (l : list A) :
  StronglySorted le l -> StronglySorted le (insert_by_key f x l).
Proof.
  induction 1 as [|y l Hs IH Hy]; simpl.
  - repeat constructor.
  - destruct (key_ltb (f y) (f x)) eqn:Hlt.
    + constructor; [assumption|]. apply Forall_forall. intros z Hz.
      apply insert_by_key_In in Hz. destruct Hz as [->|Hz].
      * now apply key_ltb_leb.
      * rewrite Forall_forall in Hy. now apply Hy.
    + assert (Hxy : le x y) by now apply key_ltb_false_leb.
      constructor; [now constructor|]. constructor; [assumption|].
      eapply Forall_impl; [|exact Hy]. intros z Hz. unfold le_by_key in *.
      eapply key_leb_trans; eassumption.
Qed.

Lemma sort_by_key_sorted (l : list A) : StronglySorted le (sort_by_key f l).
Proof.
  induction l; simpl; [constructor | now apply insert_by_key_sorted].
Qed.

Lemma sort_by_key_id (l : list A) : StronglySorted le l -> sort_by_key f l = l.
Proof.
  induction 1 as [|y l Hs IH Hy]; simpl; [reflexivity|].
  rewrite IH. now apply insert_by_key_head.
Qed.

Lemma filter_insert_by_key (P : A -> bool) (x : A) (l : list A) :
  StronglySorted le l ->
  filter P (insert_by_key f x l) =
  if P x then insert_by_key f x (filter P l) else filter P l.
Proof.
  induction 1 as [|y l Hs IH Hy]; simpl.
  - now destruct (P x).
  - destruct (key_ltb (f y) (f x)) eqn:Hlt; simpl.
    + rewrite IH. destruct (P y), (P x); simpl; try reflexivity.
      now rewrite Hlt.
    + destruct (P x); [|reflexivity].
      assert (Hxy : le x y) by now apply key_ltb_false_leb.
      symmetry. apply (insert_by_key_head x (filter P (y :: l))).
      apply Forall_forall. intros z Hz. apply filter_In in Hz.
      destruct Hz as [[->|Hz] _]; [assumption|].
      rewrite Forall_forall in Hy. unfold le_by_key in *.
      eapply key_leb_trans; [exact Hxy | now apply Hy].
Qed.

Lemma filter_sort_by_key (P : A -> bool) (l : list A) :
  filter P (sort_by_key f l) = sort_by_key f (filter P l).
Proof.
  induction l as [|x l IH]; simpl; [reflexivity|].
  rewrite filter_insert_by_key by apply sort_by_key_sorted.
  rewrite IH. now destruct (P x).
Qed.
End SortByKey.

(** ** The Line boundaries inside the sorted stream *)

Lemma boundaries_of_no_line (l : list (interval payload_class)) :
  Forall (fun i => snd i <> Line) l ->
  forall next, filter is_line_tag (boundaries_of next l) = [].
Proof.
  induction 1 as [|[[s e] c] l Hc _ IH]; intros next; simpl; [reflexivity|].
  unfold is_line_tag at 1 2, isinstance_Line, payload_of. simpl in *.
  destruct c; [congruence | apply IH | apply IH].
Qed.

Lemma htmlifier_intervals_no_line (hs : list htmlifier) :
  Forall (fun i => snd i <> Line) (flat_map htmlifier_intervals hs).
Proof.
  induction hs as [|h hs IH]; simpl; [constructor|].
  apply Forall_app. split; [|assumption].
  unfold htmlifier_intervals. apply Forall_app. split;
    apply Forall_forall; intros i Hi; apply in_map_iff in Hi;
    destruct Hi as [[[s e] d] [<- _]]; simpl; discriminate.
Qed.

Lemma line_boundaries_from_payload (m : payload) (lines : list string) :
  forall up_to,
    Forall (fun t => payload_of t = m) (line_boundaries_from m up_to lines).
Proof.
  induction lines as [|l lines IH]; intros up_to; simpl;
    repeat constructor. apply IH.
Qed.

Lemma line_boundaries_from_lower (i : nat) (lines : list string) :
  forall up_to,
    Forall (le_by_key nesting_order (up_to, false, mkPayload i Line))
           (line_boundaries_from (mkPayload i Line) up_to lines).
Proof.
  induction lines as [|l lines IH]; intros up_to; simpl; [constructor|].
  pose proof (len_nonneg l) as Hl.
  constructor; [unfold le_by_key; key_cases; try reflexivity; lia|].
  constructor; [unfold le_by_key; key_cases; try reflexivity; lia|].
  eapply Forall_impl; [|apply IH]. intros t Ht. unfold le_by_key in *.
  eapply key_leb_trans; [|exact Ht].
  key_cases; try reflexivity; lia.
Qed.

Lemma line_boundaries_from_sorted (i : nat) (lines : list string) :
  Forall (fun l => l <> EmptyString) lines ->
  forall up_to,
    StronglySorted (le_by_key nesting_order)
                   (line_boundaries_from (mkPayload i Line) up_to lines).
Proof.
  induction 1 as [|l lines Hl _ IH]; intros up_to; simpl; [constructor|].
  apply len_pos in Hl.
  pose proof (line_boundaries_from_lower i lines (up_to + len l)) as Hlow.
  constructor; [constructor; [apply IH | exact Hlow]|].
  constructor; [unfold le_by_key; key_cases; try reflexivity; lia|].
  eapply Forall_impl; [|exact Hlow]. intros t Ht. unfold le_by_key in *.
  eapply key_leb_trans; [|exact Ht].
  key_cases; try reflexivity; lia.
Qed.

Lemma matched_pairs_line_boundaries_from (m : payload) (lines : list string) :
  forall up_to,
    matched_pairs [] (line_boundaries_from m up_to lines) =
    Some (map (fun i => (up_to + line_start lines i,
                         up_to + line_start lines (S i), m))
              (seq 0 (length lines))).
Proof.
  induction lines as [|l lines IH]; intros up_to; simpl; [reflexivity|].
  unfold is_. rewrite Nat.eqb_refl, IH. simpl.
  rewrite line_start_0, (line_start_cons l lines 0), line_start_0, !Z.add_0_r.
  do 2 f_equal. rewrite <- seq_shift, map_map. apply map_ext. intros i.
  rewrite !line_start_cons. now rewrite !Z.add_assoc.
Qed.

Lemma line_start_increases (lines : list string) :
  Forall (fun l => l <> EmptyString) lines ->
  forall i, (i < length lines)%nat -> line_start lines i < line_start lines (S i).
Proof.
  intros Hne i Hi. rewrite line_start_step.
  assert (nth i lines EmptyString <> EmptyString).
  { rewrite Forall_forall in Hne. apply Hne. now apply nth_In. }
  pose proof (len_pos _ H). lia.
Qed.

(** C10.  [line_boundaries] allocates one [Line] object and every boundary it
    emits carries it; the boundaries are, line by line, an open at the line's
    start and a close at the next line's start, so that the close of a line
    and the open of the next coincide while a line's own open and close never
    do.  In the sorted stream of [build_lines] the Line boundaries are exactly
    these, in this order, whatever the plugins contributed; and read in stream
    order each Line close meets the Line open just before it. *)
Theorem line_boundaries_share_marker
    (text : string) (hs : list htmlifier) (tb : list tag) (next : nat) :
  tag_boundaries_from 0 hs = Ok (tb, next) ->
  let marker := mkPayload next Line in
  let lines := splitlines_keepends text in
  let lb := line_boundaries next text in
  Forall (fun t => payload_of t = marker) lb /\
  lb = flat_map (fun i => [ (line_start lines i, true, marker);
                            (line_start lines (S i), false, marker) ])
                (seq 0 (length lines)) /\
  (forall i, (i < length lines)%nat ->
             line_start lines i < line_start lines (S i)) /\
  filter is_line_tag (sort_by_key nesting_order (tb ++ lb)) = lb /\
  matched_pairs [] lb =
    Some (map (fun i => (line_start lines i, line_start lines (S i), marker))
              (seq 0 (length lines))).
Proof.
  intros Htb marker lines lb.
  assert (Hne : Forall (fun l => l <> EmptyString) lines)
    by apply splitlines_from_nonempty.
  split; [apply line_boundaries_from_payload|].
  split; [apply line_boundaries_closed|].
  split; [now apply line_start_increases|].
  split.
  - rewrite filter_sort_by_key, filter_app.
    rewrite tag_boundaries_from_spec in Htb.
    destruct (forallb interval_accepted (flat_map htmlifier_intervals hs));
      [|discriminate].
    injection Htb as <- _.
    rewrite boundaries_of_no_line by apply htmlifier_intervals_no_line.
    simpl.
    assert (Hall : filter is_line_tag lb = lb).
    { apply forallb_filter_id. apply forallb_forall. intros t Ht.
      pose proof (line_boundaries_from_payload marker lines 0) as Hp.
      rewrite Forall_forall in Hp. unfold is_line_tag. now rewrite (Hp t Ht). }
    rewrite Hall. apply sort_by_key_id.
    now apply line_boundaries_from_sorted.
  - unfold lb, line_boundaries. fold lines. fold marker.
    rewrite matched_pairs_line_boundaries_from. apply (f_equal Some).
    apply map_ext. intros i. now rewrite !Z.add_0_l.
Qed.

(** ** [remove_overlapping_refs] *)

Lemma list_set_middle {A : Type} (kept : list A) (m x : A) (rest : list A) :
  list_set (kept ++ m :: rest) (length kept) x = Ok (kept ++ x :: rest).
Proof.
  induction kept as [|k kept IH]; simpl; [reflexivity|]. now rewrite IH.
Qed.

Lemma nth_error_middle {A : Type} (l1 : list A) (x : A) (l2 : list A) :
  nth_error (l1 ++ x :: l2) (length l1) = Some x.
Proof. induction l1; simpl; auto. Qed.

(** The in-place loop computes [compress(tags, non_overlapping_refs(tags))] in
    the front of the list: writing behind the readers never disturbs them. *)
Lemma remove_overlapping_loop_spec :
  forall (suffix kept mid : list tag) blacklist open_ref,
    match non_overlapping_refs_from blacklist open_ref suffix with
    | Raise e =>
        remove_overlapping_loop (length suffix) (kept ++ mid ++ suffix)
          (length (kept ++ mid)) (length kept) blacklist open_ref = Raise e
    | Ok sel =>
        exists junk,
          remove_overlapping_loop (length suffix) (kept ++ mid ++ suffix)
            (length (kept ++ mid)) (length kept) blacklist open_ref =
          Ok ((kept ++ compress suffix sel) ++ junk,
              length (kept ++ compress suffix sel))
    end.
Proof.
  induction suffix as [|t suffix IH]; intros kept mid bl o.
  - simpl. exists mid. now rewrite !app_nil_r.
  - cbn [non_overlapping_refs_from remove_overlapping_loop length].
    rewrite app_assoc, nth_error_middle.
    destruct (non_overlapping_step bl o t) as [[[keep bl'] o']|e];
      cbn [bind]; [|reflexivity].
    destruct keep.
    + assert (Hset : exists mid',
                list_set ((kept ++ mid) ++ t :: suffix) (length kept) t =
                  Ok ((kept ++ [t]) ++ mid' ++ suffix) /\
                S (length (kept ++ mid)) = length ((kept ++ [t]) ++ mid')).
      { destruct mid as [|m mid].
        - exists []. rewrite app_nil_r, list_set_middle. simpl.
          rewrite <- app_assoc. split; [reflexivity|].
          rewrite app_nil_r, !length_app. simpl. lia.
        - exists (mid ++ [t]). rewrite <- app_assoc. simpl.
          rewrite list_set_middle. rewrite <- !app_assoc. simpl.
          split; [reflexivity|]. rewrite !length_app. simpl.
          rewrite !length_app. simpl. lia. }
      destruct Hset as [mid' [-> Hlen]]. cbn [bind].
      specialize (IH (kept ++ [t]) mid' bl' o').
      rewrite Hlen. replace (S (length kept)) with (length (kept ++ [t]))
        by (rewrite length_app; simpl; lia).
      destruct (non_overlapping_refs_from bl' o' suffix) as [sel|e];
        cbn [bind compress].
      * destruct IH as [junk ->]. exists junk.
        now rewrite <- !app_assoc.
      * exact IH.
    + specialize (IH kept (mid ++ [t]) bl' o').
      replace (kept ++ (mid ++ [t]) ++ suffix) with ((kept ++ mid) ++ t :: suffix)
        in IH by (rewrite <- !app_assoc; reflexivity).
      replace (length (kept ++ mid ++ [t])) with (S (length (kept ++ mid)))
        in IH by (rewrite !length_app; simpl; lia).
      destruct (non_overlapping_refs_from bl' o' suffix) as [sel|e];
        cbn [bind compress]; exact IH.
Qed.

Lemma remove_overlapping_refs_compress (tags : list tag) :
  remove_overlapping_refs tags =
  sel <- non_overlapping_refs tags ;;
  match compress tags sel with
  | [] => Raise UnboundLocalError
  | kept => Ok kept
  end.
Proof.
  unfold remove_overlapping_refs, non_overlapping_refs.
  pose proof (remove_overlapping_loop_spec tags [] [] [] None) as H.
  simpl in H.
  destruct (non_overlapping_refs_from [] None tags) as [sel|e]; simpl.
  - destruct H as [junk ->]. simpl.
    destruct (compress tags sel) as [|k kept] eqn:Hc; simpl; [reflexivity|].
    rewrite Nat.add_1_r. simpl. f_equal. f_equal.
    now rewrite firstn_app, firstn_all, Nat.sub_diag, firstn_O, app_nil_r.
  - now rewrite H.
Qed.

(** C4, the failing input: on the empty stream, which [build_lines] passes
    for an empty file without decorations, nothing is kept, the loop variable
    [i] is never bound and [del tags[i + 1:]] raises. *)
Theorem remove_overlapping_refs_empty :
  remove_overlapping_refs [] = Raise UnboundLocalError.
Proof. reflexivity. Qed.

Lemma In_filter_neq (a i : nat) (l : list nat) :
  In i (filter (fun j => negb (Nat.eqb j a)) l) <-> In i l /\ i <> a.
Proof.
  rewrite filter_In, negb_true_iff, Nat.eqb_neq. tauto.
Qed.

Lemma is_ref_tag_eq (x : Z) (st : bool) (p : payload) :
  is_ref_tag (x, st, p) = isinstance_Ref p.
Proof. reflexivity. Qed.

Lemma non_overlapping_refs_from_ok :
  forall (tags : list tag) open blacklist open_ref,
    refs_state_ok open blacklist open_ref ->
    opens_precede_closes_from open (filter is_ref_tag tags) = true ->
    exists sel,
      non_overlapping_refs_from blacklist open_ref tags = Ok sel /\
      filter (fun t => negb (is_ref_tag t)) (compress tags sel) =
        filter (fun t => negb (is_ref_tag t)) tags /\
      anchors_sequential open_ref (compress tags sel) = true /\
      (open = [] -> tags <> [] -> compress tags sel <> []).
Proof.
  induction tags as [|[[x st] p] tags IH]; intros open bl o [Hin Hfresh] Hp.
  - exists []. simpl in *. repeat split; try congruence.
    destruct open; [|discriminate]. destruct o as [r|]; [|reflexivity].
    exfalso. apply (Hin (oid r)). right. now exists r.
  - cbn [filter] in Hp. rewrite is_ref_tag_eq in Hp.
    cbn [non_overlapping_refs_from non_overlapping_step].
    destruct (isinstance_Ref p) eqn:Hr.
    + (* an anchor boundary *)
      destruct st; cbn [opens_precede_closes_from] in Hp;
        apply andb_true_iff in Hp; destruct Hp as [Hp1 Hp2].
      * (* open *)
        apply negb_true_iff, oid_in_false_iff in Hp1.
        assert (Hbl : oid_in (oid p) bl = false).
        { apply oid_in_false_iff. intros H. apply Hp1, Hin. now left. }
        rewrite Hbl. destruct o as [r|].
        -- assert (Hne : is_ r p = false).
           { apply is_false_iff. intros He. apply Hp1, Hin. right.
             now exists r. }
           rewrite Hne. cbn [bind].
           destruct (IH (oid p :: open) (oid p :: bl) (Some r)) as
             (sel & -> & Hf & Hs & _); [|exact Hp2|].
           { split.
             - intros i. simpl. rewrite Hin. tauto.
             - intros r' Hr' [He|Hb].
               + injection Hr' as <-. apply is_false_iff in Hne. congruence.
               + now apply (Hfresh r'). }
           exists (false :: sel). cbn [bind compress filter].
           rewrite ?is_ref_tag_eq, Hr.
           cbn [negb]. repeat split; try assumption.
           intros ->. exfalso. apply (Hin (oid r)). right. now exists r.
        -- cbn [bind].
           destruct (IH (oid p :: open) bl (Some p)) as
             (sel & -> & Hf & Hs & _); [|exact Hp2|].
           { split.
             - intros i. simpl. rewrite Hin. split.
               + intros [<-|[H|[r [Hr' _]]]]; [right; now exists p | now left
                                               | discriminate].
               + intros [H|[r [Hr' <-]]]; [right; now left|].
                 injection Hr' as <-. now left.
             - intros r Hr' Hb. injection Hr' as <-.
               apply oid_in_false_iff in Hbl. contradiction. }
           exists (true :: sel). cbn [bind compress filter anchors_sequential].
           rewrite ?is_ref_tag_eq, Hr.
           cbn [negb]. repeat split; try assumption. intros _ _; discriminate.
      * (* close *)
        apply oid_in_iff in Hp1.
        destruct (oid_in (oid p) bl) eqn:Hbl.
        -- apply oid_in_iff in Hbl. cbn [bind].
           destruct (IH (filter (fun i => negb (Nat.eqb i (oid p))) open)
                        (filter (fun i => negb (Nat.eqb i (oid p))) bl) o) as
             (sel & -> & Hf & Hs & _); [|exact Hp2|].
           { split.
             - intros i. rewrite !In_filter_neq, Hin. split.
               + intros [[H|H] Hne]; [left; now split | now right].
               + intros [[H Hne]|[r [Hr' <-]]]; [split; [now left | assumption]|].
                 split; [right; now exists r|].
                 intros He. apply (Hfresh r Hr'). now rewrite He.
             - intros r Hr' Hb. apply In_filter_neq in Hb.
               now apply (Hfresh r Hr'). }
           exists (false :: sel). cbn [bind compress filter].
           rewrite ?is_ref_tag_eq, Hr.
           cbn [negb]. repeat split; try assumption.
           intros ->. contradiction.
        -- apply oid_in_false_iff in Hbl.
           apply Hin in Hp1. destruct Hp1 as [H|[r [-> Hr']]]; [contradiction|].
           assert (Hrp : is_ r p = true) by now apply is_true_iff.
           rewrite Hrp. cbn [bind].
           destruct (IH (filter (fun i => negb (Nat.eqb i (oid p))) open) bl None)
             as (sel & -> & Hf & Hs & _); [|exact Hp2|].
           { split.
             - intros i. rewrite In_filter_neq, Hin. split.
               + intros [[H|[r' [He <-]]] Hne]; [now left|].
                 injection He as <-. contradiction.
               + intros [H|[r' [He _]]]; [|discriminate].
                 split; [now left|]. intros ->. contradiction.
             - discriminate. }
           exists (true :: sel). cbn [bind compress filter anchors_sequential].
           rewrite ?is_ref_tag_eq, Hr, Hrp.
           cbn [negb andb]. repeat split; try assumption. intros _ _; discriminate.
    + (* a Line or Region boundary *)
      cbn [bind].
      destruct (IH open bl o) as (sel & -> & Hf & Hs & _);
        [now split | exact Hp |].
      exists (true :: sel). cbn [bind compress filter anchors_sequential].
      rewrite ?is_ref_tag_eq, Hr.
      cbn [negb]. rewrite Hf. repeat split; try assumption. intros _ _; discriminate.
Qed.

Lemma remove_overlapping_refs_nonempty_compress (tags : list tag) :
  tags <> [] ->
  opens_precede_closes (filter is_ref_tag tags) = true ->
  exists sel,
    remove_overlapping_refs tags = Ok (compress tags sel) /\
    filter (fun t => negb (is_ref_tag t)) (compress tags sel) =
      filter (fun t => negb (is_ref_tag t)) tags /\
    anchors_sequential None (compress tags sel) = true.
Proof.
  intros Hne Hp.
  destruct (non_overlapping_refs_from_ok tags [] [] None) as
    (sel & Hsel & Hf & Hs & Hk); [|exact Hp|].
  { split; [|discriminate]. intros i. simpl. split; [tauto|].
    intros [[]|[r [Hr _]]]; discriminate. }
  exists sel. rewrite remove_overlapping_refs_compress.
  unfold non_overlapping_refs. rewrite Hsel. cbn [bind].
  specialize (Hk eq_refl Hne).
  destruct (compress tags sel); [congruence | auto].
Qed.

(** X13.  On a non-empty stream in which each anchor's open boundary precedes
    its close boundary, [remove_overlapping_refs] raises nothing, leaves the
    Line and Region boundaries as they are, in order, and keeps anchors that
    come one after the other: each kept anchor closes before the next one
    opens. *)
Theorem remove_overlapping_refs_nonempty (tags : list tag) :
  tags <> [] ->
  opens_precede_closes (filter is_ref_tag tags) = true ->
  exists kept,
    remove_overlapping_refs tags = Ok kept /\
    filter (fun t => negb (is_ref_tag t)) kept =
      filter (fun t => negb (is_ref_tag t)) tags /\
    anchors_sequential None kept = true.
Proof.
  intros Hne Hp.
  destruct (remove_overlapping_refs_nonempty_compress tags Hne Hp)
    as (sel & H1 & H2 & H3).
  now exists (compress tags sel).
Qed.

(** ** The renderer *)

Example build_lines_two_lines_region :
  build_lines dumps_null decode_ascii two_lines [region_0_5] =
  Ok [ (span_k ++ "ab</span>")%string; (span_k ++ "cd</span>")%string; EmptyString ].
Proof. reflexivity. Qed.

Lemma lstrip_crlf_decompose (s : string) :
  exists pre, s = (pre ++ lstrip_crlf s)%string /\ all_crlf pre = true.
Proof.
  induction s as [|c s [pre [Hs Hpre]]]; simpl.
  - now exists EmptyString.
  - destruct (is_crlf c) eqn:Hc.
    + exists (String c pre). simpl. rewrite Hc, Hpre.
      split; [now rewrite <- Hs | reflexivity].
    + now exists EmptyString.
Qed.

Lemma rstrip_crlf_decompose (s : string) :
  exists post, s = (rstrip_crlf s ++ post)%string /\ all_crlf post = true.
Proof.
  induction s as [|c s [post [Hs Hpost]]]; simpl.
  - now exists EmptyString.
  - destruct (rstrip_crlf s) as [|d r] eqn:Hr.
    + simpl in Hs. subst post. destruct (is_crlf c) eqn:Hc.
      * exists (String c s). simpl. now rewrite Hc, Hpost.
      * now exists s.
    + exists post. simpl in *. split; [now rewrite <- Hs | assumption].
Qed.

Lemma strip_crlf_decompose (s : string) :
  exists pre post,
    s = (pre ++ strip_crlf s ++ post)%string /\
    all_crlf pre = true /\ all_crlf post = true.
Proof.
  destruct (lstrip_crlf_decompose s) as [pre [Hs Hpre]].
  destruct (rstrip_crlf_decompose (lstrip_crlf s)) as [post [Hl Hpost]].
  exists pre, post. unfold strip_crlf. now rewrite <- Hl.
Qed.

Lemma rstrip_crlf_idem (s : string) : rstrip_crlf (rstrip_crlf s) = rstrip_crlf s.
Proof.
  induction s as [|c s IH]; simpl; [reflexivity|].
  destruct (rstrip_crlf s) as [|d r] eqn:Hr.
  - destruct (is_crlf c) eqn:Hc; simpl; [reflexivity|]. now rewrite Hc.
  - change (rstrip_crlf (String c (String d r)))
      with (match rstrip_crlf (String d r) with
            | EmptyString => if is_crlf c then EmptyString else String c EmptyString
            | rest' => String c rest'
            end).
    now rewrite IH.
Qed.

Lemma lstrip_crlf_fixed (s : string) :
  lstrip_crlf (lstrip_crlf s) = lstrip_crlf s.
Proof.
  induction s as [|c s IH]; simpl; [reflexivity|].
  destruct (is_crlf c) eqn:Hc; [assumption|]. simpl. now rewrite Hc.
Qed.

Lemma lstrip_rstrip_fixed (s : string) :
  lstrip_crlf s = s -> lstrip_crlf (rstrip_crlf s) = rstrip_crlf s.
Proof.
  destruct s as [|c s]; simpl; [reflexivity|].
  destruct (is_crlf c) eqn:Hc.
  - intros H. exfalso.
    destruct (lstrip_crlf_decompose s) as [pre [Hs _]].
    assert (Hlen : String.length (lstrip_crlf s) = S (String.length s))
      by now rewrite H.
    assert (Hle : (String.length (lstrip_crlf s) <= String.length s)%nat).
    { clear. induction s as [|d s IH]; simpl; [lia|].
      destruct (is_crlf d); simpl; lia. }
    lia.
  - intros _. destruct (rstrip_crlf s); simpl; now rewrite Hc.
Qed.

(** C7 (as amended).  A turn of the loop of [html_lines] on the boundary
    [(point, is_start, payload)] appends to what it has rendered so far (the
    segments, or the line it yields from them) the HTML-escaped slice from
    [up_to] to [point] with the [\r] and [\n] characters trimmed from both of
    its ends, then the tag's markup unless the payload is a Line, and leaves
    [up_to = point].  The trimmed slice is the slice without a leading and a
    trailing run of [\r] and [\n]; nothing else goes, and no [\r] or [\n] is
    left at either end.  Only when the slice does not begin with [\r] or [\n]
    is this the trimming of the trailing ones alone. *)
Theorem html_lines_step_appends (json_dumps : json -> string)
    (slicer : Z -> Z -> string) (st : render_state)
    (point : Z) (is_start : bool) (p : payload) :
  let slice := slicer (up_to st) point in
  let '(yielded, st') :=
    html_lines_step json_dumps slicer st (point, is_start, p) in
  up_to st' = point /\
  (join yielded ++ join (segments st'))%string =
    join (segments st ++
          [ escape false (strip_crlf slice);
            if isinstance_Line p then EmptyString
            else if is_start then opener json_dumps p else closer p ]) /\
  (exists pre post,
      slice = (pre ++ strip_crlf slice ++ post)%string /\
      all_crlf pre = true /\ all_crlf post = true) /\
  lstrip_crlf (strip_crlf slice) = strip_crlf slice /\
  rstrip_crlf (strip_crlf slice) = strip_crlf slice /\
  (lstrip_crlf slice = slice -> strip_crlf slice = rstrip_crlf slice).
Proof.
  intros slice. unfold html_lines_step. fold slice.
  set (seg := escape false (strip_crlf slice)).
  assert (Hstrip :
    (exists pre post,
        slice = (pre ++ strip_crlf slice ++ post)%string /\
        all_crlf pre = true /\ all_crlf post = true) /\
    lstrip_crlf (strip_crlf slice) = strip_crlf slice /\
    rstrip_crlf (strip_crlf slice) = strip_crlf slice /\
    (lstrip_crlf slice = slice -> strip_crlf slice = rstrip_crlf slice)).
  { split; [apply strip_crlf_decompose|]. unfold strip_crlf.
    split; [apply lstrip_rstrip_fixed, lstrip_crlf_fixed|].
    split; [apply rstrip_crlf_idem|]. now intros ->. }
  assert (Hjoin : forall a b : list string,
             join (a ++ b) = (join a ++ join b)%string) by apply join_app.
  destruct (line_ends_at st) as [l|];
    [destruct (is_start || (l <? point));
     [destruct (segments st ++ [seg]) as [|s0 ss] eqn:Hseg;
      [destruct (segments st); discriminate|]|]|];
    destruct (isinstance_Line p); simpl up_to; simpl segments;
    (split; [reflexivity|]); (split; [|exact Hstrip]);
    try rewrite <- Hseg;
    rewrite ?Hjoin; simpl; rewrite ?append_nil_r, ?append_assoc; reflexivity.
Qed.

(** C7, the claim as stated fails: on the slice [\nab] the turn appends [ab],
    not the slice with its trailing terminators trimmed, which is [\nab]. *)
Lemma html_lines_strips_leading_terminators :
  html_lines dumps_null [(3, true, region_k)] (py_slice (newline ++ "ab")) =
    [ ("ab" ++ span_k)%string ] /\
  escape false (rstrip_crlf (py_slice (newline ++ "ab") 0 3)) =
    (newline ++ "ab")%string.
Proof. split; reflexivity. Qed.

(** C2, the failing input: the text [ab\ncd\n] has two lines, but with a
    region over [[0,5)], which ends inside the second line, [build_lines]
    yields three strings. *)
Theorem build_lines_extra_line :
  splitlines_keepends two_lines = [ ("ab" ++ newline)%string; ("cd" ++ newline)%string ] /\
  build_lines dumps_null decode_ascii two_lines [region_0_5] =
    Ok [ (span_k ++ "ab</span>")%string; (span_k ++ "cd</span>")%string;
         EmptyString ].
Proof. split; reflexivity. Qed.

(** The empty text without decorations makes [build_lines] raise. *)
Example build_lines_empty_text :
  build_lines dumps_null decode_ascii EmptyString [] = Raise UnboundLocalError.
Proof. reflexivity. Qed.

(** ** Slicing the file ids *)

Lemma sliced_range_bounds_loop_S fuel a b s this_min this_max :
  sliced_range_bounds_loop (S fuel) a b s this_min this_max =
  match (if this_min =? a then Ok true
         else match this_max with
              | Some m => Ok (m <? b)
              | None => Raise UnboundLocalError
              end) with
  | Raise e => Some (Raise e)
  | Ok false => Some (Ok [])
  | Ok true =>
      match sliced_range_bounds_loop fuel a b s
              (Z.min b (this_min + s - 1) + 1)
              (Some (Z.min b (this_min + s - 1))) with
      | None => None
      | Some r =>
          Some (rest <- r ;; Ok ((this_min, Z.min b (this_min + s - 1)) :: rest))
      end
  end.
Proof. reflexivity. Qed.

Lemma sliced_range_bounds_loop_more_fuel :
  forall fuel a b s this_min this_max r,
    sliced_range_bounds_loop fuel a b s this_min this_max = Some r ->
    sliced_range_bounds_loop (S fuel) a b s this_min this_max = Some r.
Proof.
  induction fuel as [|fuel IH]; intros a b s this_min this_max r H;
    [discriminate|].
  rewrite sliced_range_bounds_loop_S in H.
  rewrite sliced_range_bounds_loop_S.
  destruct (if this_min =? a then Ok true
            else match this_max with
                 | Some m => Ok (m <? b)
                 | None => Raise UnboundLocalError
                 end) as [[|]|e]; try exact H.
  destruct (sliced_range_bounds_loop fuel a b s
              (Z.min b (this_min + s - 1) + 1)
              (Some (Z.min b (this_min + s - 1)))) as [r'|] eqn:Hr;
    [|discriminate].
  now rewrite (IH _ _ _ _ _ _ Hr).
Qed.

Lemma sliced_range_bounds_loop_fuel_le :
  forall fuel fuel' a b s this_min this_max r,
    (fuel <= fuel')%nat ->
    sliced_range_bounds_loop fuel a b s this_min this_max = Some r ->
    sliced_range_bounds_loop fuel' a b s this_min this_max = Some r.
Proof.
  intros fuel fuel' a b s this_min this_max r Hle H.
  induction Hle; [assumption|]. now apply sliced_range_bounds_loop_more_fuel.
Qed.

(** The loop after its first turn: [this_min = lo > a], [this_max = lo - 1]. *)
Lemma sliced_range_bounds_loop_rest (a b s : Z) :
  0 < s ->
  forall (n : nat) (lo : Z),
    a < lo -> lo - 1 <= b -> b - (lo - 1) <= s * Z.of_nat n ->
    exists rs,
      sliced_range_bounds_loop (S n) a b s lo (Some (lo - 1)) = Some (Ok rs) /\
      slices_of s lo b rs.
Proof.
  intros Hs. induction n as [|n IH]; intros lo Ha Hlo Hn.
  - exists []. rewrite sliced_range_bounds_loop_S.
    destruct (Z.eqb_spec lo a); [lia|].
    destruct (Z.ltb_spec (lo - 1) b); [lia|]. split; [reflexivity|].
    simpl. lia.
  - rewrite sliced_range_bounds_loop_S.
    destruct (Z.eqb_spec lo a); [lia|].
    destruct (Z.ltb_spec (lo - 1) b) as [Hlt|Hge].
    + rewrite Nat2Z.inj_succ in Hn.
      destruct (IH (Z.min b (lo + s - 1) + 1)) as [rs [Hrs Hok]]; try lia.
      replace (Z.min b (lo + s - 1) + 1 - 1) with (Z.min b (lo + s - 1))
        in Hrs by lia.
      rewrite Hrs. cbn [bind]. eexists. split; [reflexivity|].
      cbn [slices_of]. repeat split; try lia; [|assumption].
      intros Hne. destruct rs as [|[m M] rs]; [congruence|].
      cbn [slices_of] in Hok. lia.
    + exists []. split; [reflexivity|]. simpl. lia.
Qed.

Lemma slices_of_lower (s : Z) (rs : list (Z * Z)) :
  forall lo hi, slices_of s lo hi rs -> Forall (fun r => lo <= fst r) rs.
Proof.
  induction rs as [|[m M] rs IH]; intros lo hi H; [constructor|].
  cbn [slices_of] in H. destruct H as (-> & Hle & _ & _ & _ & Hrest).
  constructor; [simpl; lia|].
  eapply Forall_impl; [|apply (IH _ _ Hrest)]. simpl. intros; lia.
Qed.

Lemma slices_of_cover (s : Z) (rs : list (Z * Z)) :
  forall lo hi,
    slices_of s lo hi rs ->
    forall id, lo <= id <= hi <-> exists r, In r rs /\ fst r <= id <= snd r.
Proof.
  induction rs as [|[m M] rs IH]; intros lo hi H id.
  - simpl in H. split; [lia | intros [r [[] _]]].
  - cbn [slices_of] in H. destruct H as (-> & Hle & Hhi & _ & _ & Hrest).
    pose proof (slices_of_lower _ _ _ _ Hrest) as Hlow.
    specialize (IH _ _ Hrest id). split.
    + intros Hid. destruct (Z_le_gt_dec id M) as [H1|H1].
      * exists (lo, M). split; [now left | simpl; lia].
      * destruct (proj1 IH) as [r [Hr Hin]]; [lia|].
        exists r. split; [now right | assumption].
    + intros [r [[<-|Hr] Hin]]; [simpl in Hin; lia|].
      assert (M + 1 <= id <= hi) by (apply IH; now exists r). lia.
Qed.

Lemma slices_of_disjoint (s : Z) (rs : list (Z * Z)) :
  forall lo hi,
    slices_of s lo hi rs ->
    StronglySorted (fun r1 r2 => snd r1 < fst r2) rs.
Proof.
  induction rs as [|[m M] rs IH]; intros lo hi H; [constructor|].
  cbn [slices_of] in H. destruct H as (_ & _ & _ & _ & _ & Hrest).
  constructor; [now apply (IH _ _ Hrest)|].
  eapply Forall_impl; [|apply (slices_of_lower _ _ _ _ Hrest)].
  simpl. intros; lia.
Qed.

Lemma slices_of_sizes (s : Z) (rs : list (Z * Z)) :
  forall lo hi,
    slices_of s lo hi rs ->
    Forall (fun r => 1 <= snd r - fst r + 1 <= s) rs /\
    Forall (fun r => snd r - fst r + 1 = s) (removelast rs).
Proof.
  induction rs as [|[m M] rs IH]; intros lo hi H; [split; constructor|].
  cbn [slices_of] in H. destruct H as (_ & Hle & _ & Hsz & Hfull & Hrest).
  destruct (IH _ _ Hrest) as [H1 H2]. split.
  - constructor; [simpl; lia | assumption].
  - destruct rs as [|r rs]; [constructor|].
    change (removelast ((m, M) :: r :: rs)) with ((m, M) :: removelast (r :: rs)).
    constructor; [simpl; apply Hfull; discriminate | assumption].
Qed.

(** C9.  For [max_id >= 1] the loop of [_sliced_range_bounds(1, max_id, 500)]
    ends, and the ranges it yields are consecutive ([slices_of]: each begins
    right after the one before, the first at 1, the last ending at
    [max_id]), cover exactly the ids from 1 to [max_id], are pairwise
    disjoint, hold between 1 and 500 ids each and exactly 500 except possibly
    the last; [run_html_workers] submits one task per range, with the range as
    its bounds, in the same order. *)
Theorem sliced_range_bounds_partition (max_id : Z) :
  1 <= max_id ->
  exists (fuel0 : nat) (ranges : list (Z * Z)),
    (forall fuel, (fuel0 <= fuel)%nat ->
       _sliced_range_bounds fuel 1 max_id 500 = Some (Ok ranges) /\
       run_html_workers fuel max_id =
         Some (Ok (map (fun r => mkTask (fst r) (snd r)) ranges))) /\
    ranges <> [] /\
    slices_of 500 1 max_id ranges /\
    (forall id, 1 <= id <= max_id <->
                exists r, In r ranges /\ fst r <= id <= snd r) /\
    StronglySorted (fun r1 r2 => snd r1 < fst r2) ranges /\
    Forall (fun r => 1 <= snd r - fst r + 1 <= 500) ranges /\
    Forall (fun r => snd r - fst r + 1 = 500) (removelast ranges).
Proof.
  intros Hmax.
  destruct (sliced_range_bounds_loop_rest 1 max_id 500 ltac:(lia)
              (Z.to_nat max_id) (Z.min max_id (1 + 500 - 1) + 1))
    as [rs [Hrs Hok]]; try lia.
  replace (Z.min max_id (1 + 500 - 1) + 1 - 1) with (Z.min max_id (1 + 500 - 1))
    in Hrs by lia.
  set (ranges := (1, Z.min max_id (1 + 500 - 1)) :: rs).
  assert (Hsl : slices_of 500 1 max_id ranges).
  { unfold ranges. cbn [slices_of]. repeat split; try lia; [|assumption].
    intros Hne. destruct rs as [|[m M] rs']; [congruence|].
    cbn [slices_of] in Hok. lia. }
  assert (Hrun : forall fuel, (S (S (Z.to_nat max_id)) <= fuel)%nat ->
            _sliced_range_bounds fuel 1 max_id 500 = Some (Ok ranges)).
  { intros fuel Hfuel. unfold _sliced_range_bounds.
    apply sliced_range_bounds_loop_fuel_le with (S (S (Z.to_nat max_id)));
      [assumption|].
    rewrite sliced_range_bounds_loop_S, Z.eqb_refl, Hrs. reflexivity. }
  exists (S (S (Z.to_nat max_id))), ranges.
  split; [|split; [discriminate | split; [exact Hsl|]]].
  - intros fuel Hfuel. split; [now apply Hrun|].
    unfold run_html_workers. rewrite (Hrun fuel Hfuel). cbn [bind].
    do 2 f_equal. apply map_ext. now intros [a b].
  - split; [now apply (slices_of_cover 500 ranges 1 max_id)|].
    split; [now apply (slices_of_disjoint 500 ranges 1 max_id)|].
    now apply (slices_of_sizes 500 ranges 1 max_id).
Qed.

Lemma sliced_range_bounds_partition_witness :
  exists (fuel0 : nat) (ranges : list (Z * Z)),
    (forall fuel, (fuel0 <= fuel)%nat ->
       _sliced_range_bounds fuel 1 1234 500 = Some (Ok ranges) /\
       run_html_workers fuel 1234 =
         Some (Ok (map (fun r => mkTask (fst r) (snd r)) ranges))) /\
    ranges <> [] /\
    slices_of 500 1 1234 ranges /\
    (forall id, 1 <= id <= 1234 <->
                exists r, In r ranges /\ fst r <= id <= snd r) /\
    StronglySorted (fun r1 r2 => snd r1 < fst r2) ranges /\
    Forall (fun r => 1 <= snd r - fst r + 1 <= 500) ranges /\
    Forall (fun r => snd r - fst r + 1 = 500) (removelast ranges).
Proof. apply (sliced_range_bounds_partition 1234). lia. Defined.

Example sliced_range_bounds_1234 :
  _sliced_range_bounds 10 1 1234 500 = Some (Ok [(1, 500); (501, 1000); (1001, 1234)]) /\
  run_html_workers 10 1234 =
    Some (Ok [mkTask 1 500; mkTask 501 1000; mkTask 1001 1234]).
Proof. split; reflexivity. Qed.

(** ** Indexing and the ignore rules *)

Lemma fs_dir_ind (P : fs_dir -> Prop) :
  (forall files folders,
      Forall (fun folder => P (snd folder)) folders -> P (Dir files folders)) ->
  forall dir, P dir.
Proof.
  intros step. fix IH 1. intros [files folders]. apply step.
  refine ((fix each (l : list (string * fs_dir))
             : Forall (fun folder => P (snd folder)) l :=
             match l with
             | [] => Forall_nil _
             | folder :: l' => Forall_cons folder (IH (snd folder)) (each l')
             end) folders).
Qed.

Lemma insert_by_name_In {A : Type} (x y : string * A) (l : list (string * A)) :
  In y (insert_by_name x l) -> y = x \/ In y l.
Proof.
  induction l as [|z l IH]; simpl.
  - intros [<-|[]]. now left.
  - destruct (String.ltb (fst z) (fst x)); simpl.
    + intros [<-|H]; [right; now left|].
      destruct (IH H); [now left | right; now right].
    + intros [<-|H]; [now left | now right].
Qed.

Lemma sort_by_name_In {A : Type} (y : string * A) (l : list (string * A)) :
  In y (sort_by_name l) -> In y l.
Proof.
  induction l as [|x l IH]; simpl; [auto|].
  intros H. apply insert_by_name_In in H. destruct H as [->|H]; auto.
Qed.

Section IndexingFacts.
Variable fnmatchcase : string -> string -> bool.
Variable is_text : string -> string -> bool.
Variable icon : string -> string.
Variable tree : tree_config.

#[local] Abbreviation walk' := (walk fnmatchcase is_text icon tree).

Lemma walk_Dir files folders root rel_path conn :
  walk' (Dir files folders) root rel_path conn =
  fold_left
    (fun conn' folder =>
       snd folder (path_join root (fst folder))
                  (path_join rel_path (fst folder)) conn')
    (sort_by_name
       (_unignored_folders fnmatchcase tree
          (map (fun folder => (fst folder, walk' (snd folder))) folders)
          rel_path))
    (fold_left (index_file fnmatchcase is_text icon tree root rel_path)
               files conn).
Proof.
  cbn [walk]. do 3 f_equal.
  induction folders as [|[name sub] l IH]; [reflexivity|].
  simpl. now rewrite IH.
Qed.

Lemma fold_left_invariant {S X : Type} (I : S -> Prop) (f : S -> X -> S)
    (l : list X) :
  (forall s x, In x l -> I s -> I (f s x)) ->
  forall s, I s -> I (fold_left f l s).
Proof.
  induction l as [|x l IH]; intros Hf s Hs; simpl; [assumption|].
  apply IH; [|apply Hf; [now left | assumption]].
  intros s' x' Hx'. apply Hf. now right.
Qed.

Lemma walk_rows (Q : string -> Prop) :
  forall dir root rel_path conn,
    (forall path,
        Indexable fnmatchcase is_text tree dir root rel_path path -> Q path) ->
    Forall (fun row => Q (snd (fst row))) (files_table conn) ->
    Forall (fun row => Q (snd (fst row)))
           (files_table (walk' dir root rel_path conn)).
Proof.
  induction dir as [files folders IH] using fs_dir_ind.
  intros root rel_path conn HQ Hconn. rewrite walk_Dir.
  apply fold_left_invariant.
  - intros conn' [name w] Hin Hc'. simpl.
    apply sort_by_name_In in Hin. unfold _unignored_folders in Hin.
    apply filter_In in Hin. destruct Hin as [Hin Hun].
    apply in_map_iff in Hin. destruct Hin as [[name' sub] [Heq Hin]].
    simpl in Heq. injection Heq as -> <-. simpl in Hun.
    unfold folder_unignored in Hun.
    destruct (existsb (fnmatchcase name) (ignore_patterns tree)) eqn:Hname;
      [discriminate|]. simpl in Hun. apply negb_true_iff in Hun.
    rewrite Forall_forall in IH. apply (IH (name, sub) Hin); [|assumption].
    intros path Hp. apply HQ.
    now apply Indexable_folder with name sub.
  - apply fold_left_invariant; [|assumption].
    intros conn' [f data] Hin Hc'. unfold index_file.
    destruct (name_ignored fnmatchcase tree f) eqn:Hf; [assumption|].
    destruct (file_path_ignored fnmatchcase tree (path_join rel_path f))
      eqn:Hp; [assumption|].
    destruct (is_text (path_join root f) data) eqn:Ht; [|assumption].
    simpl. apply Forall_app. split; [assumption|].
    constructor; [|constructor]. simpl. apply HQ.
    now apply Indexable_file with data.
Qed.

Lemma filter_name_unignored {A : Type} (folders : list (string * A))
    (rel_path : string) :
  _unignored_folders fnmatchcase tree
    (filter (fun folder => negb (name_ignored fnmatchcase tree (fst folder)))
            folders) rel_path =
  _unignored_folders fnmatchcase tree folders rel_path.
Proof.
  unfold _unignored_folders.
  induction folders as [|[name a] l IH]; simpl; [reflexivity|].
  unfold folder_unignored at 2, name_ignored at 1. simpl.
  destruct (existsb (fnmatchcase name) (ignore_patterns tree)) eqn:Hn; simpl.
  - exact IH.
  - unfold folder_unignored at 1. rewrite Hn. simpl. now rewrite IH.
Qed.
End IndexingFacts.

Lemma map_filter_fst {A B : Type} (P : string -> bool) (g : A -> B)
    (l : list (string * A)) :
  map (fun x => (fst x, g (snd x))) (filter (fun x => P (fst x)) l) =
  filter (fun x => P (fst x)) (map (fun x => (fst x, g (snd x))) l).
Proof.
  induction l as [|[n a] l IH]; simpl; [reflexivity|].
  destruct (P n); simpl; now rewrite IH.
Qed.

(** C8.  Whatever the globbing, the text test and the icons: every row
    [index_files] inserts holds the path of a text file whose bare name
    matches no name-glob of [ignore_patterns] and whose relative path, with a
    [/] in front, matches no path-glob of [ignore_paths], found by going down
    only through folders that are not ignored ([Indexable]); a file whose
    name or path does match leaves the tables as they are; and a directory is
    walked exactly as if its folders with a name matching a name-glob were
    not there, so nothing under them is indexed. *)
Theorem index_files_ignore_rules
    (fnmatchcase : string -> string -> bool)
    (is_text : string -> string -> bool) (icon : string -> string)
    (tree : tree_config) :
  (forall source,
      Forall (fun row =>
                Indexable fnmatchcase is_text tree source (source_folder tree)
                          EmptyString (snd (fst row)))
             (files_table
                (index_files fnmatchcase is_text icon tree source empty_database))) /\
  (forall root rel_path conn f data,
      name_ignored fnmatchcase tree f = true \/
      file_path_ignored fnmatchcase tree (path_join rel_path f) = true ->
      index_file fnmatchcase is_text icon tree root rel_path conn (f, data) = conn) /\
  (forall files folders root rel_path conn,
      walk fnmatchcase is_text icon tree (Dir files folders) root rel_path conn =
      walk fnmatchcase is_text icon tree
        (Dir files
             (filter (fun folder =>
                        negb (name_ignored fnmatchcase tree (fst folder)))
                     folders))
        root rel_path conn).
Proof.
  split; [|split].
  - intros source. unfold index_files. apply walk_rows; [auto | constructor].
  - intros root rel_path conn f data H. unfold index_file.
    destruct (name_ignored fnmatchcase tree f); [reflexivity|].
    destruct H as [H|H]; [discriminate|]. now rewrite H.
  - intros files folders root rel_path conn. rewrite !walk_Dir.
    now rewrite (map_filter_fst
                   (fun n => negb (name_ignored fnmatchcase tree n))),
      filter_name_unignored.
Qed.

Example index_files_sample :
  files_table
    (index_files fnmatch_exact (fun _ _ => true) (fun _ => "page"%string)
                 sample_tree sample_source empty_database) =
  [ (1, "main.c", "page"); (2, "lib/util.c", "page") ]%string.
Proof. reflexivity. Qed.

(** ** Further facts about the pipeline *)

Example splitlines_mixed_terminators :
  splitlines_keepends mixed_terminators =
  [ String "a" (String CR (String LF EmptyString));
    String "b" (String CR EmptyString);
    String "c" (String LF EmptyString);
    String "d" EmptyString ].
Proof. reflexivity. Qed.

Lemma line_boundaries_share_marker_witness :
  filter is_line_tag
    (sort_by_key nesting_order
       ([ (0, true, mkPayload 0 (Region "k")); (5, false, mkPayload 0 (Region "k")) ]
        ++ line_boundaries 1 two_lines)) =
  line_boundaries 1 two_lines.
Proof.
  apply (line_boundaries_share_marker two_lines [region_0_5] _ 1%nat eq_refl).
Defined.

Lemma points_sorted_from_of_sorted (l : list tag) :
  StronglySorted (le_by_key nesting_order) l ->
  forall lo, Forall (fun t => lo <= point_of t) l ->
             points_sorted_from lo l = true.
Proof.
  induction 1 as [|[[x st] p] l Hs IH Hx]; intros lo Hlo; simpl; [reflexivity|].
  inversion Hlo as [|? ? Hlo1 _]; subst. unfold point_of in Hlo1. simpl in Hlo1.
  apply andb_true_iff. split; [now apply Z.leb_le|].
  apply IH. eapply Forall_impl; [|exact Hx].
  intros [[y st'] q] Hle. unfold point_of. simpl.
  unfold le_by_key in Hle. key_cases; try discriminate; lia.
Qed.

(** The stream [build_lines] sorts by [nesting_order] is sorted by offset,
    as the balancer needs it. *)
Lemma sort_by_nesting_order_sorted_by_point (tags : list tag) :
  sorted_by_point (sort_by_key nesting_order tags) = true.
Proof.
  pose proof (sort_by_key_sorted nesting_order tags) as Hs.
  destruct (sort_by_key nesting_order tags) as [|[[x st] p] l]; [reflexivity|].
  simpl. inversion Hs as [|? ? Hl Hx]; subst.
  apply points_sorted_from_of_sorted; [assumption|].
  eapply Forall_impl; [|exact Hx].
  intros [[y st'] q] Hle. unfold point_of. simpl.
  unfold le_by_key in Hle. key_cases; try discriminate; lia.
Qed.

(** ** The stream of [build_lines] meets what the balancer asks for *)

Lemma oid_in_cons (i a : nat) (l : list nat) :
  oid_in i (a :: l) = Nat.eqb i a || oid_in i l.
Proof. reflexivity. Qed.

Lemma oid_in_filter_neq (i a : nat) (l : list nat) :
  oid_in i (filter (fun j => negb (Nat.eqb j a)) l) =
  negb (Nat.eqb i a) && oid_in i l.
Proof.
  destruct (oid_in i (filter (fun j => negb (Nat.eqb j a)) l)) eqn:H1.
  - apply oid_in_iff, In_filter_neq in H1. destruct H1 as [H1 H2].
    apply oid_in_iff in H1. apply Nat.eqb_neq in H2. now rewrite H1, H2.
  - apply oid_in_false_iff in H1. rewrite In_filter_neq in H1.
    destruct (Nat.eqb_spec i a); [reflexivity|]. simpl.
    symmetry. apply oid_in_false_iff. tauto.
Qed.

Lemma boundaries_of_object_cons (i : nat) (x : Z) (st : bool) (p : payload)
    (ts : list tag) :
  boundaries_of_object i ((x, st, p) :: ts) =
  if Nat.eqb (oid p) i then (x, st, p) :: boundaries_of_object i ts
  else boundaries_of_object i ts.
Proof. reflexivity. Qed.

(** If the boundaries of every single object take turns, each payload's open
    precedes its close in the stream as a whole. *)
Lemma alternates_opens_precede_closes :
  forall (ts : list tag) (open : list nat),
    (forall i, alternates (oid_in i open) (boundaries_of_object i ts) = true) ->
    opens_precede_closes_from open ts = true.
Proof.
  induction ts as [|[[x st] p] ts IH]; intros open H.
  - destruct open as [|a l]; [reflexivity|].
    specialize (H a). simpl in H. unfold oid_in in H. simpl in H.
    now rewrite Nat.eqb_refl in H.
  - pose proof (H (oid p)) as Hp.
    rewrite boundaries_of_object_cons, Nat.eqb_refl in Hp.
    cbn [alternates] in Hp. cbn [opens_precede_closes_from].
    destruct st; apply andb_true_iff in Hp; destruct Hp as [Hp1 Hp2];
      rewrite Hp1; cbn [andb]; apply IH; intros i; specialize (H i);
      rewrite boundaries_of_object_cons in H.
    + rewrite oid_in_cons. destruct (Nat.eqb_spec i (oid p)) as [->|Hne].
      * exact Hp2.
      * apply Nat.neq_sym, Nat.eqb_neq in Hne. now rewrite Hne in H.
    + rewrite oid_in_filter_neq. destruct (Nat.eqb_spec i (oid p)) as [->|Hne].
      * exact Hp2.
      * apply Nat.neq_sym, Nat.eqb_neq in Hne. now rewrite Hne in H.
Qed.

Lemma boundaries_of_object_outside (L : list (interval payload_class)) :
  forall k i,
    (i < k)%nat \/ (k + length L <= i)%nat ->
    boundaries_of_object i (boundaries_of k L) = [].
Proof.
  induction L as [|[[s e] c] L IH]; intros k i Hi; [reflexivity|].
  cbn [boundaries_of]. rewrite !boundaries_of_object_cons. cbn [oid].
  simpl length in Hi.
  destruct (Nat.eqb_spec k i) as [->|Hne]; [lia|].
  apply IH. lia.
Qed.

Lemma boundaries_of_object_alternates (L : list (interval payload_class)) :
  Forall (fun iv => interval_well_formed iv = true) L ->
  forall k i,
    alternates false
      (sort_by_key nesting_order (boundaries_of_object i (boundaries_of k L)))
    = true.
Proof.
  induction 1 as [|[[s e] c] L Hwf _ IH]; intros k i; [reflexivity|].
  cbn [boundaries_of]. rewrite !boundaries_of_object_cons. cbn [oid].
  destruct (Nat.eqb_spec k i) as [->|Hne]; [|apply IH].
  rewrite boundaries_of_object_outside by lia.
  destruct s as [s|]; [|discriminate]. destruct e as [e|]; [|discriminate].
  simpl in Hwf. apply andb_true_iff in Hwf. destruct Hwf as [_ Hlt].
  apply Z.ltb_lt in Hlt. simpl. unfold key_ltb, nesting_order.
  destruct (Z.ltb_spec e s); [lia|]. destruct (Z.eqb_spec e s); [lia|].
  reflexivity.
Qed.

Lemma line_boundaries_from_alternates (m : payload) (lines : list string) :
  forall up_to, alternates false (line_boundaries_from m up_to lines) = true.
Proof. induction lines as [|l lines IH]; intros up_to; simpl; auto. Qed.

Lemma boundaries_of_object_line_boundaries (n i : nat) (text : string) :
  boundaries_of_object i (line_boundaries n text) =
  if Nat.eqb n i then line_boundaries n text else [].
Proof.
  unfold line_boundaries.
  generalize 0 at 1 2. generalize (splitlines_keepends text).
  induction l as [|l lines IH]; intros up_to.
  - simpl. now destruct (Nat.eqb n i).
  - cbn [line_boundaries_from]. rewrite !boundaries_of_object_cons.
    cbn [oid]. rewrite IH. now destruct (Nat.eqb n i).
Qed.

(** In the sorted stream of [build_lines], when every plugin interval is
    well-formed, the boundaries of each object take turns. *)
Lemma sorted_stream_alternates (text : string) (hs : list htmlifier)
    (tb : list tag) (n : nat) :
  tag_boundaries_from 0 hs = Ok (tb, n) ->
  Forall (fun iv => interval_well_formed iv = true)
         (flat_map htmlifier_intervals hs) ->
  forall i,
    alternates false
      (boundaries_of_object i
         (sort_by_key nesting_order (tb ++ line_boundaries n text))) = true.
Proof.
  intros Htb Hwf i. rewrite tag_boundaries_from_spec in Htb.
  destruct (forallb interval_accepted (flat_map htmlifier_intervals hs));
    [|discriminate].
  injection Htb as <- <-. simpl Nat.add.
  unfold boundaries_of_object at 1. rewrite filter_sort_by_key, filter_app.
  fold (boundaries_of_object i (boundaries_of 0 (flat_map htmlifier_intervals hs))).
  fold (boundaries_of_object i
          (line_boundaries (length (flat_map htmlifier_intervals hs)) text)).
  rewrite boundaries_of_object_line_boundaries.
  destruct (Nat.eqb_spec (length (flat_map htmlifier_intervals hs)) i)
    as [<-|Hne].
  - rewrite boundaries_of_object_outside by lia. simpl app.
    unfold line_boundaries. rewrite sort_by_key_id.
    + apply line_boundaries_from_alternates.
    + apply line_boundaries_from_sorted, splitlines_from_nonempty.
  - rewrite app_nil_r. now apply boundaries_of_object_alternates.
Qed.

Lemma sort_by_key_In {A : Type} (f : A -> key) (y : A) (l : list A) :
  In y (sort_by_key f l) -> In y l.
Proof.
  induction l as [|x l IH]; simpl; [auto|].
  intros H. apply insert_by_key_In in H. destruct H as [->|H]; auto.
Qed.

Lemma sort_by_key_nil {A : Type} (f : A -> key) (l : list A) :
  sort_by_key f l = [] -> l = [].
Proof.
  destruct l as [|x l]; [reflexivity|]. simpl.
  destruct (sort_by_key f l) as [|y l']; simpl; [discriminate|].
  destruct (key_ltb (f y) (f x)); discriminate.
Qed.

Lemma compress_In {A : Type} (x : A) (l : list A) :
  forall sel, In x (compress l sel) -> In x l.
Proof.
  induction l as [|y l IH]; intros [|[|] sel]; simpl; try tauto.
  - intros [->|H]; [now left | right; eauto].
  - intros H. right. eauto.
Qed.

Lemma points_sorted_from_weaken (l : list tag) :
  forall lo lo', lo' <= lo ->
    points_sorted_from lo l = true -> points_sorted_from lo' l = true.
Proof.
  destruct l as [|[[x st] p] l]; intros lo lo' Hle; simpl; [reflexivity|].
  rewrite !andb_true_iff, !Z.leb_le. intros [H1 H2]. split; [lia | assumption].
Qed.

Lemma points_sorted_from_compress (l : list tag) :
  forall lo sel,
    points_sorted_from lo l = true ->
    points_sorted_from lo (compress l sel) = true.
Proof.
  induction l as [|[[x st] p] l IH]; intros lo [|[|] sel]; simpl;
    try reflexivity; rewrite ?andb_true_iff, ?Z.leb_le; intros [H1 H2].
  - split; [assumption | now apply IH].
  - apply IH. now apply points_sorted_from_weaken with x.
Qed.

Lemma sorted_by_point_compress (l : list tag) (sel : list bool) :
  sorted_by_point l = true -> sorted_by_point (compress l sel) = true.
Proof.
  intros H.
  assert (Hlo : exists lo, points_sorted_from lo l = true).
  { destruct l as [|[[x st] p] l]; [now exists 0|].
    exists x. simpl in *. now rewrite Z.leb_refl. }
  destruct Hlo as [lo Hlo].
  pose proof (points_sorted_from_compress l lo sel Hlo) as Hc.
  destruct (compress l sel) as [|[[x st] p] l']; [reflexivity|].
  simpl in *. now apply andb_true_iff in Hc.
Qed.

Lemma refness_boundaries_of (L : list (interval payload_class)) :
  forall k,
    Forall (fun t => (k <= oid (payload_of t))%nat /\
                     is_ref_tag t = interval_is_ref L (oid (payload_of t) - k))
           (boundaries_of k L).
Proof.
  induction L as [|[[s e] c] L IH]; intros k; [constructor|].
  cbn [boundaries_of].
  assert (Hk : is_ref_tag (0, true, mkPayload k c) =
               interval_is_ref ((s, e, c) :: L) (k - k)).
  { rewrite Nat.sub_diag. unfold interval_is_ref, is_ref_tag, isinstance_Ref.
    simpl. now destruct c. }
  constructor; [split; [simpl; lia | exact Hk]|].
  constructor; [split; [simpl; lia | exact Hk]|].
  eapply Forall_impl; [|apply (IH (S k))]. intros t [Hle Hr].
  split; [lia|]. rewrite Hr. unfold interval_is_ref.
  replace (oid (payload_of t) - k)%nat with (S (oid (payload_of t) - S k))
    by lia. reflexivity.
Qed.

Lemma refness_sorted_stream (L : list (interval payload_class)) (text : string) :
  refness_by_oid (interval_is_ref L)
    (sort_by_key nesting_order
       (boundaries_of 0 L ++ line_boundaries (length L) text)).
Proof.
  unfold refness_by_oid. apply Forall_forall. intros t Ht.
  apply sort_by_key_In, in_app_or in Ht. destruct Ht as [Ht|Ht].
  - pose proof (refness_boundaries_of L 0) as H. rewrite Forall_forall in H.
    destruct (H t Ht) as [_ Hr]. now rewrite Nat.sub_0_r in Hr.
  - pose proof (line_boundaries_from_payload (mkPayload (length L) Line)
                  (splitlines_keepends text) 0) as H.
    rewrite Forall_forall in H. unfold is_ref_tag. rewrite (H t Ht). simpl.
    unfold interval_is_ref. rewrite nth_overflow; [reflexivity|].
    rewrite length_map. apply le_n.
Qed.

Lemma boundaries_of_object_by_refness (R : nat -> bool) (ts : list tag) (i : nat) :
  refness_by_oid R ts ->
  boundaries_of_object i (filter is_ref_tag ts) =
    (if R i then boundaries_of_object i ts else []) /\
  boundaries_of_object i (filter (fun t => negb (is_ref_tag t)) ts) =
    (if R i then [] else boundaries_of_object i ts).
Proof.
  induction 1 as [|[[x st] p] ts Ht _ [IH1 IH2]].
  - now destruct (R i).
  - cbn [filter]. unfold payload_of in Ht. cbn [snd] in Ht.
    destruct (is_ref_tag (x, st, p)) eqn:Hr; cbn [negb];
      rewrite !boundaries_of_object_cons, ?IH1, ?IH2;
      destruct (Nat.eqb_spec (oid p) i) as [<-|Hne];
      rewrite <- ?Ht; auto.
Qed.

Lemma anchors_sequential_alternates :
  forall (l : list tag) (o : option payload) (i : nat),
    anchors_sequential o l = true ->
    alternates (match o with Some q => Nat.eqb (oid q) i | None => false end)
               (boundaries_of_object i (filter is_ref_tag l)) = true.
Proof.
  induction l as [|[[x st] p] l IH]; intros o i H.
  - simpl in *. now destruct o.
  - cbn [anchors_sequential filter] in *. rewrite is_ref_tag_eq.
    destruct (isinstance_Ref p) eqn:Hr; [|now apply IH].
    rewrite boundaries_of_object_cons.
    destruct o as [q|], st; try discriminate.
    + apply andb_true_iff in H. destruct H as [Hq H].
      apply is_true_iff in Hq. rewrite Hq.
      specialize (IH None i H). cbn beta iota in IH.
      destruct (Nat.eqb (oid p) i); [|assumption].
      cbn [alternates]. now rewrite IH.
    + specialize (IH (Some p) i H). cbn beta iota in IH.
      destruct (Nat.eqb (oid p) i); [|assumption].
      cbn [alternates negb andb]. assumption.
Qed.

Lemma interval_well_formed_accepted {D : Type} (l : list (interval D)) :
  Forall (fun iv => interval_well_formed iv = true) l ->
  forallb interval_accepted l = true.
Proof.
  induction 1 as [|[[[s|] [e|]] d] l Hwf _ IH]; simpl in *;
    try discriminate; [reflexivity|].
  apply andb_true_iff in Hwf. destruct Hwf as [H1 H2].
  apply Z.leb_le in H1. apply Z.ltb_lt in H2.
  rewrite IH, andb_true_r. apply Z.ltb_lt. lia.
Qed.

Lemma line_boundaries_nonempty (n : nat) (text : string) :
  text <> EmptyString -> line_boundaries n text <> [].
Proof.
  intros Hne. unfold line_boundaries.
  pose proof (splitlines_from_join text EmptyString) as Hj.
  fold (splitlines_keepends text) in Hj.
  destruct (splitlines_keepends text); [simpl in Hj; congruence|].
  discriminate.
Qed.

(** When every plugin interval is well-formed and there is anything to
    decorate, the first half of [build_lines] raises nothing and hands the
    balancer a stream sorted by offset in which each payload's open boundary
    precedes its close boundary. *)
Theorem sorted_tag_stream_meets_balancer (text : string) (hs : list htmlifier) :
  Forall (fun iv => interval_well_formed iv = true)
         (flat_map htmlifier_intervals hs) ->
  text <> EmptyString \/ flat_map htmlifier_intervals hs <> [] ->
  exists kept,
    sorted_tag_stream text hs = Ok kept /\
    sorted_by_point kept = true /\
    opens_precede_closes kept = true.
Proof.
  intros Hwf Hne. unfold sorted_tag_stream.
  set (L := flat_map htmlifier_intervals hs) in *.
  assert (Htb : tag_boundaries_from 0 hs = Ok (boundaries_of 0 L, length L)).
  { rewrite tag_boundaries_from_spec. fold L.
    now rewrite (interval_well_formed_accepted L Hwf). }
  rewrite Htb. cbn [bind].
  set (S := sort_by_key nesting_order
              (boundaries_of 0 L ++ line_boundaries (length L) text)).
  assert (HS : S <> []).
  { intros HS. apply sort_by_key_nil, app_eq_nil in HS.
    destruct HS as [H1 H2]. destruct Hne as [Ht|HL].
    - now apply (line_boundaries_nonempty (length L) text).
    - destruct L as [|[[s e] c] L']; [congruence | discriminate]. }
  pose proof (refness_sorted_stream L text) as HR. fold S in HR.
  pose proof (sorted_stream_alternates text hs _ _ Htb Hwf) as Halt.
  fold L S in Halt.
  assert (Hrefs : opens_precede_closes (filter is_ref_tag S) = true).
  { apply alternates_opens_precede_closes. intros i.
    rewrite (proj1 (boundaries_of_object_by_refness _ S i HR)).
    destruct (interval_is_ref L i); [apply Halt | reflexivity]. }
  destruct (remove_overlapping_refs_nonempty_compress S HS Hrefs)
    as (sel & Hrm & Hf & Hseq).
  exists (compress S sel). split; [exact Hrm|]. split.
  - apply sorted_by_point_compress, sort_by_nesting_order_sorted_by_point.
  - assert (HR' : refness_by_oid (interval_is_ref L) (compress S sel)).
    { apply Forall_forall. intros t Ht. unfold refness_by_oid in HR.
      rewrite Forall_forall in HR. apply HR. eapply compress_In; eassumption. }
    apply alternates_opens_precede_closes. intros i. simpl oid_in.
    destruct (boundaries_of_object_by_refness _ _ i HR') as [H1 H2].
    destruct (interval_is_ref L i) eqn:Hi.
    + rewrite <- H1. apply (anchors_sequential_alternates _ None i Hseq).
    + rewrite <- H2, Hf.
      rewrite (proj2 (boundaries_of_object_by_refness _ S i HR)), Hi.
      apply Halt.
Qed.

Lemma build_lines_sorted_tag_stream (json_dumps : json -> string)
    (decoder : string -> string) (text : string) (hs : list htmlifier) :
  build_lines json_dumps decoder text hs =
  tags <- sorted_tag_stream text hs ;;
  balanced <- balanced_tags tags ;;
  Ok (html_lines json_dumps balanced (decoded_slice decoder text)).
Proof.
  unfold build_lines, sorted_tag_stream.
  now destruct (tag_boundaries_from 0 hs) as [[tags next]|e].
Qed.

(** X14.  When every plugin interval is well-formed ([0 <= start < end]) and
    there is any text or any interval, [build_lines] returns its lines: the
    sort, the anchor filter and the balancer raise nothing, the balancer
    hands on a well-nested stream, and the lines are what [html_lines] makes
    of it. *)
Theorem build_lines_returns (json_dumps : json -> string)
    (decoder : string -> string) (text : string) (hs : list htmlifier) :
  Forall (fun iv => interval_well_formed iv = true)
         (flat_map htmlifier_intervals hs) ->
  text <> EmptyString \/ flat_map htmlifier_intervals hs <> [] ->
  exists kept balanced,
    sorted_tag_stream text hs = Ok kept /\
    balanced_tags kept = Ok balanced /\
    Nest [] balanced [] /\
    build_lines json_dumps decoder text hs =
      Ok (html_lines json_dumps balanced (decoded_slice decoder text)).
Proof.
  intros Hwf Hne.
  destruct (sorted_tag_stream_meets_balancer text hs Hwf Hne)
    as (kept & Hk & Hs & Hp).
  destruct (balanced_tags_nest kept Hs Hp) as (balanced & Hb & Hn).
  exists kept, balanced. rewrite build_lines_sorted_tag_stream, Hk.
  cbn [bind]. rewrite Hb. cbn [bind]. auto.
Qed.

(** ** The renderer on small files *)

(** A region within one line: one line of HTML. *)
Example build_lines_single_line_region :
  build_lines dumps_null decode_ascii ("ab" ++ newline) [region_0_2] =
  Ok [ (span_k ++ "ab</span>")%string ].
Proof. reflexivity. Qed.

(** Of two overlapping anchors the first one stays. *)
Example build_lines_overlapping_anchors :
  build_lines dumps_null decode_ascii ("abcd" ++ newline) [overlapping_anchors] =
  Ok [ (anchor_null ++ "abc</a>d")%string ].
Proof. reflexivity. Qed.

(** A region over three lines that ends inside the third: the second line
    keeps its span open, the third closes it, and a fourth string follows. *)
Example build_lines_three_lines_region :
  build_lines dumps_null decode_ascii three_lines [region_0_8] =
  Ok [ (span_k ++ "ab</span>")%string; (span_k ++ "cd")%string;
       "ef</span>"%string; EmptyString ].
Proof. reflexivity. Qed.

(* ================================================================== *)
(** * Further properties of the build driver *)
(* ================================================================== *)

(** ** [_sliced_range_bounds] on any range *)

(** X1.  For any bounds [a <= b] and any slice size of at least 1 the loop of
    [_sliced_range_bounds] ends, and what it yields are consecutive inclusive
    ranges from [a] to [b] that cover exactly the integers from [a] to [b],
    are pairwise disjoint, and have [slice_size] elements each, except that
    the last may have fewer. *)
Theorem sliced_range_bounds_slices (a b slice_size : Z) :
  a <= b -> 1 <= slice_size ->
  exists (fuel0 : nat) (ranges : list (Z * Z)),
    (forall fuel, (fuel0 <= fuel)%nat ->
       _sliced_range_bounds fuel a b slice_size = Some (Ok ranges)) /\
    slices_of slice_size a b ranges /\
    (forall i, a <= i <= b <-> exists r, In r ranges /\ fst r <= i <= snd r) /\
    StronglySorted (fun r1 r2 => snd r1 < fst r2) ranges /\
    Forall (fun r => 1 <= snd r - fst r + 1 <= slice_size) ranges /\
    Forall (fun r => snd r - fst r + 1 = slice_size) (removelast ranges).
Proof.
  intros Hab Hs.
  set (top := Z.min b (a + slice_size - 1)).
  destruct (sliced_range_bounds_loop_rest a b slice_size ltac:(lia)
              (Z.to_nat (b - a)) (top + 1)) as [rs [Hrs Hok]];
    try (unfold top; lia).
  { unfold top. destruct (Z.min_spec b (a + slice_size - 1)) as [[? ->]|[? ->]];
      nia. }
  replace (top + 1 - 1) with top in Hrs by lia.
  set (ranges := (a, top) :: rs).
  assert (Hsl : slices_of slice_size a b ranges).
  { unfold ranges. cbn [slices_of]. unfold top in *.
    repeat split; try lia; [|assumption].
    intros Hne. destruct rs as [|[m M] rs']; [congruence|].
    cbn [slices_of] in Hok. lia. }
  exists (S (S (Z.to_nat (b - a)))), ranges. split; [|split; [exact Hsl|]].
  - intros fuel Hfuel. unfold _sliced_range_bounds.
    apply sliced_range_bounds_loop_fuel_le with (S (S (Z.to_nat (b - a))));
      [assumption|].
    rewrite sliced_range_bounds_loop_S, Z.eqb_refl. fold top. now rewrite Hrs.
  - split; [now apply (slices_of_cover slice_size ranges a b)|].
    split; [now apply (slices_of_disjoint slice_size ranges a b)|].
    now apply (slices_of_sizes slice_size ranges a b).
Qed.

Lemma sliced_range_bounds_slices_witness :
  exists (fuel0 : nat) (ranges : list (Z * Z)),
    (forall fuel, (fuel0 <= fuel)%nat ->
       _sliced_range_bounds fuel (-3) 7 4 = Some (Ok ranges)) /\
    slices_of 4 (-3) 7 ranges /\
    (forall i, -3 <= i <= 7 <-> exists r, In r ranges /\ fst r <= i <= snd r) /\
    StronglySorted (fun r1 r2 => snd r1 < fst r2) ranges /\
    Forall (fun r => 1 <= snd r - fst r + 1 <= 4) ranges /\
    Forall (fun r => snd r - fst r + 1 = 4) (removelast ranges).
Proof. apply (sliced_range_bounds_slices (-3) 7 4); lia. Defined.

Lemma sliced_range_bounds_loop_stuck (a s : Z) :
  0 <= s ->
  forall fuel this_max,
    sliced_range_bounds_loop fuel a (a - 1) s a this_max = None.
Proof.
  intros Hs. induction fuel as [|fuel IH]; intros this_max; [reflexivity|].
  rewrite sliced_range_bounds_loop_S, Z.eqb_refl.
  replace (Z.min (a - 1) (a + s - 1) + 1) with a by lia.
  now rewrite IH.
Qed.

(** X2.  On an empty range, [b < a], the generator does not yield nothing.
    If [b = a - 1] its loop never ends: each turn yields [(a, a - 1)] and
    leaves [this_min = a], which keeps the loop condition true.  If
    [b < a - 1] it yields the one inverted range [(a, b)] and stops. *)
Theorem sliced_range_bounds_empty_range (a b slice_size : Z) :
  b < a -> 0 <= slice_size ->
  (b = a - 1 ->
     forall fuel, _sliced_range_bounds fuel a b slice_size = None) /\
  (b < a - 1 ->
     forall fuel,
       _sliced_range_bounds (S (S fuel)) a b slice_size = Some (Ok [(a, b)])).
Proof.
  intros Hba Hs. split.
  - intros -> fuel. now apply sliced_range_bounds_loop_stuck.
  - intros Hlt fuel. unfold _sliced_range_bounds.
    rewrite sliced_range_bounds_loop_S, Z.eqb_refl.
    replace (Z.min b (a + slice_size - 1)) with b by lia.
    rewrite sliced_range_bounds_loop_S.
    destruct (Z.eqb_spec (b + 1) a); [lia|].
    now rewrite Z.ltb_irrefl.
Qed.

Lemma sliced_range_bounds_empty_range_witness :
  _sliced_range_bounds 1000 1 0 500 = None /\
  _sliced_range_bounds 2 1 (-4) 500 = Some (Ok [(1, -4)]).
Proof.
  split.
  - apply (sliced_range_bounds_empty_range 1 0 500); lia.
  - apply (proj2 (sliced_range_bounds_empty_range 1 (-4) 500 ltac:(lia) ltac:(lia)));
      lia.
Defined.

(** ** [_join_url] *)

Lemma str_join_nonempty (sep : string) (l : list string) :
  Forall (fun a => str_true a = true) l ->
  l <> [] -> str_true (str_join sep l) = true.
Proof.
  intros H Hne. destruct H as [|a l Ha Hl]; [congruence|].
  simpl. destruct a; [discriminate|]. now destruct l.
Qed.

Lemma str_join_app (sep : string) (l1 l2 : list string) :
  l1 <> [] -> l2 <> [] ->
  str_join sep (l1 ++ l2) =
  (str_join sep l1 ++ sep ++ str_join sep l2)%string.
Proof.
  intros H1 H2. induction l1 as [|a l1 IH]; [congruence|].
  destruct l1 as [|a' l1].
  - simpl. destruct l2; [congruence | reflexivity].
  - change (str_join sep ((a :: a' :: l1) ++ l2))
      with (a ++ sep ++ str_join sep ((a' :: l1) ++ l2))%string.
    rewrite IH by discriminate.
    change (str_join sep (a :: a' :: l1))
      with (a ++ sep ++ str_join sep (a' :: l1))%string.
    now rewrite !append_assoc.
Qed.

Lemma filter_str_true (l : list string) :
  Forall (fun a => str_true a = true) (filter str_true l).
Proof.
  apply Forall_forall. intros a Ha. now apply filter_In in Ha.
Qed.

Lemma join_url_pair (j1 j2 : string) :
  _join_url [j1; j2] =
  if str_true j1
  then (if str_true j2 then (j1 ++ "/" ++ j2)%string else j1)
  else j2.
Proof. destruct j1, j2; reflexivity. Qed.

(** X3.  URLs can be put together piece by piece: joining two joined URLs is
    joining all their segments at once, whichever of them are empty; and a
    joined URL is empty only if every segment is. *)
Theorem join_url_compose (l1 l2 : list string) :
  _join_url [_join_url l1; _join_url l2] = _join_url (l1 ++ l2) /\
  (_join_url l1 = EmptyString <-> Forall (fun a => a = EmptyString) l1).
Proof.
  assert (Hempty : forall l,
             str_join "/" (filter str_true l) = EmptyString <->
             filter str_true l = []).
  { intros l. split; [|now intros ->].
    intros H. destruct (filter str_true l) as [|a f] eqn:Hf; [reflexivity|].
    pose proof (str_join_nonempty "/" (a :: f)) as Hn.
    rewrite <- Hf in Hn at 1. rewrite Hf in Hn.
    rewrite H in Hn. discriminate Hn; [|discriminate].
    rewrite <- Hf. apply filter_str_true. }
  split.
  - rewrite join_url_pair. unfold _join_url. rewrite filter_app.
    pose proof (filter_str_true l1) as Hf1.
    pose proof (filter_str_true l2) as Hf2.
    destruct (filter str_true l1) as [|a1 f1] eqn:E1;
      destruct (filter str_true l2) as [|a2 f2] eqn:E2.
    + reflexivity.
    + now rewrite (str_join_nonempty "/" _ Hf2 ltac:(discriminate)).
    + rewrite (str_join_nonempty "/" _ Hf1 ltac:(discriminate)).
      now rewrite app_nil_r.
    + rewrite (str_join_nonempty "/" _ Hf1 ltac:(discriminate)).
      rewrite (str_join_nonempty "/" _ Hf2 ltac:(discriminate)).
      now rewrite (str_join_app "/" (a1 :: f1) (a2 :: f2)) by discriminate.
  - unfold _join_url. rewrite Hempty. clear. induction l1 as [|a l IH]; simpl.
    + split; [constructor | reflexivity].
    + destruct a; simpl.
      * rewrite IH. split; [now constructor | now inversion 1].
      * split; [discriminate | inversion 1; discriminate].
Qed.

Example join_url_folder :
  _join_url ["code"; "source"; ""; "README"]%string = "code/source/README"%string.
Proof. reflexivity. Qed.

(** ** [finalize_database] *)

Lemma integrity_loop_failed (rows : list string) :
  integrity_loop (Some false) rows =
  (Some false, map (fun row => ("  | " ++ row)%string) rows).
Proof.
  induction rows as [|row rows IH]; [reflexivity|].
  cbn [integrity_loop]. rewrite andb_false_r, IH. reflexivity.
Qed.

Lemma integrity_loop_passed (rows : list string) :
  rows <> [] ->
  integrity_loop (Some true) rows =
  (Some false,
   "Database integerity check failed"%string ::
   map (fun row => ("  | " ++ row)%string) rows).
Proof.
  destruct rows as [|row rows]; [congruence|]. intros _.
  cbn [integrity_loop]. rewrite andb_false_r, integrity_loop_failed.
  reflexivity.
Qed.

(** X4.  [finalize_database] lets the build go on only if the integrity check
    returns the single row [ok].  With no row at all it exits with status 1
    and prints nothing; with anything else it exits with status 1 after
    printing the complaint once and then every row that is not the leading
    [ok], a second [ok] included. *)
Theorem finalize_database_verdict (rows : list string) :
  (snd (finalize_database rows) = Returned <-> rows = ["ok"%string]) /\
  (snd (finalize_database rows) = Returned \/
   snd (finalize_database rows) = Exited 1) /\
  fst (finalize_database rows) =
    match rows with
    | [] => []
    | first :: rest =>
        let reported := if String.eqb first "ok" then rest else rows in
        match reported with
        | [] => []
        | _ => "Database integerity check failed"%string ::
               map (fun row => ("  | " ++ row)%string) reported
        end
    end.
Proof.
  unfold finalize_database. destruct rows as [|first rest].
  - simpl. repeat split; try discriminate; auto.
  - cbn [integrity_loop]. destruct (String.eqb_spec first "ok") as [->|Hne].
    + cbn [andb]. destruct rest as [|r rest].
      * simpl. repeat split; auto.
      * rewrite integrity_loop_passed by discriminate. cbn [fst snd].
        repeat split; try discriminate; auto.
    + cbn [andb]. rewrite integrity_loop_failed. cbn [fst snd app].
      repeat split; try discriminate; auto.
      intros H. injection H as -> _. congruence.
Qed.

(** ** [linked_pathname] *)

Lemma split_from_free (sep : ascii) (d : string) :
  sep = slash -> slash_free d = true ->
  forall cur rest,
    split_from sep cur (d ++ rest) = split_from sep (cur ++ d) rest.
Proof.
  intros -> . induction d as [|c d IH]; intros Hd cur rest; simpl in *.
  - now rewrite append_nil_r.
  - apply andb_true_iff in Hd. destruct Hd as [Hc Hd].
    apply negb_true_iff in Hc. rewrite Hc, IH by assumption.
    now rewrite append_assoc.
Qed.

Lemma str_split_join (dirs : list string) :
  dirs <> [] ->
  Forall (fun d => slash_free d = true) dirs ->
  str_split (str_join "/" dirs) slash = dirs.
Proof.
  intros Hne Hall. unfold str_split.
  induction Hall as [|d dirs Hd Hall IH]; [congruence|].
  destruct dirs as [|d' dirs].
  - simpl. rewrite <- (append_nil_r d) at 1.
    now rewrite split_from_free.
  - change (str_join "/" (d :: d' :: dirs))
      with (d ++ String slash (str_join "/" (d' :: dirs)))%string.
    rewrite split_from_free by auto.
    change (split_from slash (EmptyString ++ d)
              (String slash (str_join "/" (d' :: dirs))))
      with (if Ascii.eqb slash slash
            then d :: split_from slash EmptyString (str_join "/" (d' :: dirs))
            else split_from slash (d ++ String slash EmptyString)
                   (str_join "/" (d' :: dirs))).
    rewrite (Ascii.eqb_refl slash). rewrite IH by discriminate. reflexivity.
Qed.

Lemma tail_from_free (d : string) :
  slash_free d = true -> forall cur, tail_from cur d = (cur ++ d)%string.
Proof.
  induction d as [|c d IH]; intros Hd cur; simpl in *.
  - now rewrite append_nil_r.
  - apply andb_true_iff in Hd. destruct Hd as [Hc Hd].
    apply negb_true_iff in Hc. rewrite Hc, IH by assumption.
    now rewrite append_assoc.
Qed.

Lemma tail_from_slash (x d : string) :
  slash_free d = true ->
  forall cur, tail_from cur (x ++ String slash d) = d.
Proof.
  intros Hd. induction x as [|c x IH]; intros cur; simpl.
  - now rewrite tail_from_free.
  - destruct (Ascii.eqb c slash); apply IH.
Qed.

Lemma ends_with_slash_append (x d : string) :
  str_true d = true -> ends_with_slash (x ++ d) = ends_with_slash d.
Proof.
  intros Hd. induction x as [|c x IH]; [reflexivity|].
  simpl. destruct (x ++ d)%string eqn:E.
  - destruct x, d; discriminate.
  - exact IH.
Qed.

Lemma plain_name_ends (d : string) :
  plain_name d = true -> ends_with_slash d = false.
Proof.
  unfold plain_name. intros H. apply andb_true_iff in H. destruct H as [_ H].
  induction d as [|c d IH]; [reflexivity|].
  simpl in *. apply andb_true_iff in H. destruct H as [Hc Hd].
  apply negb_true_iff in Hc. destruct d; [assumption | now apply IH].
Qed.

Lemma plain_name_starts (d : string) :
  plain_name d = true -> starts_with_slash d = false.
Proof.
  unfold plain_name. destruct d as [|c d]; [discriminate|]. simpl.
  intros H. apply andb_true_iff in H. destruct H as [Hc _].
  now apply negb_true_iff in Hc.
Qed.

Lemma path_join_plain (b d : string) :
  str_true b = true -> ends_with_slash b = false -> plain_name d = true ->
  path_join b d = (b ++ String slash d)%string /\
  str_true (b ++ String slash d) = true /\
  ends_with_slash (b ++ String slash d) = false.
Proof.
  intros Hb He Hd. unfold path_join.
  rewrite (plain_name_starts d Hd), He.
  destruct b as [|c b]; [discriminate|]. split; [reflexivity|].
  split; [reflexivity|].
  rewrite ends_with_slash_append by reflexivity.
  pose proof (plain_name_ends d Hd) as Hde.
  unfold plain_name in Hd. apply andb_true_iff in Hd. destruct Hd as [Hd _].
  change (String slash d) with (String slash EmptyString ++ d)%string.
  now rewrite ends_with_slash_append.
Qed.

Lemma posix_join_plain (ds : list string) :
  Forall (fun d => plain_name d = true) ds ->
  ds <> [] ->
  forall b,
    str_true b = true -> ends_with_slash b = false ->
    posix_join b ds = (b ++ String slash (str_join "/" ds))%string.
Proof.
  unfold posix_join.
  induction 1 as [|d ds Hd Hds IH]; intros Hne b Hb He; [congruence|].
  destruct (path_join_plain b d Hb He Hd) as (Hj & Hb' & He').
  cbn [fold_left]. rewrite Hj. destruct ds as [|d' ds]; [reflexivity|].
  rewrite IH by (assumption || discriminate).
  change (str_join "/" (d :: d' :: ds))
    with (d ++ String slash (str_join "/" (d' :: ds)))%string.
  rewrite append_assoc. reflexivity.
Qed.

Lemma Forall_firstn_keep {A : Type} (P : A -> Prop) (l : list A) :
  Forall P l -> forall n, Forall P (firstn n l).
Proof.
  induction 1 as [|a l Ha _ IH]; intros [|n]; simpl; constructor; auto.
Qed.

Lemma firstn_S_nth {A : Type} (d : A) (l : list A) (k : nat) :
  (k < length l)%nat -> firstn (S k) l = firstn k l ++ [nth k l d].
Proof.
  revert k. induction l as [|a l IH]; intros k Hk; simpl in Hk; [lia|].
  destruct k; [reflexivity|]. cbn [firstn nth app]. f_equal. apply IH. lia.
Qed.

Lemma str_join_snoc (l : list string) (d : string) :
  exists x, (x ++ String slash d)%string =
            (String slash (str_join "/" (l ++ [d])))%string.
Proof.
  destruct l as [|a l].
  - now exists EmptyString.
  - exists (String slash (str_join "/" (a :: l))).
    rewrite str_join_app by discriminate. reflexivity.
Qed.

(** X5.  For a path made of plain folder names joined by slashes and a plain
    tree name, [linked_pathname] gives the root of the tree followed by one
    entry for each folder on the path, in order: its URL is the root's with
    the names up to and including the folder added, and its label is the
    folder's own name. *)
Theorem linked_pathname_breadcrumbs (tree_name : string) (dirs : list string) :
  plain_name tree_name = true ->
  dirs <> [] ->
  Forall (fun d => plain_name d = true) dirs ->
  linked_pathname (str_join "/" dirs) tree_name =
  (("/" ++ tree_name ++ "/source")%string, tree_name) ::
  map (fun k =>
         (("/" ++ tree_name ++ "/source/" ++ str_join "/" (firstn (S k) dirs))%string,
          nth k dirs EmptyString))
      (seq 0 (length dirs)).
Proof.
  intros Ht Hne Hall. unfold linked_pathname.
  assert (Hfree : Forall (fun d => slash_free d = true) dirs).
  { eapply Forall_impl; [|exact Hall]. unfold plain_name. intros d H.
    now apply andb_true_iff in H. }
  assert (Htrue : Forall (fun d => str_true d = true) dirs).
  { eapply Forall_impl; [|exact Hall]. unfold plain_name. intros d H.
    now apply andb_true_iff in H. }
  rewrite (str_join_nonempty "/" dirs Htrue Hne), (str_split_join dirs Hne Hfree).
  cbn [negb app]. f_equal. rewrite <- seq_shift, map_map.
  apply map_ext_in. intros k Hk. apply in_seq in Hk.
  assert (Hfirst : Forall (fun d => plain_name d = true) (firstn (S k) dirs))
    by now apply Forall_firstn_keep.
  assert (Hbase : posix_join "/" [tree_name; "source"%string] =
                  ("/" ++ tree_name ++ "/source")%string).
  { unfold posix_join. cbn [fold_left].
    assert (H1 : path_join "/" tree_name = ("/" ++ tree_name)%string).
    { unfold path_join. now rewrite (plain_name_starts _ Ht). }
    rewrite H1.
    destruct (path_join_plain ("/" ++ tree_name) "source") as (-> & _ & _);
      try reflexivity.
    change ("/" ++ tree_name)%string
      with (String slash EmptyString ++ tree_name)%string.
    unfold plain_name in Ht. apply andb_true_iff in Ht.
    rewrite ends_with_slash_append by tauto.
    apply plain_name_ends. unfold plain_name. now apply andb_true_iff. }
  assert (Hpath : posix_join "/" (tree_name :: "source"%string :: firstn (S k) dirs) =
                  ("/" ++ tree_name ++ "/source/" ++
                   str_join "/" (firstn (S k) dirs))%string).
  { change (posix_join "/" (tree_name :: "source"%string :: firstn (S k) dirs))
      with (posix_join (posix_join "/" [tree_name; "source"%string])
                       (firstn (S k) dirs)).
    rewrite Hbase, posix_join_plain; try assumption.
    - now rewrite !append_assoc.
    - destruct dirs; [congruence | discriminate].
    - reflexivity.
    - change ("/" ++ tree_name ++ "/source")%string
        with (("/" ++ tree_name) ++ "/source")%string.
      rewrite ends_with_slash_append; reflexivity. }
  cbv zeta. rewrite Hpath. f_equal.
  rewrite (firstn_S_nth EmptyString) by lia.
  destruct (str_join_snoc (firstn k dirs) (nth k dirs EmptyString)) as [x Hx].
  assert (Hnth : plain_name (nth k dirs EmptyString) = true).
  { rewrite Forall_forall in Hall. apply Hall, nth_In. lia. }
  unfold plain_name in Hnth. apply andb_true_iff in Hnth.
  destruct Hnth as [Hn1 Hn2].
  replace ("/" ++ tree_name ++ "/source/" ++
           str_join "/" (firstn k dirs ++ [nth k dirs EmptyString]))%string
    with (("/" ++ tree_name ++ "/source") ++
          String slash (str_join "/" (firstn k dirs ++ [nth k dirs EmptyString])))%string
    by (now rewrite !append_assoc).
  rewrite <- Hx, <- append_assoc. unfold path_split_tail.
  rewrite tail_from_slash by assumption. now rewrite Hn1.
Qed.

Lemma linked_pathname_breadcrumbs_witness :
  linked_pathname "lib/util/io.c" "code" =
  [ ("/code/source", "code"); ("/code/source/lib", "lib");
    ("/code/source/lib/util", "util");
    ("/code/source/lib/util/io.c", "io.c") ]%string.
Proof.
  apply (linked_pathname_breadcrumbs "code" ["lib"; "util"; "io.c"]%string);
    [reflexivity | discriminate | repeat constructor].
Defined.

(** ** What [html_lines] renders *)

Lemma html_lines_step_join (json_dumps : json -> string)
    (slicer : Z -> Z -> string) (st : render_state)
    (point : Z) (is_start : bool) (p : payload) :
  up_to (snd (html_lines_step json_dumps slicer st (point, is_start, p))) = point /\
  (join (fst (html_lines_step json_dumps slicer st (point, is_start, p))) ++
   join (segments (snd (html_lines_step json_dumps slicer st (point, is_start, p)))))%string =
  (join (segments st) ++
   join [ escape false (strip_crlf (slicer (up_to st) point));
          if isinstance_Line p then EmptyString
          else if is_start then opener json_dumps p else closer p ])%string.
Proof.
  unfold html_lines_step.
  set (seg := escape false (strip_crlf (slicer (up_to st) point))).
  destruct (line_ends_at st) as [l|];
    [destruct (is_start || (l <? point));
     [destruct (segments st ++ [seg]) as [|s0 ss] eqn:Hseg;
      [destruct (segments st); discriminate|]|]|];
    destruct (isinstance_Line p); cbn [fst snd up_to segments];
    (split; [reflexivity|]);
    try rewrite <- Hseg;
    rewrite ?join_app; simpl; rewrite ?append_nil_r, ?append_assoc; reflexivity.
Qed.

Lemma html_lines_from_join (json_dumps : json -> string)
    (slicer : Z -> Z -> string) (tags : list tag) :
  forall st,
    join (html_lines_from json_dumps slicer st tags) =
    (join (segments st) ++
     join (rendering json_dumps slicer (up_to st) tags))%string.
Proof.
  induction tags as [|[[point is_start] p] tags IH]; intros st.
  - cbn [html_lines_from rendering].
    destruct (segments st) as [|s ss]; [reflexivity|].
    change (join [join (s :: ss)]) with (join (s :: ss) ++ EmptyString)%string.
    reflexivity.
  - cbn [html_lines_from rendering].
    destruct (html_lines_step_join json_dumps slicer st point is_start p)
      as [Hup Hj].
    destruct (html_lines_step json_dumps slicer st (point, is_start, p))
      as [yielded st'].
    cbn [fst snd] in Hup, Hj. rewrite join_app, IH, Hup.
    rewrite <- append_assoc, Hj. cbn [join].
    now rewrite append_nil_r, !append_assoc.
Qed.

(** X6.  Cutting into lines loses nothing and adds nothing: the lines
    [html_lines] yields, put together, are exactly the pieces it renders, in
    order, whatever the stream; for every boundary the escaped slice of text
    before it and then its markup. *)
Theorem html_lines_keeps_rendering (json_dumps : json -> string)
    (tags : list tag) (slicer : Z -> Z -> string) :
  join (html_lines json_dumps tags slicer) =
  join (rendering json_dumps slicer 0 tags).
Proof. unfold html_lines. now rewrite html_lines_from_join. Qed.

Lemma count_char_append (c : ascii) (a b : string) :
  count_char c (a ++ b) = (count_char c a + count_char c b)%nat.
Proof. induction a; simpl; [reflexivity|]. rewrite IHa. lia. Qed.

Lemma count_char_escape (quote : bool) (s : string) :
  count_char "<" (escape quote s) = O /\ count_char ">" (escape quote s) = O.
Proof.
  induction s as [|a s [IH1 IH2]]; [split; reflexivity|].
  cbn [escape]. rewrite !count_char_append, IH1, IH2. unfold escape_char.
  destruct (Ascii.eqb_spec a "&"); [split; reflexivity|].
  destruct (Ascii.eqb_spec a "<") as [->|Hlt]; [split; reflexivity|].
  destruct (Ascii.eqb_spec a ">") as [->|Hgt]; [split; reflexivity|].
  destruct (quote && Ascii.eqb a "034"); [split; reflexivity|].
  cbn [count_char]. apply Ascii.eqb_neq in Hlt, Hgt. now rewrite Hlt, Hgt.
Qed.

Lemma count_char_markup (json_dumps : json -> string) (is_start : bool)
    (p : payload) :
  isinstance_Line p = false ->
  count_char "<" (if is_start then opener json_dumps p else closer p) = 1%nat /\
  count_char ">" (if is_start then opener json_dumps p else closer p) = 1%nat.
Proof.
  unfold isinstance_Line, opener, closer. destruct (cls p) as [|c|m];
    [discriminate| |]; intros _; destruct is_start; try (split; reflexivity);
    rewrite !count_char_append;
    [destruct (count_char_escape true c) as [-> ->]
    |destruct (count_char_escape true (json_dumps m)) as [-> ->]];
    split; reflexivity.
Qed.

Lemma count_char_rendering (json_dumps : json -> string)
    (slicer : Z -> Z -> string) (tags : list tag) :
  forall up_to,
    count_char "<" (join (rendering json_dumps slicer up_to tags)) =
      length (filter (fun t => negb (is_line_tag t)) tags) /\
    count_char ">" (join (rendering json_dumps slicer up_to tags)) =
      length (filter (fun t => negb (is_line_tag t)) tags).
Proof.
  induction tags as [|[[point is_start] p] tags IH]; intros up_to;
    [split; reflexivity|].
  cbn [rendering join filter]. rewrite !count_char_append.
  destruct (IH point) as [-> ->].
  destruct (count_char_escape false (strip_crlf (slicer up_to point)))
    as [-> ->].
  unfold is_line_tag, payload_of. cbn [snd].
  destruct (isinstance_Line p) eqn:Hl; cbn [negb].
  - split; reflexivity.
  - destruct (count_char_markup json_dumps is_start p Hl) as [-> ->].
    split; reflexivity.
Qed.

(** X7.  Whatever the text, the class names and the menus contain, and
    however [json.dumps] writes a menu, the output of [html_lines] holds
    exactly one [<] and one [>] for each Region or Ref boundary of the
    stream: text and attribute values never open or close a tag. *)
Theorem html_lines_angle_brackets (json_dumps : json -> string)
    (tags : list tag) (slicer : Z -> Z -> string) :
  count_char "<" (join (html_lines json_dumps tags slicer)) =
    length (filter (fun t => negb (is_line_tag t)) tags) /\
  count_char ">" (join (html_lines json_dumps tags slicer)) =
    length (filter (fun t => negb (is_line_tag t)) tags).
Proof.
  unfold html_lines. rewrite html_lines_from_join. cbn [segments append join].
  apply count_char_rendering.
Qed.

(** ** Files that no plugin decorates *)

Lemma non_overlapping_refs_from_no_refs (tags : list tag) :
  Forall (fun t => is_ref_tag t = false) tags ->
  forall blacklist open_ref,
    non_overlapping_refs_from blacklist open_ref tags =
    Ok (map (fun _ => true) tags).
Proof.
  induction 1 as [|[[x st] p] tags Hr _ IH]; intros bl o; [reflexivity|].
  cbn [non_overlapping_refs_from non_overlapping_step map].
  rewrite is_ref_tag_eq in Hr. rewrite Hr. cbn [bind]. now rewrite IH.
Qed.

Lemma compress_all_true {A : Type} (l : list A) :
  compress l (map (fun _ => true) l) = l.
Proof. induction l; simpl; congruence. Qed.

Lemma remove_overlapping_refs_no_refs (tags : list tag) :
  tags <> [] ->
  Forall (fun t => is_ref_tag t = false) tags ->
  remove_overlapping_refs tags = Ok tags.
Proof.
  intros Hne Hr. rewrite remove_overlapping_refs_compress.
  unfold non_overlapping_refs.
  rewrite (non_overlapping_refs_from_no_refs tags Hr). cbn [bind].
  rewrite compress_all_true. destruct tags; congruence.
Qed.

Lemma balanced_tags_with_empties_lines (m : payload) (lines : list string) :
  forall up_to,
    balanced_tags_with_empties_from [] [] (line_boundaries_from m up_to lines) =
    Ok (line_boundaries_from m up_to lines).
Proof.
  induction lines as [|l lines IH]; intros up_to; [reflexivity|].
  cbn [line_boundaries_from balanced_tags_with_empties_from
       close_intermediates].
  unfold is_. rewrite Nat.eqb_refl.
  cbn [bind tl reopen_intermediates app]. rewrite IH. reflexivity.
Qed.

Lemma without_empty_tags_lines (m : payload) (lines : list string) :
  Forall (fun l => l <> EmptyString) lines ->
  forall up_to,
    without_empty_tags_from [] 0 (line_boundaries_from m up_to lines) =
    Ok (line_boundaries_from m up_to lines).
Proof.
  induction 1 as [|l lines Hl _ IH]; intros up_to; [reflexivity|].
  apply len_pos in Hl.
  cbn [line_boundaries_from without_empty_tags_from].
  unfold is_. rewrite Nat.eqb_refl.
  replace (up_to =? up_to + len l) with false by (symmetry; apply Z.eqb_neq; lia).
  cbn [andb]. change (0 + 1 - 1 =? 0) with true. cbv iota.
  change (0 + 1 - 1) with 0. rewrite IH. reflexivity.
Qed.

Lemma substring_middle (pre l post : string) :
  substring (String.length pre) (String.length l) (pre ++ l ++ post) = l.
Proof.
  induction pre as [|c pre IH]; [|exact IH].
  induction l as [|c l IHl]; simpl.
  - now destruct post.
  - simpl in IHl. now rewrite IHl.
Qed.

Lemma py_slice_middle (pre l post : string) :
  py_slice (pre ++ l ++ post) (len pre) (len pre + len l) = l.
Proof.
  unfold py_slice, slice_index. rewrite !len_append.
  pose proof (len_nonneg pre). pose proof (len_nonneg l).
  pose proof (len_nonneg post).
  replace (len pre <? 0) with false by (symmetry; apply Z.ltb_ge; lia).
  replace (len pre + len l <? 0) with false by (symmetry; apply Z.ltb_ge; lia).
  rewrite !Z.min_l by lia.
  destruct (Z.ltb_spec (len pre) (len pre + len l)) as [Hlt|Hge].
  - replace (len pre + len l - len pre) with (len l) by lia.
    unfold len. rewrite !Nat2Z.id. apply substring_middle.
  - destruct l; [reflexivity|]. unfold len in Hge. simpl String.length in Hge. lia.
Qed.

Lemma py_slice_empty (s : string) (a : Z) : py_slice s a a = EmptyString.
Proof. unfold py_slice. now rewrite Z.ltb_irrefl. Qed.

Section PlainText.
Variable json_dumps : json -> string.
Variable slicer : Z -> Z -> string.
Variable m : payload.
Hypothesis m_line : isinstance_Line m = true.

Lemma html_lines_step_line_open_pending (up e point : Z) (segs : list string) :
  html_lines_step json_dumps slicer (mkRender up segs (Some e))
                  (point, true, m) =
  ([join (segs ++ [escape false (strip_crlf (slicer up point))])],
   mkRender point [] None).
Proof.
  unfold html_lines_step. cbn [line_ends_at up_to segments orb].
  rewrite m_line.
  now destruct (segs ++ [escape false (strip_crlf (slicer up point))])
    eqn:Hseg; [destruct segs; discriminate|].
Qed.

Lemma html_lines_step_line_open (up point : Z) (segs : list string) :
  html_lines_step json_dumps slicer (mkRender up segs None)
                  (point, true, m) =
  ([], mkRender point
         (segs ++ [escape false (strip_crlf (slicer up point))]) None).
Proof.
  unfold html_lines_step. cbn [line_ends_at up_to segments]. now rewrite m_line.
Qed.

Lemma html_lines_step_line_close (up point : Z) (segs : list string) :
  html_lines_step json_dumps slicer (mkRender up segs None)
                  (point, false, m) =
  ([], mkRender point
         (segs ++ [escape false (strip_crlf (slicer up point))])
         (Some point)).
Proof.
  unfold html_lines_step. cbn [line_ends_at up_to segments]. now rewrite m_line.
Qed.
End PlainText.

Lemma decoded_slice_eq (decoder : string -> string) (text : string)
    (start stop : Z) :
  decoded_slice decoder text start stop = decoder (py_slice text start stop).
Proof. reflexivity. Qed.

Lemma html_lines_from_cons (json_dumps : json -> string)
    (slicer : Z -> Z -> string) (st : render_state) (t : tag)
    (rest : list tag) :
  html_lines_from json_dumps slicer st (t :: rest) =
  fst (html_lines_step json_dumps slicer st t) ++
  html_lines_from json_dumps slicer
    (snd (html_lines_step json_dumps slicer st t)) rest.
Proof.
  cbn [html_lines_from]. now destruct (html_lines_step json_dumps slicer st t).
Qed.

Lemma html_lines_from_lines_pending (json_dumps : json -> string)
    (decoder : string -> string) (text : string) (m : payload) :
  decoder EmptyString = EmptyString ->
  isinstance_Line m = true ->
  forall (lines : list string) (pre : string) (segs : list string),
    text = (pre ++ join lines)%string ->
    segs <> [] ->
    html_lines_from json_dumps (decoded_slice decoder text)
      (mkRender (len pre) segs (Some (len pre)))
      (line_boundaries_from m (len pre) lines) =
    join segs :: map (plain_line decoder) lines.
Proof.
  intros Hd Hm. induction lines as [|l lines IH]; intros pre segs Ht Hs.
  - simpl. destruct segs; [congruence | reflexivity].
  - cbn [line_boundaries_from].
    rewrite html_lines_from_cons, html_lines_step_line_open_pending by exact Hm.
    cbn [fst snd].
    rewrite html_lines_from_cons, html_lines_step_line_close by exact Hm.
    cbn [fst snd app]. rewrite !decoded_slice_eq, py_slice_empty, Hd.
    change (escape false (strip_crlf EmptyString)) with EmptyString.
    assert (Hsl : py_slice text (len pre) (len pre + len l) = l).
    { rewrite Ht. cbn [join]. apply py_slice_middle. }
    rewrite Hsl. rewrite join_app. cbn [join]. rewrite !append_nil_r.
    cbn [map]. f_equal.
    rewrite <- len_append.
    change (escape false (strip_crlf (decoder l))) with (plain_line decoder l).
    rewrite (IH (pre ++ l)%string [plain_line decoder l]).
    + cbn [join]. now rewrite append_nil_r.
    + rewrite Ht. cbn [join]. now rewrite append_assoc.
    + discriminate.
Qed.

Lemma html_lines_lines (json_dumps : json -> string)
    (decoder : string -> string) (text : string) (m : payload)
    (lines : list string) :
  decoder EmptyString = EmptyString ->
  isinstance_Line m = true ->
  text = join lines ->
  html_lines json_dumps (line_boundaries_from m 0 lines)
             (decoded_slice decoder text) =
  map (plain_line decoder) lines.
Proof.
  intros Hd Hm Ht. unfold html_lines.
  destruct lines as [|l lines]; [reflexivity|].
  cbn [line_boundaries_from].
  rewrite html_lines_from_cons, html_lines_step_line_open by exact Hm.
  cbn [fst snd].
  rewrite html_lines_from_cons, html_lines_step_line_close by exact Hm.
  cbn [fst snd app]. rewrite !decoded_slice_eq, py_slice_empty, Hd.
  change (escape false (strip_crlf EmptyString)) with EmptyString.
  assert (Hsl : py_slice text 0 (0 + len l) = l).
  { rewrite Ht. cbn [join].
    exact (py_slice_middle EmptyString l (join lines)). }
  rewrite Hsl. change (0 + len l) with (len (EmptyString ++ l)).
  change (escape false (strip_crlf (decoder l))) with (plain_line decoder l).
  rewrite (html_lines_from_lines_pending json_dumps decoder text m Hd Hm
             lines (EmptyString ++ l)%string).
  - cbn [join map]. now rewrite append_nil_r.
  - exact Ht.
  - discriminate.
Qed.

(** X8.  A non-empty file that no plugin decorates comes out line for line:
    [build_lines] raises nothing and yields, for each line of the text split
    keeping terminators, that line decoded, trimmed of its terminator and
    HTML-escaped, and nothing else.  (The decoder maps the empty byte string
    to the empty string.) *)
Theorem build_lines_plain_text (json_dumps : json -> string)
    (decoder : string -> string) (text : string) :
  decoder EmptyString = EmptyString ->
  text <> EmptyString ->
  build_lines json_dumps decoder text [] =
  Ok (map (plain_line decoder) (splitlines_keepends text)).
Proof.
  intros Hd Hne. unfold build_lines.
  cbn [tag_boundaries_from bind app]. unfold line_boundaries.
  pose proof (splitlines_from_nonempty text EmptyString) as Hl.
  pose proof (splitlines_from_join text EmptyString) as Hj.
  fold (splitlines_keepends text) in Hl, Hj. cbn [append] in Hj.
  set (lines := splitlines_keepends text) in *.
  set (m := mkPayload 0 Line).
  rewrite (sort_by_key_id nesting_order)
    by (apply line_boundaries_from_sorted; exact Hl).
  rewrite remove_overlapping_refs_no_refs.
  - cbn [bind]. unfold balanced_tags, balanced_tags_with_empties,
      without_empty_tags.
    rewrite balanced_tags_with_empties_lines. cbn [bind].
    rewrite (without_empty_tags_lines m lines Hl). cbn [bind].
    f_equal. apply html_lines_lines; [exact Hd | reflexivity | now symmetry].
  - destruct lines; [simpl in Hj; congruence | discriminate].
  - eapply Forall_impl; [|apply line_boundaries_from_payload].
    intros t Ht. unfold is_ref_tag. now rewrite Ht.
Qed.

Lemma build_lines_plain_text_witness :
  build_lines dumps_null decode_ascii two_lines [] =
  Ok (map (plain_line decode_ascii) (splitlines_keepends two_lines)).
Proof.
  apply (build_lines_plain_text dumps_null decode_ascii two_lines);
    [reflexivity | discriminate].
Defined.

(** ** The balancer keeps what the stream says *)

Lemma net_open_app (i : nat) (x : Z) (l1 l2 : list tag) :
  net_open i x (l1 ++ l2) = net_open i x l1 + net_open i x l2.
Proof.
  induction l1 as [|[[y st] p] l1 IH]; simpl; [reflexivity|]. rewrite IH. lia.
Qed.

Lemma net_open_rev (i : nat) (x : Z) (l : list tag) :
  net_open i x (rev l) = net_open i x l.
Proof.
  induction l as [|[[y st] p] l IH]; simpl; [reflexivity|].
  rewrite net_open_app, IH. simpl. lia.
Qed.

Lemma net_open_reopened (i : nat) (x y : Z) (qs : list payload) :
  net_open i x (map (fun q => (y, false, q)) qs) +
  net_open i x (map (fun q => (y, true, q)) (rev qs)) = 0.
Proof.
  rewrite <- (net_open_rev i x (map _ (rev qs))), <- map_rev, rev_involutive.
  induction qs as [|q qs IH]; simpl; [reflexivity|].
  destruct (Nat.eqb (oid q) i && (y <=? x)); lia.
Qed.

Lemma close_intermediates_out (y : Z) (p : payload) :
  forall opens closes out opens1 closes1,
    close_intermediates y p opens closes = Ok (out, opens1, closes1) ->
    exists qs,
      out = map (fun q => (y, false, q)) qs /\ closes1 = rev qs ++ closes.
Proof.
  induction opens as [|q opens IH]; intros closes out opens1 closes1 H;
    simpl in H; [discriminate|].
  destruct (is_ q p).
  - injection H as <- _ <-. now exists [].
  - destruct (close_intermediates y p opens (q :: closes))
      as [[[out' opens'] closes']|] eqn:Hc; simpl in H; [|discriminate].
    injection H as <- _ <-.
    destruct (IH _ _ _ _ Hc) as [qs [-> ->]].
    exists (q :: qs). simpl. now rewrite <- app_assoc.
Qed.

Lemma balanced_tags_with_empties_from_net (i : nat) (x : Z) :
  forall tags opens e,
    balanced_tags_with_empties_from opens [] tags = Ok e ->
    net_open i x e = net_open i x tags.
Proof.
  induction tags as [|[[y st] p] tags IH]; intros opens e H; simpl in H.
  - now injection H as <-.
  - destruct st.
    + destruct (balanced_tags_with_empties_from (p :: opens) [] tags)
        as [e'|] eqn:He; simpl in H; [|discriminate].
      injection H as <-. simpl. now rewrite (IH _ _ He).
    + destruct (close_intermediates y p opens [])
        as [[[out1 opens1] closes1]|] eqn:Hc; simpl in H; [|discriminate].
      destruct (close_intermediates_out _ _ _ _ _ _ _ Hc) as [qs [-> ->]].
      rewrite reopen_intermediates_spec in H. rewrite app_nil_r in H.
      destruct (balanced_tags_with_empties_from
                  (rev (rev qs) ++ tl opens1) [] tags)
        as [e'|] eqn:He; simpl in H; [|discriminate].
      injection H as <-.
      rewrite net_open_app. cbn [net_open]. rewrite net_open_app.
      rewrite (IH _ _ He).
      pose proof (net_open_reopened i x y qs). lia.
Qed.

Lemma without_empty_tags_from_net (i : nat) (x : Z) :
  forall lo s e,
    Eok lo s e ->
    forall b S,
      map snd S = s ->
      Buffered b S ->
      Forall (fun t => point_of t <= lo) b ->
      Forall (fun e => fst e <= lo) S ->
      NoDup (oids s) ->
      (S = [] -> b = []) ->
      forall out,
        without_empty_tags_from b (Z.of_nat (length s)) e = Ok out ->
        net_open i x out = net_open i x (rev b) + net_open i x e.
Proof.
  induction 1 as [lo | lo s y q e Hlo Hfresh He IH | lo s q y q' e Hlo Hq He IH];
    intros b S HS Hb Hbl HSl Hnd Hempty out Hout.
  - destruct S; [|discriminate]. rewrite (Hempty eq_refl) in *.
    simpl in Hout. now injection Hout as <-.
  - simpl in Hout.
    replace (Z.of_nat (length s) + 1) with (Z.of_nat (length (q :: s)))
      in Hout by (simpl length; lia).
    rewrite (IH ((y, true, q) :: b) ((y, q) :: S)) with (out := out).
    + cbn [rev]. rewrite net_open_app. cbn [net_open]. lia.
    + simpl. now rewrite HS.
    + constructor; [assumption|]. now apply Forall_fst_le with lo.
    + constructor; [unfold point_of; simpl; lia|].
      now apply Forall_point_le with lo.
    + constructor; [simpl; lia|]. now apply Forall_fst_le with lo.
    + simpl. constructor; assumption.
    + discriminate.
    + exact Hout.
  - destruct S as [|[x0 q0] S0]; [discriminate|].
    simpl in HS. injection HS as -> HS0.
    simpl in Hnd. apply NoDup_cons_iff in Hnd. destruct Hnd as [Hq0 Hnd].
    inversion HSl as [|? ? Hx HS0l]; subst. simpl in Hx.
    assert (Hcont : forall b',
      Buffered b' S0 -> Forall (fun t => point_of t <= y) b' ->
      (if Z.of_nat (length (q :: map snd S0)) - 1 =? 0
       then out' <- without_empty_tags_from []
                      (Z.of_nat (length (q :: map snd S0)) - 1) e ;;
            Ok (rev b' ++ out')
       else without_empty_tags_from b'
              (Z.of_nat (length (q :: map snd S0)) - 1) e) = Ok out ->
      net_open i x out = net_open i x (rev b') + net_open i x e).
    { intros b' Hb' Hb'l.
      replace (Z.of_nat (length (q :: map snd S0)) - 1)
        with (Z.of_nat (length (map snd S0))) by (simpl length; lia).
      destruct (Z.eqb_spec (Z.of_nat (length (map snd S0))) 0) as [Hz|Hnz].
      - assert (S0 = []) by (destruct S0; simpl in Hz; [reflexivity | lia]).
        subst S0. simpl in *. intros Ho.
        destruct (without_empty_tags_from [] 0 e) as [out'|] eqn:Ho';
          simpl in Ho; [|discriminate].
        injection Ho as <-. rewrite net_open_app.
        rewrite (IH [] [] eq_refl Buffered_nil (Forall_nil _) (Forall_nil _)
                    (NoDup_nil _) (fun _ => eq_refl) out' Ho').
        simpl. lia.
      - apply (IH b' S0 eq_refl Hb' Hb'l); [| assumption |].
        + now apply Forall_fst_le with lo.
        + intros ->. simpl in Hnz. lia. }
    assert (Hbl' : Forall (fun t => point_of t <= y) b)
      by now apply Forall_point_le with lo.
    inversion Hb; subst.
    + (* the last buffered tag is the open this close matches *)
      rewrite without_empty_tags_from_close, Hq in Hout. simpl andb in Hout.
      destruct (Z.eqb_spec x0 y) as [Hxy|Hxy].
      * rewrite (Hcont b0); [| assumption | now inversion Hbl' | exact Hout].
        cbn [rev]. rewrite net_open_app. cbn [net_open].
        apply is_true_iff in Hq. rewrite Hq, Hxy.
        destruct (Nat.eqb (oid q') i && (y <=? x)); lia.
      * rewrite (Hcont ((y, false, q') :: (x0, true, q) :: b0));
          [| | constructor; [unfold point_of; simpl; lia | assumption]
           | exact Hout].
        -- cbn [rev]. rewrite !net_open_app. cbn [net_open]. lia.
        -- apply Buffered_close with x0 q; auto. lia.
    + (* the last buffered tag is a close of some other object *)
      match goal with
      | Hb0 : Buffered _ ((?x1, ?q1) :: (x0, q) :: S0),
        Hlt : ?x1 < ?y1, Hq1 : is_ ?q1 ?q1' = true,
        Hnot : ~ In (oid ?q1) _ |- _ =>
          rewrite without_empty_tags_from_close in Hout;
          assert (Hne : is_ q1' q' = false)
            by (apply is_false_iff; apply is_true_iff in Hq, Hq1;
                intros Heq; apply Hnot; simpl; left; congruence);
          rewrite Hne in Hout; simpl andb in Hout;
          pose proof (Buffered_sorted _ _ Hb0) as Hsrt;
          inversion Hsrt as [|? ? _ Hall]; subst;
          inversion Hall as [|? ? Hx1 _]; subst; simpl in Hx1;
          inversion Hbl as [|? ? Hy1 _]; subst;
          unfold point_of in Hy1; simpl in Hy1;
          rewrite (Hcont ((y, false, q') :: (y1, false, q1') :: b0));
            [| apply Buffered_close with x0 q; auto; lia
             | constructor; [unfold point_of; simpl; lia | assumption]
             | exact Hout]
      end.
      cbn [rev]. rewrite !net_open_app. cbn [net_open]. lia.
Qed.

Lemma Subseq_refl {A : Type} (l : list A) : Subseq l l.
Proof. induction l; constructor; assumption. Qed.

Lemma Subseq_app {A : Type} (l1 l2 m1 m2 : list A) :
  Subseq l1 m1 -> Subseq l2 m2 -> Subseq (l1 ++ l2) (m1 ++ m2).
Proof. induction 1; simpl; intros; try constructor; auto. Qed.

Lemma Subseq_nil_l {A : Type} (l : list A) : Subseq [] l.
Proof. induction l; constructor; assumption. Qed.

Lemma Subseq_trans {A : Type} (l1 l2 l3 : list A) :
  Subseq l1 l2 -> Subseq l2 l3 -> Subseq l1 l3.
Proof.
  intros H12 H23. revert l1 H12.
  induction H23 as [|a m2 m3 H IH|a m2 m3 H IH]; intros l1 H12.
  - exact H12.
  - inversion H12; subst; [apply Subseq_keep | apply Subseq_drop]; now apply IH.
  - apply Subseq_drop. now apply IH.
Qed.

Lemma without_empty_tags_from_subseq :
  forall e b depth out,
    without_empty_tags_from b depth e = Ok out ->
    Subseq out (rev b ++ e).
Proof.
  induction e as [|[[y st] p] e IH]; intros b depth out H.
  - simpl in H. injection H as <-. apply Subseq_nil_l.
  - destruct st.
    + simpl in H. apply IH in H. simpl in H. now rewrite <- app_assoc in H.
    + destruct b as [|[[tp st] tq] popped]; [discriminate|].
      rewrite without_empty_tags_from_close in H.
      set (b' := if is_ tq p && (tp =? y) then popped
                 else (y, false, p) :: (tp, st, tq) :: popped) in *.
      assert (Hb' : forall l, Subseq l e ->
                Subseq (rev b' ++ l)
                       (rev ((tp, st, tq) :: popped) ++ (y, false, p) :: e)).
      { intros l Hl. unfold b'. destruct (is_ tq p && (tp =? y)).
        - cbn [rev]. rewrite <- app_assoc. apply Subseq_app;
            [apply Subseq_refl|]. simpl. now do 2 apply Subseq_drop.
        - cbn [rev]. rewrite <- !app_assoc. apply Subseq_app;
            [apply Subseq_refl|]. simpl. now do 2 apply Subseq_keep. }
      destruct (depth - 1 =? 0).
      * destruct (without_empty_tags_from [] (depth - 1) e) as [out'|] eqn:Ho;
          simpl in H; [|discriminate].
        injection H as <-. apply Hb'. exact (IH _ _ _ Ho).
      * apply IH in H. eapply Subseq_trans; [exact H|].
        apply Hb', Subseq_refl.
Qed.

Lemma points_sorted_from_lower (lo lo' : Z) (ts : list tag) :
  lo' <= lo -> points_sorted_from lo ts = true ->
  points_sorted_from lo' ts = true.
Proof.
  destruct ts as [|[[y st] p] ts]; [reflexivity|]. simpl. intros Hle H.
  apply andb_true_iff in H. destruct H as [H1 H2]. apply Z.leb_le in H1.
  apply andb_true_iff. split; [apply Z.leb_le; lia | assumption].
Qed.

Lemma points_sorted_from_subseq (l1 l2 : list tag) :
  Subseq l1 l2 ->
  forall lo, points_sorted_from lo l2 = true -> points_sorted_from lo l1 = true.
Proof.
  induction 1 as [|[[y st] p] l1 l2 H IH|[[y st] p] l1 l2 H IH];
    intros lo Hs; [reflexivity| |]; simpl in Hs;
    apply andb_true_iff in Hs; destruct Hs as [H1 H2].
  - simpl. rewrite H1. now apply IH.
  - apply Z.leb_le in H1. apply IH.
    now apply points_sorted_from_lower with y.
Qed.

Lemma Eok_points_sorted (lo : Z) (s : list payload) (e : list tag) :
  Eok lo s e -> points_sorted_from lo e = true.
Proof.
  induction 1; simpl; [reflexivity| |];
    (apply andb_true_iff; split; [now apply Z.leb_le | assumption]).
Qed.

Lemma sorted_by_point_of_from (lo : Z) (ts : list tag) :
  points_sorted_from lo ts = true -> sorted_by_point ts = true.
Proof.
  destruct ts as [|[[y st] p] ts]; [reflexivity|]. simpl. intros H.
  now apply andb_true_iff in H.
Qed.

(** X9.  The balancer changes how spans are cut, not what they cover.  On a
    stream sorted by offset in which each payload's open boundary precedes
    its close boundary, [balanced_tags] returns a stream that is again sorted
    by offset and in which every object covers exactly the offsets it covers
    in the input: at each offset [x], the boundaries of the object up to [x]
    leave it open in the output just when they do in the input. *)
Theorem balanced_tags_keeps_coverage (tags : list tag) :
  sorted_by_point tags = true ->
  opens_precede_closes tags = true ->
  exists out,
    balanced_tags tags = Ok out /\
    sorted_by_point out = true /\
    forall i x, net_open i x out = net_open i x tags.
Proof.
  intros Hs Hp.
  assert (Hs' : exists lo, points_sorted_from lo tags = true).
  { destruct tags as [|[[x st] p] rest]; [now exists 0|].
    exists x. simpl in *. now rewrite Z.leb_refl. }
  destruct Hs' as [lo Hlo].
  destruct (balanced_tags_with_empties_from_ok tags lo [] (NoDup_nil _) Hlo Hp)
    as [e [He Hok]].
  destruct (without_empty_tags_from_ok lo [] e Hok [] [] eq_refl Buffered_nil
              (Forall_nil _) (Forall_nil _) (NoDup_nil _)) as [out [Ho _]].
  simpl in Ho.
  exists out. unfold balanced_tags, balanced_tags_with_empties.
  rewrite He. cbn [bind]. unfold without_empty_tags. split; [exact Ho|]. split.
  - apply sorted_by_point_of_from with lo.
    apply (points_sorted_from_subseq out e).
    + exact (without_empty_tags_from_subseq e [] 0 out Ho).
    + now apply Eok_points_sorted with [].
  - intros i x.
    rewrite (without_empty_tags_from_net i x lo [] e Hok [] [] eq_refl
               Buffered_nil (Forall_nil _) (Forall_nil _) (NoDup_nil _)
               (fun _ => eq_refl) out Ho).
    simpl. exact (balanced_tags_with_empties_from_net i x tags [] e He).
Qed.

Lemma balanced_tags_keeps_coverage_witness :
  exists out,
    balanced_tags multiline_region_stream = Ok out /\
    sorted_by_point out = true /\
    forall i x, net_open i x out = net_open i x multiline_region_stream.
Proof.
  apply (balanced_tags_keeps_coverage multiline_region_stream); reflexivity.
Defined.

(** ** Boundaries that close what is not open *)

Lemma close_intermediates_missing (y : Z) (p : payload) :
  forall opens closes,
    Forall (fun q => is_ q p = false) opens ->
    close_intermediates y p opens closes = Raise IndexError.
Proof.
  induction opens as [|q opens IH]; intros closes H; [reflexivity|].
  inversion H as [|? ? Hq Hrest]; subst. simpl. rewrite Hq.
  now rewrite IH.
Qed.

Lemma close_intermediates_stack (y : Z) (p : payload) :
  forall opens closes out opens1 closes1,
    close_intermediates y p opens closes = Ok (out, opens1, closes1) ->
    exists qs, opens = qs ++ opens1 /\ closes1 = rev qs ++ closes.
Proof.
  induction opens as [|q opens IH]; intros closes out opens1 closes1 H;
    simpl in H; [discriminate|].
  destruct (is_ q p).
  - injection H as _ <- <-. now exists [].
  - destruct (close_intermediates y p opens (q :: closes))
      as [[[out' opens'] closes']|] eqn:Hc; simpl in H; [|discriminate].
    injection H as _ <- <-.
    destruct (IH _ _ _ _ Hc) as [qs [-> ->]].
    exists (q :: qs). simpl. now rewrite <- app_assoc.
Qed.

Lemma close_intermediates_raises (y : Z) (p : payload) :
  forall opens closes e,
    close_intermediates y p opens closes = Raise e -> e = IndexError.
Proof.
  induction opens as [|q opens IH]; intros closes e H; simpl in H.
  - now injection H as <-.
  - destruct (is_ q p); [discriminate|].
    destruct (close_intermediates y p opens (q :: closes))
      as [[[out' opens'] closes']|e'] eqn:Hc; simpl in H; [discriminate|].
    injection H as <-. now apply (IH _ _ Hc).
Qed.

Lemma Forall_tl {A : Type} (P : A -> Prop) (l : list A) :
  Forall P l -> Forall P (tl l).
Proof. destruct 1; [constructor | assumption]. Qed.

Lemma balanced_tags_with_empties_from_stray (y : Z) (p : payload)
    (rest : list tag) :
  forall pre opens,
    Forall (fun q => is_ q p = false) opens ->
    Forall (fun t => is_ (payload_of t) p = false) pre ->
    balanced_tags_with_empties_from opens [] (pre ++ (y, false, p) :: rest) =
    Raise IndexError.
Proof.
  induction pre as [|[[x st] q] pre IH]; intros opens Ho Hpre.
  - simpl. now rewrite close_intermediates_missing.
  - inversion Hpre as [|? ? Hq Hpre']; subst.
    unfold payload_of in Hq. simpl in Hq.
    cbn [app balanced_tags_with_empties_from]. destruct st.
    + rewrite IH; [reflexivity | now constructor | assumption].
    + destruct (close_intermediates x q opens [])
        as [[[out1 opens1] closes1]|e] eqn:Hc; cbn [bind].
      * destruct (close_intermediates_stack _ _ _ _ _ _ _ Hc) as [qs [-> ->]].
        rewrite reopen_intermediates_spec, app_nil_r, rev_involutive.
        apply Forall_app in Ho. destruct Ho as [Hqs Ho1].
        rewrite IH; [reflexivity | | assumption].
        apply Forall_app. split; [assumption | now apply Forall_tl].
      * now rewrite (close_intermediates_raises _ _ _ _ _ Hc).
Qed.

(** X10.  A close boundary whose payload no earlier boundary of the stream
    carries stops the balancer with an [IndexError], whatever comes before
    and after it: the search for its opener empties the stack of open tags
    and then reads the top of the empty stack. *)
Theorem balanced_tags_stray_close (pre : list tag) (y : Z) (p : payload)
    (rest : list tag) :
  Forall (fun t => is_ (payload_of t) p = false) pre ->
  balanced_tags (pre ++ (y, false, p) :: rest) = Raise IndexError.
Proof.
  intros Hpre. unfold balanced_tags, balanced_tags_with_empties.
  rewrite balanced_tags_with_empties_from_stray;
    [reflexivity | constructor | assumption].
Qed.

Lemma balanced_tags_stray_close_witness :
  balanced_tags ([(0, true, line_marker)] ++ (2, false, region_k) ::
                 [(2, true, region_k); (3, false, line_marker)]) =
  Raise IndexError.
Proof.
  apply (balanced_tags_stray_close [(0, true, line_marker)] 2 region_k).
  repeat constructor.
Defined.

Lemma non_overlapping_refs_from_stray (y : Z) (p : payload) (rest : list tag) :
  isinstance_Ref p = true ->
  forall pre,
    Forall (fun t => is_ref_tag t = false) pre ->
    non_overlapping_refs_from [] None (pre ++ (y, false, p) :: rest) =
    Raise AssertionError.
Proof.
  intros Hp. induction 1 as [|[[x st] q] pre Hq _ IH].
  - simpl. now rewrite Hp.
  - rewrite is_ref_tag_eq in Hq.
    cbn [app non_overlapping_refs_from non_overlapping_step].
    rewrite Hq. cbn [bind]. now rewrite IH.
Qed.

(** X11.  The close boundary of an anchor met before any anchor boundary of
    the stream stops [remove_overlapping_refs] with an [AssertionError]: no
    anchor is open and none is blacklisted, and the boundary is not a start.
    So an anchor handed over with its end before its start fails here. *)
Theorem remove_overlapping_refs_stray_close (pre : list tag) (y : Z)
    (p : payload) (rest : list tag) :
  isinstance_Ref p = true ->
  Forall (fun t => is_ref_tag t = false) pre ->
  remove_overlapping_refs (pre ++ (y, false, p) :: rest) = Raise AssertionError.
Proof.
  intros Hp Hpre. rewrite remove_overlapping_refs_compress.
  unfold non_overlapping_refs.
  now rewrite non_overlapping_refs_from_stray.
Qed.

Lemma remove_overlapping_refs_stray_close_witness :
  remove_overlapping_refs
    ([(0, true, line_marker)] ++ (1, false, mkPayload 1 (Ref JNull)) ::
     [(2, true, mkPayload 1 (Ref JNull)); (3, false, line_marker)]) =
  Raise AssertionError.
Proof.
  apply (remove_overlapping_refs_stray_close
           [(0, true, line_marker)] 1 (mkPayload 1 (Ref JNull)));
    [reflexivity | repeat constructor].
Defined.

(** X12.  The loop of [remove_overlapping_refs] overwrites the list it is
    reading, and still computes what
    [compress(tags, non_overlapping_refs(tags))] gives on the list as it was:
    the writes stay behind the reads.  It raises what [non_overlapping_refs]
    raises, and when nothing at all is kept, [del tags[i + 1:]] finds [i]
    unbound. *)
Theorem remove_overlapping_refs_in_place (tags : list tag) :
  remove_overlapping_refs tags =
  sel <- non_overlapping_refs tags ;;
  match compress tags sel with
  | [] => Raise UnboundLocalError
  | kept => Ok kept
  end.
Proof. apply remove_overlapping_refs_compress. Qed.

(** ** The stages of [build_lines] on sample input *)

Lemma remove_overlapping_refs_nonempty_witness :
  exists kept,
    remove_overlapping_refs
      [ (0, true, line_marker); (0, true, mkPayload 1 (Ref JNull));
        (2, true, mkPayload 2 (Ref JNull)); (3, false, mkPayload 1 (Ref JNull));
        (4, false, mkPayload 2 (Ref JNull)); (5, false, line_marker) ] =
      Ok kept /\
    filter (fun t => negb (is_ref_tag t)) kept =
      filter (fun t => negb (is_ref_tag t))
        [ (0, true, line_marker); (0, true, mkPayload 1 (Ref JNull));
          (2, true, mkPayload 2 (Ref JNull)); (3, false, mkPayload 1 (Ref JNull));
          (4, false, mkPayload 2 (Ref JNull)); (5, false, line_marker) ] /\
    anchors_sequential None kept = true.
Proof.
  apply (remove_overlapping_refs_nonempty
           [ (0, true, line_marker); (0, true, mkPayload 1 (Ref JNull));
             (2, true, mkPayload 2 (Ref JNull)); (3, false, mkPayload 1 (Ref JNull));
             (4, false, mkPayload 2 (Ref JNull)); (5, false, line_marker) ]);
    [discriminate | reflexivity].
Defined.

Lemma build_lines_returns_witness :
  exists kept balanced,
    sorted_tag_stream two_lines [region_0_5] = Ok kept /\
    balanced_tags kept = Ok balanced /\
    Nest [] balanced [] /\
    build_lines dumps_null decode_ascii two_lines [region_0_5] =
      Ok (html_lines dumps_null balanced (decoded_slice decode_ascii two_lines)).
Proof.
  apply (build_lines_returns dumps_null decode_ascii two_lines [region_0_5]);
    [repeat constructor | left; discriminate].
Defined.

(** ** What [index_files] leaves in the database *)




Section IndexingInvariants.
Variable fnmatchcase : string -> string -> bool.
Variable is_text : string -> string -> bool.
Variable icon : string -> string.
Variable tree : tree_config.

Lemma walk_invariant (I : database -> Prop) :
  (forall root rel_path conn file,
      I conn ->
      I (index_file fnmatchcase is_text icon tree root rel_path conn file)) ->
  forall dir root rel_path conn,
    I conn -> I (walk fnmatchcase is_text icon tree dir root rel_path conn).
Proof.
  intros Hstep. induction dir as [files folders IH] using fs_dir_ind.
  intros root rel_path conn Hconn. rewrite walk_Dir.
  apply fold_left_invariant.
  - intros conn' [name w] Hin Hc'. simpl.
    apply sort_by_name_In in Hin. unfold _unignored_folders in Hin.
    apply filter_In in Hin. destruct Hin as [Hin _].
    apply in_map_iff in Hin. destruct Hin as [[name' sub] [Heq Hin]].
    simpl in Heq. injection Heq as -> <-.
    rewrite Forall_forall in IH. now apply (IH (name, sub) Hin).
  - apply fold_left_invariant; [|assumption].
    intros conn' file _ Hc'. now apply Hstep.
Qed.





Lemma rows_added_index_file (new : list (Z * string * string))
    (conn0 conn : database) (root rel_path : string) (file : string * string) :
  rows_added icon new conn0 conn ->
  exists new',
    rows_added icon new' conn0
      (index_file fnmatchcase is_text icon tree root rel_path conn file).
Proof.
  intros [Hf Ht]. destruct file as [f data]. unfold index_file.
  destruct (name_ignored fnmatchcase tree f); [now exists new|].
  destruct (file_path_ignored fnmatchcase tree (path_join rel_path f));
    [now exists new|].
  destruct (is_text (path_join root f) data); cbn [negb]; [|now exists new].
  exists (new ++ [(next_rowid (files_table conn), path_join rel_path f, data)]).
  unfold rows_added. cbn [files_table trg_index].
  rewrite Hf, Ht, !map_app, !app_assoc. split; reflexivity.
Qed.

Lemma dense_ids_index_file (conn : database) (root rel_path : string)
    (file : string * string) :
  map (fun row => fst (fst row)) (files_table conn) =
    map Z.of_nat (seq 1 (length (files_table conn))) ->
  map (fun row => fst (fst row))
      (files_table
         (index_file fnmatchcase is_text icon tree root rel_path conn file)) =
    map Z.of_nat
        (seq 1 (length
                  (files_table
                     (index_file fnmatchcase is_text icon tree root rel_path
                                 conn file)))).
Proof.
  intros H. destruct file as [f data]. unfold index_file.
  destruct (name_ignored fnmatchcase tree f); [assumption|].
  destruct (file_path_ignored fnmatchcase tree (path_join rel_path f));
    [assumption|].
  destruct (is_text (path_join root f) data); cbn [negb]; [|assumption].
  cbn [files_table]. rewrite length_app, map_app, H. cbn [length map fst].
  rewrite Nat.add_1_r, seq_S, map_app. cbn [map]. do 2 f_equal.
  unfold next_rowid.
  assert (Hmax : forall rows : list (Z * string * string),
             forall k,
             map (fun row => fst (fst row)) rows =
               map Z.of_nat (seq (S k) (length rows)) ->
             fold_right (fun row acc => Z.max (fst (fst row)) acc) 0 rows =
               if Nat.eqb (length rows) 0 then 0
               else Z.of_nat (k + length rows)).
  { clear. induction rows as [|r rows IH]; intros k Hr; [reflexivity|].
    cbn [length map seq] in Hr. injection Hr as Hr1 Hr2.
    cbn [fold_right length]. rewrite (IH (S k) Hr2), Hr1.
    destruct rows; cbn [length Nat.eqb]; lia. }
  rewrite (Hmax _ O H). destruct (files_table conn); cbn [length Nat.eqb]; lia.
Qed.
End IndexingInvariants.



(** X16.  [index_files] only appends, and in step: the rows that were in the
    [files] table and in the trigram index stay as they were, in place, and
    every new [files] row [(id, path, icon(path))] comes with one trigram row
    [(id, text)] of the same id, at the same position among the new rows. *)
Theorem index_files_rows_paired
    (fnmatchcase : string -> string -> bool)
    (is_text : string -> string -> bool) (icon : string -> string)
    (tree : tree_config) (source : fs_dir) (conn : database) :
  exists new : list (Z * string * string),
    rows_added icon new conn
      (index_files fnmatchcase is_text icon tree source conn).
Proof.
  unfold index_files.
  apply (walk_invariant fnmatchcase is_text icon tree
           (fun db => exists new, rows_added icon new conn db)).
  - intros root rel_path conn' file [new Hnew].
    now apply rows_added_index_file with new.
  - exists []. unfold rows_added. simpl. now rewrite !app_nil_r.
Qed.

(** X17.  Starting from empty tables, the files [index_files] inserts get the
    ids 1, 2, ..., n in the order they are inserted, without gaps: the range
    that [run_html_workers] then cuts into slices. *)
Theorem index_files_dense_ids
    (fnmatchcase : string -> string -> bool)
    (is_text : string -> string -> bool) (icon : string -> string)
    (tree : tree_config) (source : fs_dir) :
  map (fun row => fst (fst row))
      (files_table
         (index_files fnmatchcase is_text icon tree source empty_database)) =
  map Z.of_nat
      (seq 1 (length
                (files_table
                   (index_files fnmatchcase is_text icon tree source
                                empty_database)))).
Proof.
  unfold index_files.
  apply (walk_invariant fnmatchcase is_text icon tree
           (fun db => map (fun row => fst (fst row)) (files_table db) =
                      map Z.of_nat (seq 1 (length (files_table db))))).
  - intros. now apply dense_ids_index_file.
  - reflexivity.
Qed.

(** ** From the index to the HTML workers *)

Lemma sliced_range_bounds_returns (a b slice_size : Z) :
  a <= b -> 1 <= slice_size ->
  exists (fuel0 : nat) (ranges : list (Z * Z)),
    (forall fuel, (fuel0 <= fuel)%nat ->
       _sliced_range_bounds fuel a b slice_size = Some (Ok ranges)) /\
    slices_of slice_size a b ranges.
Proof.
  intros Hab Hs.
  set (top := Z.min b (a + slice_size - 1)).
  destruct (sliced_range_bounds_loop_rest a b slice_size ltac:(lia)
              (Z.to_nat (b - a)) (top + 1)) as [rs [Hrs Hok]];
    try (unfold top; lia).
  { unfold top. destruct (Z.min_spec b (a + slice_size - 1)) as [[? ->]|[? ->]];
      nia. }
  replace (top + 1 - 1) with top in Hrs by lia.
  exists (S (S (Z.to_nat (b - a)))), ((a, top) :: rs). split.
  - intros fuel Hfuel. unfold _sliced_range_bounds.
    apply sliced_range_bounds_loop_fuel_le with (S (S (Z.to_nat (b - a))));
      [assumption|].
    rewrite sliced_range_bounds_loop_S, Z.eqb_refl. fold top. now rewrite Hrs.
  - cbn [slices_of]. unfold top in *.
    repeat split; try lia; [|assumption].
    intros Hne. destruct rs as [|[m M] rs']; [congruence|].
    cbn [slices_of] in Hok. lia.
Qed.

Lemma slices_of_unique (s : Z) (rs : list (Z * Z)) :
  forall lo hi,
    slices_of s lo hi rs ->
    forall id r r',
      In r rs -> In r' rs ->
      fst r <= id <= snd r -> fst r' <= id <= snd r' -> r = r'.
Proof.
  induction rs as [|[m M] rs IH]; intros lo hi H id r r' Hr Hr' Hid Hid';
    [contradiction|].
  cbn [slices_of] in H. destruct H as (-> & Hle & Hhi & _ & _ & Hrest).
  pose proof (slices_of_lower _ _ _ _ Hrest) as Hlow.
  rewrite Forall_forall in Hlow.
  destruct Hr as [<-|Hr], Hr' as [<-|Hr'].
  - reflexivity.
  - specialize (Hlow _ Hr'). simpl in *. lia.
  - specialize (Hlow _ Hr). simpl in *. lia.
  - now apply (IH _ _ Hrest id).
Qed.

Lemma max_of_dense_ids (rows : list (Z * string * string)) :
  forall (k : nat) (acc : Z),
    acc <= Z.of_nat k ->
    map (fun row => fst (fst row)) rows =
      map Z.of_nat (seq (S k) (length rows)) ->
    fold_left (fun m r => Z.max m (fst (fst r))) rows acc =
      match rows with
      | [] => acc
      | _ => Z.of_nat (k + length rows)
      end.
Proof.
  induction rows as [|r rows IH]; intros k acc Hacc Hr; [reflexivity|].
  cbn [length map seq] in Hr. injection Hr as Hr1 Hr2.
  cbn [fold_left]. rewrite (IH (S k)); [| lia | exact Hr2].
  destruct rows; cbn [length]; lia.
Qed.

Lemma max_file_id_dense (db : database) (m : Z) :
  map (fun row => fst (fst row)) (files_table db) =
    map Z.of_nat (seq 1 (length (files_table db))) ->
  max_file_id db = Some m ->
  m = Z.of_nat (length (files_table db)) /\ 1 <= m.
Proof.
  unfold max_file_id. intros Hd Hm.
  destruct (files_table db) as [|row rest]; [discriminate|].
  cbn [length map seq] in Hd. injection Hd as Hd1 Hd2.
  injection Hm as <-.
  rewrite (max_of_dense_ids rest 1 (fst (fst row))); [| lia | exact Hd2].
  destruct rest; cbn [length]; lia.
Qed.

(** X18.  Every indexed file goes to exactly one HTML worker.  After
    [index_files] has filled empty tables with at least one file, the tasks
    [run_html_workers] submits for the largest file id are such that each row
    of the [files] table has its id within the bounds of one task and of no
    other: the workers, each selecting the ids between its bounds, share out
    the files without gap or overlap. *)
Theorem indexed_files_one_task_each
    (fnmatchcase : string -> string -> bool)
    (is_text : string -> string -> bool) (icon : string -> string)
    (tree : tree_config) (source : fs_dir) (m : Z) :
  max_file_id
    (index_files fnmatchcase is_text icon tree source empty_database) = Some m ->
  exists (fuel0 : nat) (tasks : list html_task),
    (forall fuel, (fuel0 <= fuel)%nat ->
       run_html_workers fuel m = Some (Ok tasks)) /\
    forall row,
      In row (files_table
                (index_files fnmatchcase is_text icon tree source
                             empty_database)) ->
      exists t,
        In t tasks /\
        task_start t <= fst (fst row) <= task_end t /\
        forall t',
          In t' tasks ->
          task_start t' <= fst (fst row) <= task_end t' -> t' = t.
Proof.
  intros Hm.
  set (db := index_files fnmatchcase is_text icon tree source empty_database)
    in *.
  assert (Hd : map (fun row => fst (fst row)) (files_table db) =
               map Z.of_nat (seq 1 (length (files_table db)))).
  { unfold db, index_files.
    apply (walk_invariant fnmatchcase is_text icon tree
             (fun db => map (fun row => fst (fst row)) (files_table db) =
                        map Z.of_nat (seq 1 (length (files_table db)))));
      [|reflexivity].
    intros. now apply dense_ids_index_file. }
  destruct (max_file_id_dense db m Hd Hm) as [Hmn Hm1].
  destruct (sliced_range_bounds_returns 1 m 500 Hm1 ltac:(lia))
    as (fuel0 & ranges & Hrun & Hsl).
  exists fuel0, (map (fun '(start, end_) => mkTask start end_) ranges).
  split.
  - intros fuel Hfuel. unfold run_html_workers. now rewrite (Hrun fuel Hfuel).
  - intros row Hrow.
    assert (Hid : 1 <= fst (fst row) <= m).
    { apply (in_map (fun row => fst (fst row))) in Hrow. rewrite Hd in Hrow.
      apply in_map_iff in Hrow. destruct Hrow as [k [<- Hk]].
      apply in_seq in Hk. lia. }
    destruct (proj1 (slices_of_cover 500 ranges 1 m Hsl (fst (fst row))) Hid)
      as [[lo hi] [Hr Hin]].
    exists (mkTask lo hi). split; [|split; [exact Hin|]].
    + apply in_map_iff. now exists (lo, hi).
    + intros t' Ht' Hin'. apply in_map_iff in Ht'.
      destruct Ht' as [[lo' hi'] [<- Hr']]. simpl in Hin'.
      pose proof (slices_of_unique 500 ranges 1 m Hsl (fst (fst row))
                    (lo', hi') (lo, hi) Hr' Hr Hin' Hin) as Heq.
      now injection Heq as -> ->.
Qed.

Lemma indexed_files_one_task_each_witness :
  exists (fuel0 : nat) (tasks : list html_task),
    (forall fuel, (fuel0 <= fuel)%nat ->
       run_html_workers fuel 2 = Some (Ok tasks)) /\
    forall row,
      In row (files_table
                (index_files fnmatch_exact (fun _ _ => true)
                             (fun _ => "page"%string) sample_tree
                             sample_source empty_database)) ->
      exists t,
        In t tasks /\
        task_start t <= fst (fst row) <= task_end t /\
        forall t',
          In t' tasks ->
          task_start t' <= fst (fst row) <= task_end t' -> t' = t.
Proof.
  apply (indexed_files_one_task_each fnmatch_exact (fun _ _ => true)
           (fun _ => "page"%string) sample_tree sample_source 2).
  reflexivity.
Defined.

(** ** Regions that end no later than they start *)

Lemma non_overlapping_refs_from_keeps_others :
  forall (tags : list tag) blacklist open_ref sel,
    non_overlapping_refs_from blacklist open_ref tags = Ok sel ->
    filter (fun t => negb (is_ref_tag t)) (compress tags sel) =
    filter (fun t => negb (is_ref_tag t)) tags.
Proof.
  induction tags as [|[[x st] p] tags IH]; intros bl o sel H.
  - simpl in H. now injection H as <-.
  - cbn [non_overlapping_refs_from] in H.
    destruct (non_overlapping_step bl o (x, st, p)) as [[[keep bl'] o']|e]
      eqn:Hstep; cbn [bind] in H; [|discriminate].
    destruct (non_overlapping_refs_from bl' o' tags) as [sel'|e] eqn:Hrest;
      cbn [bind] in H; [|discriminate].
    injection H as <-. specialize (IH _ _ _ Hrest).
    cbn [compress]. unfold non_overlapping_step in Hstep.
    destruct (isinstance_Ref p) eqn:Hr.
    + destruct keep; cbn [filter]; rewrite is_ref_tag_eq, Hr; exact IH.
    + injection Hstep as <- _ _. cbn [filter]. rewrite is_ref_tag_eq, Hr.
      cbn [negb]. now rewrite IH.
Qed.

Lemma non_overlapping_refs_from_raises :
  forall (tags : list tag) blacklist open_ref e,
    non_overlapping_refs_from blacklist open_ref tags = Raise e ->
    e = AssertionError.
Proof.
  induction tags as [|[[x st] p] tags IH]; intros bl o e H; [discriminate|].
  cbn [non_overlapping_refs_from] in H.
  destruct (non_overlapping_step bl o (x, st, p)) as [[[keep bl'] o']|e']
    eqn:Hstep; cbn [bind] in H.
  - destruct (non_overlapping_refs_from bl' o' tags) as [sel'|e'] eqn:Hrest;
      cbn [bind] in H; [discriminate|].
    injection H as <-. now apply (IH _ _ _ Hrest).
  - injection H as <-. unfold non_overlapping_step in Hstep.
    destruct (isinstance_Ref p); [|discriminate].
    destruct (oid_in (oid p) bl); [discriminate|].
    destruct o as [r|]; [destruct (is_ r p); discriminate|].
    destruct st; [discriminate|]. now injection Hstep as <-.
Qed.

Lemma filter_head_split {A : Type} (P : A -> bool) (l : list A) (x : A)
    (xs : list A) :
  filter P l = x :: xs ->
  exists pre rest, l = pre ++ x :: rest /\ Forall (fun t => P t = false) pre.
Proof.
  induction l as [|y l IH]; [discriminate|]. cbn [filter].
  destruct (P y) eqn:Hy.
  - intros H. injection H as -> _. now exists [], l.
  - intros H. destruct (IH H) as (pre & rest & -> & Hpre).
    exists (y :: pre), rest. split; [reflexivity | now constructor].
Qed.

Lemma filter_filter_implied {A : Type} (P Q : A -> bool) (l : list A) :
  Forall (fun t => P t = true -> Q t = true) l ->
  filter P (filter Q l) = filter P l.
Proof.
  induction 1 as [|y l Hy _ IH]; [reflexivity|]. cbn [filter].
  destruct (Q y) eqn:HQ; cbn [filter].
  - now rewrite IH.
  - destruct (P y); [now specialize (Hy eq_refl) | exact IH].
Qed.

Lemma boundaries_of_object_nth (L : list (interval payload_class)) :
  forall k j s e c,
    nth_error L j = Some (Some s, Some e, c) ->
    boundaries_of_object (k + j) (boundaries_of k L) =
    [ (s, true, mkPayload (k + j) c); (e, false, mkPayload (k + j) c) ].
Proof.
  induction L as [|[[s0 e0] c0] L IH]; intros k j s e c H;
    [destruct j; discriminate|].
  cbn [boundaries_of]. rewrite !boundaries_of_object_cons. cbn [oid].
  destruct j as [|j].
  - injection H as -> -> ->. rewrite Nat.add_0_r, Nat.eqb_refl.
    now rewrite boundaries_of_object_outside by lia.
  - cbn [nth_error] in H.
    destruct (Nat.eqb_spec k (k + S j)) as [Hk|_]; [lia|].
    rewrite <- Nat.add_succ_comm. now apply IH.
Qed.

Lemma refness_region (L : list (interval payload_class)) (j : nat)
    (s e : option Z) (d : string) :
  nth_error L j = Some (s, e, Region d) -> interval_is_ref L j = false.
Proof.
  intros H. unfold interval_is_ref.
  assert (Hn : nth_error (map snd L) j = Some (Region d))
    by exact (map_nth_error snd j L H).
  now rewrite (nth_error_nth _ _ Line Hn).
Qed.

(** X19.  An empty or reversed region is never dropped quietly.  If some
    plugin hands over a region whose end is no later than its start, then,
    whatever the text and the other regions and anchors, [build_lines] raises:
    an [AssertionError] from [tag_boundaries] or the anchor filter, or else an
    [IndexError] from the balancer, which meets the region's close boundary
    before its open boundary. *)
Theorem build_lines_empty_region (json_dumps : json -> string)
    (decoder : string -> string) (text : string) (hs : list htmlifier)
    (h : htmlifier) (s e : Z) (d : string) :
  In h hs ->
  In (Some s, Some e, d) (regions h) ->
  e <= s ->
  build_lines json_dumps decoder text hs = Raise AssertionError \/
  build_lines json_dumps decoder text hs = Raise IndexError.
Proof.
  intros Hh Hiv Hes.
  rewrite build_lines_sorted_tag_stream. unfold sorted_tag_stream.
  rewrite tag_boundaries_from_spec.
  set (L := flat_map htmlifier_intervals hs).
  destruct (forallb interval_accepted L); [|left; reflexivity].
  cbn [bind]. rewrite Nat.add_0_l.
  set (sorted := sort_by_key nesting_order
                   (boundaries_of 0 L ++ line_boundaries (length L) text)).
  assert (HinL : In (Some s, Some e, Region d) L).
  { unfold L. apply in_flat_map. exists h. split; [assumption|].
    unfold htmlifier_intervals. apply in_or_app. left.
    apply in_map_iff. now exists (Some s, Some e, d). }
  destruct (In_nth_error _ _ HinL) as [j Hj].
  assert (Hjlt : (j < length L)%nat)
    by (apply nth_error_Some; intros Hn;
        pose proof (eq_trans (eq_sym Hn) Hj) as Hc; discriminate Hc).
  set (P := mkPayload j (Region d)).
  assert (Hobj : boundaries_of_object j sorted = [(e, false, P); (s, true, P)]).
  { unfold sorted. unfold boundaries_of_object at 1.
    rewrite filter_sort_by_key, filter_app.
    fold (boundaries_of_object j (boundaries_of 0 L)).
    fold (boundaries_of_object j (line_boundaries (length L) text)).
    rewrite boundaries_of_object_line_boundaries.
    destruct (Nat.eqb_spec (length L) j) as [Heq|_]; [lia|].
    rewrite app_nil_r.
    pose proof (boundaries_of_object_nth L 0 j s e (Region d) Hj) as Hnth.
    rewrite Nat.add_0_l in Hnth. rewrite Hnth.
    cbn [sort_by_key insert_by_key]. fold P.
    replace (key_ltb (nesting_order (e, false, P)) (nesting_order (s, true, P)))
      with true; [reflexivity|].
    symmetry. unfold key_ltb, nesting_order, bool_ltb. cbn [negb andb].
    destruct (Z.ltb_spec e s); [reflexivity|].
    replace (e =? s) with true by (symmetry; apply Z.eqb_eq; lia).
    reflexivity. }
  pose proof (refness_sorted_stream L text) as HR. fold sorted in HR.
  assert (Hnonref : forall ts,
             (forall t, In t ts -> In t sorted) ->
             Forall (fun t => Nat.eqb (oid (payload_of t)) j = true ->
                              negb (is_ref_tag t) = true) ts).
  { intros ts Hsub. apply Forall_forall. intros t Ht Ho.
    unfold refness_by_oid in HR. rewrite Forall_forall in HR.
    rewrite (HR t (Hsub t Ht)). apply Nat.eqb_eq in Ho. rewrite Ho.
    now rewrite (refness_region L j _ _ _ Hj). }
  rewrite remove_overlapping_refs_compress. unfold non_overlapping_refs.
  destruct (non_overlapping_refs_from [] None sorted) as [sel|e0] eqn:Hsel;
    cbn [bind].
  - pose proof (non_overlapping_refs_from_keeps_others _ _ _ _ Hsel) as Hkeep.
    assert (Hkept : boundaries_of_object j (compress sorted sel) =
                    [(e, false, P); (s, true, P)]).
    { rewrite <- Hobj. unfold boundaries_of_object.
      rewrite <- (filter_filter_implied _ (fun t => negb (is_ref_tag t))
                    (compress sorted sel))
        by (apply Hnonref; intros t; apply compress_In).
      rewrite Hkeep. apply filter_filter_implied. now apply Hnonref. }
    destruct (filter_head_split _ _ _ _ Hkept) as (pre & rest & Hdec & Hpre).
    rewrite Hdec.
    assert (Hb : balanced_tags (pre ++ (e, false, P) :: rest) =
                 Raise IndexError).
    { unfold balanced_tags, balanced_tags_with_empties.
      rewrite balanced_tags_with_empties_from_stray;
        [reflexivity | constructor |].
      eapply Forall_impl; [|exact Hpre]. intros t Ht. exact Ht. }
    right.
    destruct pre as [|t0 pre']; cbn [app bind] in *;
      set (r := balanced_tags _) in *; clearbody r; now subst r.
  - left. now rewrite (non_overlapping_refs_from_raises _ _ _ _ Hsel).
Qed.

Lemma build_lines_empty_region_witness :
  build_lines dumps_null decode_ascii two_lines
              [mkHtmlifier [(Some 2, Some 2, "k"%string)] []] =
    Raise AssertionError \/
  build_lines dumps_null decode_ascii two_lines
              [mkHtmlifier [(Some 2, Some 2, "k"%string)] []] =
    Raise IndexError.
Proof.
  apply (build_lines_empty_region dumps_null decode_ascii two_lines
           [mkHtmlifier [(Some 2, Some 2, "k"%string)] []]
           (mkHtmlifier [(Some 2, Some 2, "k"%string)] []) 2 2 "k"%string);
    [now left | now left | lia].
Defined.

(** ** Streams that need no balancing *)

Lemma Tidy_app u a u' b u'' :
  Tidy u a u' -> Tidy u' b u'' -> Tidy u (a ++ b) u''.
Proof.
  induction 1; intros Hb; simpl; auto using Tidy.
Qed.

Lemma BufferedT_Buffered b s : BufferedT b s -> Buffered b s.
Proof.
  induction 1; [constructor | now constructor |].
  now apply Buffered_close with x q.
Qed.

Lemma BufferedT_Tidy b s : BufferedT b s -> Tidy [] (rev b) s.
Proof.
  induction 1; simpl.
  - constructor.
  - eapply Tidy_app; [eassumption|]. apply Tidy_open; [assumption|].
    apply Tidy_nil.
  - eapply Tidy_app; [eassumption|]. apply Tidy_close; auto using Tidy_nil.
Qed.

Lemma without_empty_tags_from_tidy :
  forall lo s e,
    Eok lo s e ->
    forall b S,
      map snd S = s ->
      BufferedT b S ->
      Forall (fun t => point_of t <= lo) b ->
      Forall (fun e => fst e <= lo) S ->
      NoDup (oids s) ->
      exists out,
        without_empty_tags_from b (Z.of_nat (length s)) e = Ok out /\
        Tidy [] out [].
Proof.
  induction 1 as [lo | lo s x q e Hlo Hfresh He IH | lo s q y q' e Hlo Hq He IH];
    intros b S HS Hb Hbl HSl Hnd.
  - exists []. split; [reflexivity | constructor].
  - simpl. replace (Z.of_nat (length s) + 1) with (Z.of_nat (length (q :: s)))
      by (simpl length; lia).
    apply (IH ((x, true, q) :: b) ((x, q) :: S)).
    + simpl. now rewrite HS.
    + constructor; [assumption | now apply Forall_fst_le with lo |].
      now rewrite HS.
    + constructor; [unfold point_of; simpl; lia|].
      now apply Forall_point_le with lo.
    + constructor; [simpl; lia|]. now apply Forall_fst_le with lo.
    + simpl. constructor; assumption.
  - destruct S as [|[x q0] S0]; [discriminate|].
    simpl in HS. injection HS as -> HS0.
    simpl in Hnd. apply NoDup_cons_iff in Hnd. destruct Hnd as [Hq0 Hnd].
    inversion HSl as [|? ? Hx HS0l]; subst. simpl in Hx.
    assert (Hcont : forall b',
      BufferedT b' S0 -> Forall (fun t => point_of t <= y) b' ->
      exists out,
        (if Z.of_nat (length (q :: map snd S0)) - 1 =? 0
         then out <- without_empty_tags_from []
                       (Z.of_nat (length (q :: map snd S0)) - 1) e ;;
              Ok (rev b' ++ out)
         else without_empty_tags_from b'
                (Z.of_nat (length (q :: map snd S0)) - 1) e) = Ok out /\
        Tidy [] out []).
    { intros b' Hb' Hb'l.
      replace (Z.of_nat (length (q :: map snd S0)) - 1)
        with (Z.of_nat (length (map snd S0))) by (simpl length; lia).
      destruct (Z.eqb_spec (Z.of_nat (length (map snd S0))) 0) as [Hz|Hnz].
      - assert (S0 = []) by (destruct S0; simpl in Hz; [reflexivity | lia]).
        subst S0. simpl in *.
        destruct (IH [] [] eq_refl BufferedT_nil (Forall_nil _) (Forall_nil _)
                    (NoDup_nil _)) as [out [Ho Hn]].
        simpl in Ho. rewrite Ho. simpl. eexists. split; [reflexivity|].
        eapply Tidy_app; [|exact Hn]. now apply BufferedT_Tidy.
      - apply (IH b' S0 eq_refl Hb' Hb'l); [|assumption].
        now apply Forall_fst_le with lo. }
    assert (Hbl' : Forall (fun t => point_of t <= y) b)
      by now apply Forall_point_le with lo.
    inversion Hb; subst.
    + (* the last buffered tag is the open this close matches *)
      rewrite without_empty_tags_from_close, Hq. simpl andb.
      destruct (Z.eqb_spec x y) as [Hxy|Hxy].
      * apply Hcont; [assumption|]. now inversion Hbl'.
      * apply Hcont; [|constructor; [unfold point_of; simpl; lia | assumption]].
        apply BufferedT_close with x q; auto. lia.
    + (* the last buffered tag is a close of some other object *)
      match goal with
      | Hb0 : BufferedT _ ((?x1, ?q1) :: (x, q) :: S0),
        Hlt : ?x1 < ?y1, Hq1 : is_ ?q1 ?q1' = true,
        Hnot : ~ In (oid ?q1) _ |- _ =>
          rewrite without_empty_tags_from_close;
          assert (Hne : is_ q1' q' = false)
            by (apply is_false_iff; apply is_true_iff in Hq, Hq1;
                intros Heq; apply Hnot; simpl; left; congruence);
          rewrite Hne; simpl andb;
          pose proof (Buffered_sorted _ _ (BufferedT_Buffered _ _ Hb0)) as Hsrt;
          inversion Hsrt as [|? ? _ Hall]; subst;
          inversion Hall as [|? ? Hx1 _]; subst; simpl in Hx1;
          inversion Hbl as [|? ? Hy1 _]; subst;
          unfold point_of in Hy1; simpl in Hy1
      end.
      apply Hcont; [|constructor; [unfold point_of; simpl; lia | assumption]].
      apply BufferedT_close with x q; auto. lia.
Qed.

Lemma balanced_tags_tidy (tags : list tag) :
  sorted_by_point tags = true ->
  opens_precede_closes tags = true ->
  exists out, balanced_tags tags = Ok out /\ Tidy [] out [].
Proof.
  intros Hs Hp.
  assert (Hs' : exists lo, points_sorted_from lo tags = true).
  { destruct tags as [|[[x st] p] rest]; [now exists 0|].
    exists x. simpl in *. now rewrite Z.leb_refl. }
  destruct Hs' as [lo Hlo].
  destruct (balanced_tags_with_empties_from_ok tags lo [] (NoDup_nil _) Hlo Hp)
    as [e [He Hok]].
  destruct (without_empty_tags_from_tidy lo [] e Hok [] [] eq_refl BufferedT_nil
              (Forall_nil _) (Forall_nil _) (NoDup_nil _)) as [out [Ho Hn]].
  exists out. unfold balanced_tags, balanced_tags_with_empties.
  rewrite He. simpl. unfold without_empty_tags. simpl in Ho. now split.
Qed.

Lemma balanced_tags_with_empties_from_tidy_id u w u' :
  Tidy u w u' ->
  balanced_tags_with_empties_from (map snd u) [] w = Ok w.
Proof.
  induction 1 as [u | u x p w u' Hfresh Ht IH | u x q y p w u' Hq Hxy Ht IH].
  - reflexivity.
  - cbn [balanced_tags_with_empties_from]. cbn [map snd] in IH.
    now rewrite IH.
  - cbn [map snd balanced_tags_with_empties_from close_intermediates].
    rewrite Hq. cbn [bind tl reopen_intermediates]. rewrite IH. reflexivity.
Qed.

Lemma without_empty_tags_from_tidy_id u w u' :
  Tidy u w u' ->
  u' = [] ->
  forall b,
    last_buffered b u ->
    (u = [] <-> b = []) ->
    NoDup (oids (map snd u)) ->
    without_empty_tags_from b (Z.of_nat (length u)) w = Ok (rev b ++ w).
Proof.
  induction 1 as [u | u x p w u' Hfresh Ht IH | u x q y p w u' Hq Hxy Ht IH];
    intros Hend b Hlast Hempty Hnd.
  - subst u. rewrite (proj1 Hempty eq_refl). reflexivity.
  - cbn [without_empty_tags_from].
    replace (Z.of_nat (length u) + 1) with (Z.of_nat (length ((x, p) :: u)))
      by (simpl length; lia).
    rewrite (IH Hend ((x, true, p) :: b)).
    + cbn [rev]. now rewrite <- app_assoc.
    + simpl. now exists u.
    + split; discriminate.
    + simpl. constructor; assumption.
  - destruct b as [|[[tp st] tq] popped];
      [discriminate (proj2 Hempty eq_refl)|].
    rewrite without_empty_tags_from_close.
    simpl in Hnd. apply NoDup_cons_iff in Hnd. destruct Hnd as [Hq0 Hnd].
    assert (Hno : is_ tq p && (tp =? y) = false).
    { destruct st; simpl in Hlast.
      - destruct Hlast as [rest Hrest]. injection Hrest as Hx _ _.
        apply andb_false_iff. right. apply Z.eqb_neq. lia.
      - apply is_true_iff in Hq.
        replace (is_ tq p) with false; [reflexivity|].
        symmetry. apply is_false_iff. intros Heq. apply Hlast. left.
        congruence. }
    rewrite Hno.
    replace (Z.of_nat (length ((x, q) :: u)) - 1) with (Z.of_nat (length u))
      by (simpl length; lia).
    assert (Hfree : ~ In (oid p) (oids (map snd u))).
    { apply is_true_iff in Hq. now rewrite <- Hq. }
    destruct (Z.eqb_spec (Z.of_nat (length u)) 0) as [Hz|Hnz].
    + assert (u = []) by (destruct u; simpl in Hz; [reflexivity | lia]).
      subst u.
      rewrite (IH Hend []); [| exact I | split; reflexivity | constructor].
      cbn [bind rev app]. now rewrite <- !app_assoc.
    + rewrite (IH Hend ((y, false, p) :: (tp, st, tq) :: popped)).
      * cbn [rev]. now rewrite <- !app_assoc.
      * exact Hfree.
      * split; [intros ->; simpl in Hnz; lia | discriminate].
      * exact Hnd.
Qed.

Lemma balanced_tags_tidy_id (w : list tag) :
  Tidy [] w [] -> balanced_tags w = Ok w.
Proof.
  intros H. unfold balanced_tags, balanced_tags_with_empties.
  pose proof (balanced_tags_with_empties_from_tidy_id [] w [] H) as He.
  cbn [map] in He. rewrite He. cbn [bind].
  unfold without_empty_tags.
  exact (without_empty_tags_from_tidy_id [] w [] H eq_refl [] I
           (conj (fun _ => eq_refl) (fun _ => eq_refl)) (NoDup_nil _)).
Qed.

(** X20.  A stream that is already balanced is left as it is: if every close
    boundary meets the most recent unmatched open of the same object at a
    strictly later offset, no object is opened while it is open, and nothing
    stays open at the end, then [balanced_tags] returns the stream itself,
    adding no tag and removing none. *)
Theorem balanced_tags_fixed_point (w : list tag) :
  Tidy [] w [] -> balanced_tags w = Ok w.
Proof. apply balanced_tags_tidy_id. Qed.

Lemma balanced_tags_fixed_point_witness :
  balanced_tags
    [ (0, true, line_marker); (0, true, region_k); (3, false, region_k);
      (3, false, line_marker) ] =
  Ok [ (0, true, line_marker); (0, true, region_k); (3, false, region_k);
       (3, false, line_marker) ].
Proof.
  apply (balanced_tags_fixed_point
           [ (0, true, line_marker); (0, true, region_k); (3, false, region_k);
             (3, false, line_marker) ]).
  apply Tidy_open; [intros [] |].
  apply Tidy_open; [intros [H|[]]; discriminate H |].
  apply Tidy_close; [reflexivity | lia |].
  apply Tidy_close; [reflexivity | lia |].
  apply Tidy_nil.
Defined.

(** X21.  Balancing twice is balancing once: on a stream sorted by offset in
    which each payload's open boundary precedes its close boundary, what
    [balanced_tags] returns goes through [balanced_tags] again unchanged. *)
Theorem balanced_tags_idempotent (tags : list tag) :
  sorted_by_point tags = true ->
  opens_precede_closes tags = true ->
  exists out,
    balanced_tags tags = Ok out /\ balanced_tags out = Ok out.
Proof.
  intros Hs Hp. destruct (balanced_tags_tidy tags Hs Hp) as [out [Ho Ht]].
  exists out. split; [exact Ho | now apply balanced_tags_tidy_id].
Qed.

Lemma balanced_tags_idempotent_witness :
  exists out,
    balanced_tags multiline_region_stream = Ok out /\
    balanced_tags out = Ok out.
Proof.
  apply (balanced_tags_idempotent multiline_region_stream); reflexivity.
Defined.
